(** * pdfrw writer: a shallow embedding of [pdfwriter.py]

    The development follows [FormatObjects] (add, format_array,
    format_obj, dump) and [PdfWriter] (addpage, write).  Python objects
    live in an arena indexed by their identity ([id(obj)]); the
    serializer's fields ([indirect_dict], [objlist], [visited]) are
    threaded explicitly; the file written to [f] is the returned string. *)

From Stdlib Require Import String Ascii Sorted.
From stdpp Require Import base list gmap sets strings pretty relations.

(** ** Strings (Python 2 [str]: byte strings) *)

Definition nl : string := String "010"%char EmptyString.
Definition cr : string := String "013"%char EmptyString.

(** [len(s)] *)
Definition len (s : string) : Z := Z.of_nat (String.length s).

(** [sep.join(l)] *)
Definition join (sep : string) (l : list string) : string := String.concat sep l.

(** ** format_array *)

Module FormatArray.

(** [sum(len(x) for x in myarray)] *)
Definition sum_len (myarray : list string) : Z :=
  foldr (λ x acc, (len x + acc)%Z) 0%Z myarray.

(** [subarray.append(x)]: [subarray] is an alias of the list appended
    last to [bigarray], so the append shows in the last group.  With an
    empty [bigarray] the name is unbound in Python; that state is never
    reached because [count] starts above the threshold. *)
Fixpoint append_last (bigarray : list (list string)) (x : string)
  : list (list string) :=
  match bigarray with
  | [] => []
  | [subarray] => [subarray ++ [x]]
  | g :: rest => g :: append_last rest x
  end.

(** One iteration of [for x in myarray], on the pair (bigarray, count). *)
Definition loop_body (st : list (list string) * Z) (x : string)
  : list (list string) * Z :=
  let '(bigarray, count) := st in
  let lenx := len x in
  let '(bigarray, count) :=
    if (70 <? lenx + count)%Z then (bigarray ++ [[]], 0%Z) else (bigarray, count) in
  let count := (count + (lenx + 1))%Z in
  (append_last bigarray x, count).

Definition loop (myarray : list string) : list (list string) :=
  fst (foldl loop_body ([], 1000000%Z) myarray).

(** The formatter ['[%s]'] or ['<<%s>>'] is given by the text before and
    after the [%s]. *)
Definition format_array (myarray : list string) (formatter : string * string)
  : string :=
  let '(opening, closing) := formatter in
  if (sum_len myarray <=? 70)%Z then
    opening +:+ join " " myarray +:+ closing
  else
    opening +:+ join (nl +:+ "  ") (map (join " ") (loop myarray)) +:+ closing.

(** *** The packing rule in the words of the specification *)

(** A token joins the current line unless the line, with the token added
    after a space, would be longer than the threshold. *)
Fixpoint greedy_from (line : list string) (tokens : list string)
  : list (list string) :=
  match tokens with
  | [] => [line]
  | x :: rest =>
      if (70 <? len (join " " (line ++ [x])))%Z
      then line :: greedy_from [x] rest
      else greedy_from (line ++ [x]) rest
  end.

Definition greedy_groups (tokens : list string) : list (list string) :=
  match tokens with
  | [] => []
  | x :: rest => greedy_from [x] rest
  end.

(** The specification's packing: one line exactly when the tokens joined
    by single spaces fit the threshold. *)
Definition pack_by_joined_length (tokens : list string) : string :=
  if (len (join " " tokens) <=? 70)%Z then join " " tokens
  else join (nl +:+ "  ") (map (join " ") (greedy_groups tokens)).

(** What the code does: the test is on the summed token lengths. *)
Definition pack_by_summed_length (tokens : list string) : string :=
  if (sum_len tokens <=? 70)%Z then join " " tokens
  else join (nl +:+ "  ") (map (join " ") (greedy_groups tokens)).

End FormatArray.

(** ** The object model *)

(** [id(obj)]: an object is known by its identity, the slot it occupies in
    the arena. *)
Abbreviation ident := nat (only parsing).

(** The three shapes [format_obj] distinguishes.  [indirect] is the
    object's attribute of that name ([getattr(obj, 'indirect', False)] for
    what is not a [PdfDict]); [Scalar] stands for everything rendered by
    [str(obj)]. *)
Inductive node :=
  | PdfArray (indirect : bool) (elems : list ident)
  | PdfDict (indirect : bool) (stream : option string) (items : list (string * ident))
  | Scalar (indirect : bool) (text : string).

Abbreviation heap := (list node) (only parsing).

(** The [indirect] local of [add]: streams are always indirect. *)
Definition is_indirect (n : node) : bool :=
  match n with
  | PdfDict indirect stream _ => indirect || bool_decide (stream ≠ None)
  | PdfArray indirect _ => indirect
  | Scalar indirect _ => indirect
  end.

(** Truth value of [obj.stream]: neither [None] nor the empty string. *)
Definition truthy (stream : option string) : bool :=
  match stream with
  | Some s => negb (String.eqb s "")
  | None => false
  end.

(** [sorted(obj.iteritems())]: pairs ordered by key, keys compared as byte
    strings.  A Python dict holds each key once, so the second component
    never decides. *)
Fixpoint insert_item (p : string * ident) (l : list (string * ident))
  : list (string * ident) :=
  match l with
  | [] => [p]
  | q :: rest =>
      if String.leb p.1 q.1 then p :: q :: rest else q :: insert_item p rest
  end.

Definition sorted (items : list (string * ident)) : list (string * ident) :=
  foldr insert_item [] items.

(** [myarray.append(key); myarray.append(self.add(value))] for each pair. *)
Fixpoint interleave (keys tokens : list string) : list string :=
  match keys, tokens with
  | k :: keys, t :: tokens => k :: t :: interleave keys tokens
  | _, _ => []
  end.

(** ['%s 0 R' % objnum] *)
Definition reference (objnum : nat) : string := pretty objnum +:+ " 0 R".

(** Modelled from the spec: attribute assignment on a dictionary of the
    object model (pdfobjects.py is not among the sources): [obj.Name = v]
    stores [v] under the key ["/Name"], replacing an earlier value. *)
Fixpoint set_item (key : string) (v : ident) (items : list (string * ident))
  : list (string * ident) :=
  match items with
  | [] => [(key, v)]
  | (k, w) :: rest =>
      if String.eqb key k then (key, v) :: rest else (k, w) :: set_item key v rest
  end.

(** Modelled from the spec: attribute read on a dictionary, [obj.Name] is
    the value stored under ["/Name"], if any. *)
Fixpoint get_item (key : string) (items : list (string * ident)) : option ident :=
  match items with
  | [] => None
  | (k, w) :: rest => if String.eqb key k then Some w else get_item key rest
  end.

(** ** Serializer state and results *)

(** The fields of a [FormatObjects] instance, with the arena the objects
    live in ([compress] may change it). *)
Record FormatObjects := mkFormatObjects {
  objs : heap;
  indirect_dict : gmap nat nat;
  objlist : list (option string);
  visited : gset nat;
}.

Definition set_objs (self : FormatObjects) (h : heap) : FormatObjects :=
  mkFormatObjects h (indirect_dict self) (objlist self) (visited self).
Definition set_indirect_dict (self : FormatObjects) (d : gmap nat nat) : FormatObjects :=
  mkFormatObjects (objs self) d (objlist self) (visited self).
Definition set_objlist (self : FormatObjects) (l : list (option string)) : FormatObjects :=
  mkFormatObjects (objs self) (indirect_dict self) l (visited self).
Definition set_visited (self : FormatObjects) (v : gset nat) : FormatObjects :=
  mkFormatObjects (objs self) (indirect_dict self) (objlist self) v.

(** What a call can end with besides a value.  [CircularReference] is the
    failed assertion of [add]; [IndexError] a list assignment out of range;
    [NoSuchObject] an identity without an object; [RecursionLimit] the
    interpreter's [RuntimeError] (maximum recursion depth exceeded), which
    ends a recursion of [add] and [format_obj] that nests deeper than the
    interpreter allows. *)
Inductive error :=
  | CircularReference (objid : ident)
  | IndexError
  | NoSuchObject (objid : ident)
  | RecursionLimit.

Inductive result (A : Type) :=
  | Ok (a : A)
  | Raise (e : error).
Arguments Ok {A} a.
Arguments Raise {A} e.

#[global] Instance result_bind : MBind result := λ A B k r,
  match r with
  | Ok a => k a
  | Raise e => Raise e
  end.

(** ** add and format_obj *)

Section serializer.

(** Modelled from the spec: the compression collaborator
    ([pdfcompress.compress] is not among the sources), applied to one
    stream-bearing dictionary.  From the payload and the items it gives
    the encoded payload, the items it keeps or rewrites, and the
    metadata it adds: keys with the text of freshly made plain scalars
    (filter name, length). *)
Variable compress1 :
  string → list (string * ident) →
  string * list (string * ident) * list (string * string).

(** [self.compress] *)
Variable compress : bool.

(** [compress([obj])]: the dictionary is changed in place, the new
    scalars are allocated after the existing objects. *)
Definition compress_obj (h : heap) (obj : ident) (indirect : bool)
    (payload : string) (items : list (string * ident)) : heap :=
  let '(payload', kept, added) := compress1 payload items in
  let fresh := seq (length h) (length added) in
  let h := h ++ map (λ kv, Scalar false kv.2) added in
  <[obj := PdfDict indirect (Some payload') (kept ++ zip (map fst added) fresh)]> h.

Section bodies.
Variable add : FormatObjects → ident → result (string * FormatObjects).

(** [[self.add(x) for x in obj]] *)
Fixpoint add_all (self : FormatObjects) (xs : list ident)
  : result (list string * FormatObjects) :=
  match xs with
  | [] => Ok ([], self)
  | x :: xs =>
      '(token, self) ← add self x;
      '(tokens, self) ← add_all self xs;
      Ok (token :: tokens, self)
  end.

Definition format_obj_body (self : FormatObjects) (obj : ident)
  : result (string * FormatObjects) :=
  match objs self !! obj with
  | None => Raise (NoSuchObject obj)
  | Some (PdfArray _ elems) =>
      '(myarray, self) ← add_all self elems;
      Ok (FormatArray.format_array myarray ("[", "]"), self)
  | Some (PdfDict indirect stream items) =>
      let self :=
        match stream with
        | Some payload =>
            if compress && truthy stream
            then set_objs self (compress_obj (objs self) obj indirect payload items)
            else self
        | None => self
        end in
      let pairs :=
        match objs self !! obj with
        | Some (PdfDict _ _ items) => sorted items
        | _ => []
        end in
      '(tokens, self) ← add_all self (map snd pairs);
      let result :=
        FormatArray.format_array (interleave (map fst pairs) tokens) ("<<", ">>") in
      match objs self !! obj with
      | Some (PdfDict _ (Some payload) _) =>
          Ok (result +:+ nl +:+ "stream" +:+ nl +:+ payload +:+ nl +:+ "endstream", self)
      | _ => Ok (result, self)
      end
  | Some (Scalar _ text) => Ok (text, self)
  end.
End bodies.

Definition add_body
    (format_obj : FormatObjects → ident → result (string * FormatObjects))
    (self : FormatObjects) (obj : ident) : result (string * FormatObjects) :=
  match objs self !! obj with
  | None => Raise (NoSuchObject obj)
  | Some n =>
      if negb (is_indirect n) then
        if decide (obj ∈ visited self) then Raise (CircularReference obj)
        else
          '(result, self) ← format_obj (set_visited self ({[obj]} ∪ visited self)) obj;
          Ok (result, set_visited self (visited self ∖ {[obj]}))
      else
        match indirect_dict self !! obj with
        | Some objnum => Ok (reference objnum, self)
        | None =>
            let objnum := length (objlist self) + 1 in
            let self := set_objlist self (objlist self ++ [None]) in
            let self := set_indirect_dict self (<[obj := objnum]> (indirect_dict self)) in
            '(text, self) ← format_obj self obj;
            if decide (objnum - 1 < length (objlist self))
            then Ok (reference objnum,
                     set_objlist self (<[objnum - 1 := Some text]> (objlist self)))
            else Raise IndexError
        end
  end.

(** The mutual recursion of [add] and [format_obj].  The recursion has no
    work list: every level of the graph takes a call of [add] and one of
    [format_obj] on the interpreter's stack.  [fuel] is the number of
    calls of [format_obj] that the interpreter still lets nest (what its
    recursion limit leaves, counted in levels of the recursion); a call
    beyond that ends with the interpreter's error. *)
Fixpoint format_obj (fuel : nat) (self : FormatObjects) (obj : ident)
  : result (string * FormatObjects) :=
  match fuel with
  | 0 => Raise RecursionLimit
  | S fuel => format_obj_body (add_body (format_obj fuel)) self obj
  end.

Definition add (fuel : nat) : FormatObjects → ident → result (string * FormatObjects) :=
  add_body (format_obj fuel).

End serializer.

(** ** dump *)

(** [str(x)] of an entry of the object list: the placeholder prints as
    [None]. *)
Definition str_entry (x : option string) : string :=
  match x with
  | Some text => text
  | None => "None"
  end.

(** ['%0<width>d' % n] for a number that is not negative. *)
Definition zero_pad (width : nat) (n : nat) : string :=
  let digits := pretty n in
  join "" (replicate (width - String.length digits) "0") +:+ digits.

(** ['%%PDF-%s\n%%\xe2\xe3\xcf\xd3\n' % version] *)
Definition header (version : string) : string :=
  "%PDF-" +:+ version +:+ nl +:+ "%"
  +:+ String "226"%char (String "227"%char (String "207"%char (String "211"%char "")))
  +:+ nl.

(** ['%s 0 obj\n%s\nendobj\n' % (i + 1, x)] *)
Definition objstr (i : nat) (x : option string) : string :=
  pretty (i + 1) +:+ " 0 obj" +:+ nl +:+ str_entry x +:+ nl +:+ "endobj" +:+ nl.

(** ['%010d %05d %s\r\n' % x] *)
Definition xref_line (x : nat * nat * string) : string :=
  let '(offset, generation, status) := x in
  zero_pad 10 offset +:+ " " +:+ zero_pad 5 generation +:+ " " +:+ status +:+ cr +:+ nl.

(** The state of the writing loop: what has been written to [f], the
    running [offset] and the [offsets] list. *)
Record written := mkWritten {
  file : string;
  offset : nat;
  offsets : list (nat * nat * string);
}.

(** One iteration of [for i, x in enumerate(self.objlist)]. *)
Definition write_obj (w : written) (ix : nat * option string) : written :=
  let s := objstr ix.1 ix.2 in
  mkWritten (file w +:+ s) (offset w + String.length s)
            (offsets w ++ [(offset w, 0, "n")]).

Definition enumerate {A} (l : list A) : list (nat * A) := zip (seq 0 (length l)) l.

Definition write_body (version : string) (objlist : list (option string)) : written :=
  foldl write_obj
        (mkWritten (header version) (String.length (header version)) [(0, 65535, "f")])
        (enumerate objlist).

(** The three last writes: the cross-reference section and the footer. *)
Definition write_xref (w : written) (trailer : string) : string :=
  file w
  +:+ ("xref" +:+ nl +:+ "0 " +:+ pretty (length (offsets w)) +:+ nl)
  +:+ join "" (map xref_line (offsets w))
  +:+ ("trailer" +:+ nl +:+ nl +:+ trailer +:+ nl +:+ "startxref" +:+ nl
       +:+ pretty (offset w) +:+ nl +:+ "%%EOF" +:+ nl).

(** Modelled from the spec: [trailer.Size = PdfObject(n)] with the object
    model of pdfobjects.py, which is not among the sources: a new plain
    scalar printing as the decimal number, stored under ["/Size"] when the
    trailer is a dictionary. *)
Definition set_Size (h : heap) (trailer : ident) (n : nat) : heap :=
  let size := length h in
  let h := h ++ [Scalar false (pretty n)] in
  match h !! trailer with
  | Some (PdfDict indirect stream items) =>
      <[trailer := PdfDict indirect stream (set_item "/Size" size items)]> h
  | _ => h
  end.

Section dump.
Variable compress1 :
  string → list (string * ident) →
  string * list (string * ident) * list (string * string).

(** The nesting of [format_obj] that the interpreter allows below [dump]. *)
Variable limit : nat.

(** A nesting that no run on the arena [h] reaches: a nested call of
    [format_obj] marks an object not marked before, in [visited] or in
    [indirect_dict]. *)
Definition enough_fuel (h : heap) : nat := 2 * length h + 2.

(** The fresh instance and its fields, as [dump] sets them. *)
Definition fresh_instance (h : heap) : FormatObjects :=
  mkFormatObjects h ∅ [] ∅.

(** The formatting part of [dump]: both passes over the trailer, giving
    the final trailer text and the instance. *)
Definition dump_format (trailer : ident) (compress : bool) (h : heap)
  : result (string * FormatObjects) :=
  let self := fresh_instance h in
  '(_, self) ← format_obj compress1 compress limit self trailer;
  let self := set_objs self (set_Size (objs self) trailer (length (objlist self) + 1)) in
  format_obj compress1 compress limit self trailer.

(** [dump(f, trailer, version, compress)]: the bytes written to [f], and
    the arena as the call leaves it. *)
Definition dump (trailer : ident) (version : string) (compress : bool) (h : heap)
  : result (string * heap) :=
  '(trailer_text, self) ← dump_format trailer compress h;
  Ok (write_xref (write_body version (objlist self)) trailer_text, objs self).

(** ** PdfWriter *)

Record PdfWriter := mkPdfWriter {
  pagearray : ident;
  pw_compress : bool;
  pw_version : string;
}.

(** [PdfWriter(version, compress)]: the page array is a new, empty
    [PdfArray]. *)
Definition PdfWriter_init (version : string) (compress : bool) (h : heap)
  : PdfWriter * heap :=
  (mkPdfWriter (length h) compress version, h ++ [PdfArray false []]).

(** [page.Type == PdfName.Page] *)
Definition is_page (h : heap) (page : ident) : bool :=
  match h !! page with
  | Some (PdfDict _ _ items) =>
      match get_item "/Type" items with
      | Some t =>
          match h !! t with
          | Some (Scalar _ text) => String.eqb text "/Page"
          | _ => false
          end
      | None => false
      end
  | _ => false
  end.

(** [addpage]; [None] is the failed assertion.
    Modelled from the spec: [IndirectPdfDict(page)] of pdfobjects.py,
    which is not among the sources, is a new dictionary with the items
    and payload of [page] and the indirect flag set. *)
Definition addpage (self : PdfWriter) (page : ident) (h : heap) : option heap :=
  if is_page h page then
    match h !! page with
    | Some (PdfDict _ stream items) =>
        let wrapped := length h in
        let h := h ++ [PdfDict true stream items] in
        match h !! pagearray self with
        | Some (PdfArray indirect elems) =>
            Some (<[pagearray self := PdfArray indirect (elems ++ [wrapped])]> h)
        | _ => None
        end
    | _ => None
    end
  else None.

(** [page.Parent = pagedict] *)
Definition set_Parent (pagedict : ident) (h : heap) (page : ident) : heap :=
  match h !! page with
  | Some (PdfDict indirect stream items) =>
      <[page := PdfDict indirect stream (set_item "/Parent" pagedict items)]> h
  | _ => h
  end.

(** The first part of [write(fname)]: the Pages node, the Catalog and the
    trailer are made and every page gets its [Parent]; the result is the
    trailer and the arena.  The new objects are a [PdfName] and a
    [PdfObject] per attribute, the two nodes and the trailer. *)
Definition write_graph (self : PdfWriter) (h : heap) : ident * heap :=
  let pages :=
    match h !! pagearray self with
    | Some (PdfArray _ elems) => elems
    | _ => []
    end in
  let name_pages := length h in
  let count := length h + 1 in
  let pagedict := length h + 2 in
  let h := h ++ [Scalar false "/Pages"; Scalar false (pretty (length pages));
                 PdfDict true None [("/Type", name_pages); ("/Count", count);
                                    ("/Kids", pagearray self)]] in
  let h := foldl (set_Parent pagedict) h pages in
  let name_catalog := length h in
  let rootdict := length h + 1 in
  let trailer := length h + 2 in
  let h := h ++ [Scalar false "/Catalog";
                 PdfDict true None [("/Type", name_catalog); ("/Pages", pagedict)];
                 PdfDict false None [("/Root", rootdict)]] in
  (trailer, h).

(** [write(fname)]: the bytes of the file and the arena afterwards. *)
Definition write (self : PdfWriter) (h : heap) : result (string * heap) :=
  let '(trailer, h) := write_graph self h in
  dump trailer (pw_version self) (pw_compress self) h.

End dump.

(** ** The object graph *)

(** The objects an object refers to, in the order [format_obj] walks them. *)
Definition children_of (n : node) : list ident :=
  match n with
  | PdfArray _ elems => elems
  | PdfDict _ _ items => map snd (sorted items)
  | Scalar _ _ => []
  end.

Definition children (h : heap) (obj : ident) : list ident :=
  match h !! obj with
  | Some n => children_of n
  | None => []
  end.

Definition indirect_at (h : heap) (obj : ident) : bool :=
  match h !! obj with
  | Some n => is_indirect n
  | None => false
  end.

(** [obj] refers to [x] directly. *)
Definition refers (h : heap) (obj x : ident) : Prop := x ∈ children h obj.

(** [x] is reachable from [obj] along one reference or more. *)
Definition reachable (h : heap) (obj x : ident) : Prop := tc (refers h) obj x.

(** A collaborator that leaves the dictionary as it is (what the real one
    does to a payload that does not shrink). *)
Definition example_compress1 (payload : string) (items : list (string * ident))
  : string * list (string * ident) * list (string * string) :=
  (payload, items, []).

(** A collaborator of the kind the specification describes: a dictionary
    that has neither key yet keeps its items and gets the filter name and
    the length of the encoded payload; any other dictionary is left as it
    is.  The encoded bytes are a stand-in: the payload behind a marker. *)
Definition example_filter (payload : string) (items : list (string * ident))
  : string * list (string * ident) * list (string * string) :=
  match get_item "/Filter" items, get_item "/Length" items with
  | None, None =>
      let encoded := "x" +:+ payload in
      (encoded, items,
       [("/Filter", "/FlateDecode"); ("/Length", pretty (String.length encoded))])
  | _, _ => (payload, items, [])
  end.

(** ** Successful runs as a relation *)

Section runs.
Variable compress1 :
  string → list (string * ident) →
  string * list (string * ident) * list (string * string).
Variable compress : bool.

(** The instance as [format_obj] has it when it starts on the children:
    after [compress([obj])], where that is called. *)
Definition prepared (self : FormatObjects) (obj : ident) : FormatObjects :=
  match objs self !! obj with
  | Some (PdfDict indirect (Some payload) items) =>
      if compress && truthy (Some payload)
      then set_objs self (compress_obj compress1 (objs self) obj indirect payload items)
      else self
  | _ => self
  end.

(** The text [format_obj] returns for [obj] from the tokens of its
    children; the keys are read before the children are walked, the
    payload after. *)
Definition rendered (before after : heap) (obj : ident) (tokens : list string)
  : string :=
  match before !! obj with
  | Some (PdfArray _ _) => FormatArray.format_array tokens ("[", "]")
  | Some (PdfDict _ _ items) =>
      let result :=
        FormatArray.format_array
          (interleave (map fst (sorted items)) tokens) ("<<", ">>") in
      match after !! obj with
      | Some (PdfDict _ (Some payload) _) =>
          result +:+ nl +:+ "stream" +:+ nl +:+ payload +:+ nl +:+ "endstream"
      | _ => result
      end
  | Some (Scalar _ text) => text
  | None => ""
  end.

(** The instance once [add] has reserved the next number for [obj]. *)
Definition reserved (self : FormatObjects) (obj : ident) : FormatObjects :=
  set_indirect_dict (set_objlist self (objlist self ++ [None]))
    (<[obj := length (objlist self) + 1]> (indirect_dict self)).

Inductive fmt_run : FormatObjects → ident → string → FormatObjects → Prop :=
  | fmt_run_children self obj tokens self' :
      is_Some (objs self !! obj) →
      all_run (prepared self obj)
              (children (objs (prepared self obj)) obj) tokens self' →
      fmt_run self obj
              (rendered (objs (prepared self obj)) (objs self') obj tokens) self'
with add_run : FormatObjects → ident → string → FormatObjects → Prop :=
  | add_run_inline self obj result self' :
      is_Some (objs self !! obj) →
      indirect_at (objs self) obj = false →
      obj ∉ visited self →
      fmt_run (set_visited self ({[obj]} ∪ visited self)) obj result self' →
      add_run self obj result (set_visited self' (visited self' ∖ {[obj]}))
  | add_run_known self obj objnum :
      indirect_at (objs self) obj = true →
      indirect_dict self !! obj = Some objnum →
      add_run self obj (reference objnum) self
  | add_run_new self obj text self' :
      indirect_at (objs self) obj = true →
      indirect_dict self !! obj = None →
      fmt_run (reserved self obj) obj text self' →
      length (objlist self) < length (objlist self') →
      add_run self obj (reference (length (objlist self) + 1))
              (set_objlist self' (<[length (objlist self) := Some text]> (objlist self')))
with all_run : FormatObjects → list ident → list string → FormatObjects → Prop :=
  | all_run_nil self : all_run self [] [] self
  | all_run_cons self x xs token tokens self1 self2 :
      add_run self x token self1 →
      all_run self1 xs tokens self2 →
      all_run self (x :: xs) (token :: tokens) self2.

Scheme fmt_run_mut := Minimality for fmt_run Sort Prop
  with add_run_mut := Minimality for add_run Sort Prop
  with all_run_mut := Minimality for all_run Sort Prop.
Combined Scheme run_mutind from fmt_run_mut, add_run_mut, all_run_mut.

End runs.

(** ** The calls of format_obj *)

Section call_log.
Variable compress1 :
  string → list (string * ident) →
  string * list (string * ident) * list (string * string).
Variable compress : bool.

Section one_level.
(** The calls made below a call of [format_obj] on a child, and [add]. *)
Variable calls : FormatObjects → ident → list ident.
Variable add : FormatObjects → ident → result (string * FormatObjects).

(** The calls of [format_obj] that [self.add(obj)] makes: none for an
    object that has its number and none when the assertion fails. *)
Definition add_calls (self : FormatObjects) (obj : ident) : list ident :=
  match objs self !! obj with
  | None => []
  | Some n =>
      if negb (is_indirect n) then
        if decide (obj ∈ visited self) then []
        else calls (set_visited self ({[obj]} ∪ visited self)) obj
      else
        match indirect_dict self !! obj with
        | Some _ => []
        | None => calls (reserved self obj) obj
        end
  end.

(** Those of [[self.add(x) for x in obj]]: the loop ends at the first
    error. *)
Fixpoint all_calls (self : FormatObjects) (xs : list ident) : list ident :=
  match xs with
  | [] => []
  | x :: xs =>
      add_calls self x
      ++ match add self x with
         | Ok (_, self) => all_calls self xs
         | Raise _ => []
         end
  end.
End one_level.

(** The objects on which [format_obj] is called while
    [format_obj fuel self obj] runs, in the order of the calls; the
    first is [obj] itself. *)
Fixpoint calls (fuel : nat) (self : FormatObjects) (obj : ident) : list ident :=
  match fuel with
  | 0 => []
  | S fuel =>
      let self := prepared compress1 compress self obj in
      obj :: all_calls (calls fuel) (add compress1 compress fuel) self
                       (children (objs self) obj)
  end.

End call_log.

(** ** Predicates on instances and arenas *)

(** Entries of the table stay, the object list is only extended and the
    guard set is as before. *)
Definition grows (s s' : FormatObjects) : Prop :=
  indirect_dict s ⊆ indirect_dict s'
  ∧ objlist s `prefix_of` objlist s'
  ∧ visited s' = visited s.

(** A plain scalar: rendered in place, holding no reference. *)
Definition is_plain (h : heap) (obj : ident) : bool :=
  match h !! obj with
  | Some (Scalar false _) => true
  | _ => false
  end.

(** What may become of an object while the serializer runs: a dictionary
    with a payload may get another payload and other items; every other
    object stays as it is. *)
Definition node_evolves (n n' : node) : Prop :=
  match n with
  | PdfDict indirect (Some _) _ =>
      ∃ payload' items', n' = PdfDict indirect (Some payload') items'
  | _ => n' = n
  end.

(** The arena at a later time: the objects have evolved, and the new ones
    are plain scalars. *)
Definition heap_evolves (h h' : heap) : Prop :=
  (∀ obj n, h !! obj = Some n → ∃ n', h' !! obj = Some n' ∧ node_evolves n n')
  ∧ (∀ obj, h !! obj = None → h' !! obj = None ∨ is_plain h' obj = true).

(** Every reference is to an object of the arena. *)
Definition closed (h : heap) : Prop :=
  Forall (λ n, Forall (λ x, x < length h) (children_of n)) h.

(** The references of an object other than those to plain scalars. *)
Definition links (h : heap) (obj : ident) : list ident :=
  filter (λ x, is_plain h x = false) (children h obj).

(** The contract of the compression collaborator that the graph properties
    rest on: in an arena whose references are all to objects of the
    arena, compressing a dictionary adds, removes or rewrites plain
    scalars only (filter name, length); the other references stay, in
    their order. *)
Definition keeps_links
    (compress1 : string → list (string * ident) →
                 string * list (string * ident) * list (string * string)) : Prop :=
  ∀ (h : heap) obj indirect payload items,
    closed h →
    h !! obj = Some (PdfDict indirect (Some payload) items) →
    links (compress_obj compress1 h obj indirect payload items) obj = links h obj.

(** The collaborator keeps the entry [/Size] of a dictionary it is
    applied to. *)
Definition keeps_Size
    (compress1 : string → list (string * ident) →
                 string * list (string * ident) * list (string * string)) : Prop :=
  ∀ payload items v,
    ("/Size", v) ∈ items → ("/Size", v) ∈ (compress1 payload items).1.2.

(** The token at a reference site: where the child [c] of an object is
    indirect in the arena [h], its token in the text of the object is the
    reference with the number that the table [d] has for [c]. *)
Definition site (d : gmap nat nat) (h : heap) (c : ident) (token : string) : Prop :=
  indirect_at h c = true →
  ∃ objnum, d !! c = Some objnum ∧ token = pretty objnum +:+ " 0 R".

(** [order] lists the numbered objects by number: the object at position
    [k] has the number [k + 1], and the object list has a slot for each. *)
Definition numbered (self : FormatObjects) (order : list ident) : Prop :=
  length (objlist self) = length order
  ∧ ∀ obj n, indirect_dict self !! obj = Some n
             ↔ ∃ k, n = S k ∧ order !! k = Some obj.

(** The instance between the passes of [dump]: the trailer has its [Size]. *)
Definition sized (s : FormatObjects) (trailer : ident) : FormatObjects :=
  set_objs s (set_Size (objs s) trailer (length (objlist s) + 1)).

(** ** Arenas of the scenarios *)

(** A document of one page with a content stream, as [write] builds it:
    the page is object 3, its content stream object 10, the page array
    object 2, the Pages node object 6, the Catalog object 8 and the
    trailer object 9. *)
Definition doc_arena : heap :=
  [Scalar false "/Page";
   PdfDict false None [("/Type", 0)];
   PdfArray false [3];
   PdfDict true None [("/Type", 0); ("/Parent", 6); ("/Contents", 10)];
   Scalar false "/Pages";
   Scalar false "1";
   PdfDict true None [("/Type", 4); ("/Count", 5); ("/Kids", 2)];
   Scalar false "/Catalog";
   PdfDict true None [("/Type", 7); ("/Pages", 6)];
   PdfDict false None [("/Root", 8)];
   PdfDict false (Some "BT ET") []].

(** A trailer (object 0) that is indirect and that the Catalog refers
    back to. *)
Definition back_arena : heap :=
  [PdfDict true None [("/Root", 1)];
   PdfDict true None [("/Type", 2); ("/Back", 0)];
   Scalar false "/Catalog"].

(** The trailer (object 0) holds a dictionary [A] (object 1) that is not
    indirect; [A] refers to the indirect dictionary [B] (object 2), and
    [B] back to [A]. *)
Definition ring_arena : heap :=
  [PdfDict false None [("/A", 1)];
   PdfDict false None [("/B", 2)];
   PdfDict true None [("/A", 1)]].

(** A page dictionary [{Type: /Page}] and nothing else. *)
Definition page_arena (indirect : bool) : heap :=
  [Scalar false "/Page"; PdfDict indirect None [("/Type", 0)]].

(** A trailer that carries a payload, and a Catalog. *)
Definition stream_trailer_arena : heap :=
  [PdfDict false (Some "abc") [("/Root", 1)];
   PdfDict true None [("/Type", 2)];
   Scalar false "/Catalog"].

(** Arrays nested in each other, [depth] of them, around a scalar; no
    object is indirect and no reference leads back. *)
Definition chain_arena (depth : nat) : heap :=
  map (λ i, PdfArray false [S i]) (seq 0 depth) ++ [Scalar false "null"].

(** [obj] links to [x]: a reference other than to a plain scalar. *)
Definition link (h : heap) (obj x : ident) : Prop := x ∈ links h obj.

(** An arena [h] that the closed arena [h0] has become, with the links and
    the indirect objects of [h0]. *)
Definition static (h0 h : heap) : Prop :=
  closed h
  ∧ (∀ x, links h x = links h0 x)
  ∧ (∀ x, indirect_at h x = indirect_at h0 x).

(** An arena [h] whose links are among those of the closed arena [h0]. *)
Definition within (h0 h : heap) : Prop :=
  closed h
  ∧ (∀ x c, c ∈ links h x → c ∈ links h0 x)
  ∧ (∀ x, indirect_at h x = indirect_at h0 x).

(** [j] is an indirect object met from [o] along links through objects
    that are not indirect: a reference token in the text of [o]. *)
Inductive inline_target (h : heap) : ident → ident → Prop :=
  | inline_target_here o j :
      link h o j → indirect_at h j = true → inline_target h o j
  | inline_target_step o c j :
      link h o c → indirect_at h c = false → inline_target h c j →
      inline_target h o j.

(** The table [d] has every reference token of the text of [o]. *)
Definition covered (h : heap) (d : gmap nat nat) (o : ident) : Prop :=
  ∀ j, inline_target h o j → is_Some (d !! j).

(** [c] needs no new number: it is rendered in place and holds no
    reference, or it has a number, or the reference tokens of its text
    all have one. *)
Definition settled (h0 : heap) (s : FormatObjects) (c : ident) : Prop :=
  is_plain (objs s) c = true
  ∨ (indirect_at h0 c = true ∧ is_Some (indirect_dict s !! c))
  ∨ (indirect_at h0 c = false ∧ covered h0 (indirect_dict s) c).

(** ** Discovery order, in the words of the specification *)

(** Pre-order, depth-first: the children of [obj] are walked from left to
    right; an indirect object met for the first time is appended to the
    objects seen so far before its own children are walked, one met again
    is left alone, and an object that is not indirect is walked through
    each time it is met. *)
Fixpoint discover (h : heap) (fuel : nat) (seen : list ident) (obj : ident)
  : list ident :=
  match fuel with
  | 0 => seen
  | S fuel =>
      foldl (λ seen x,
               if indirect_at h x then
                 if bool_decide (x ∈ seen) then seen
                 else discover h fuel (seen ++ [x]) x
               else discover h fuel seen x)
            seen (children h obj)
  end.

(** One step of the walk over the children. *)
Definition discover_child (h : heap) (fuel : nat) (seen : list ident) (x : ident)
  : list ident :=
  if indirect_at h x then
    if bool_decide (x ∈ seen) then seen else discover h fuel (seen ++ [x]) x
  else discover h fuel seen x.

(** ** The recursion budget *)

(** The objects of the arena that are not plain scalars. *)
Definition composite (h : heap) : gset nat :=
  list_to_set (filter (λ x, is_plain h x = false) (seq 0 (length h))).

(** What bounds the nesting of [format_obj]: the objects that can still
    enter the guard set, and those that can still enter the table. *)
Definition budget (s : FormatObjects) : nat :=
  size (composite (objs s) ∖ visited s)
  + size (composite (objs s) ∖ dom (indirect_dict s)).

(** What a call ends with when the arena is closed and the interpreter
    allows the nesting: a value, or the failed assertion of [add]. *)
Definition ends_well {A} (r : result A) : Prop :=
  (∃ a, r = Ok a) ∨ (∃ x, r = Raise (CircularReference x)).

(** What a call ends with on a closed arena, whatever the interpreter
    allows: a value, the failed assertion of [add], or the interpreter's
    error. *)
Definition ends {A} (r : result A) : Prop :=
  ends_well r ∨ r = Raise RecursionLimit.

(** ** Walks and cycles *)

(** [walk R x p y]: from [x] the steps of [R] lead through the objects of
    [p], one after the other, to [y], the last of them ([x] itself when
    [p] is empty). *)
Inductive walk (R : relation nat) : nat → list nat → nat → Prop :=
  | walk_nil x : walk R x [] x
  | walk_cons x y p z : R x y → walk R y p z → walk R x (y :: p) z.

(** A link to an object that is not indirect: the object is inlined. *)
Definition inline_link (h : heap) (x y : ident) : Prop :=
  link h x y ∧ indirect_at h y = false.

(** Every cycle passes through an indirect object. *)
Definition cycles_through_indirect (h : heap) : Prop :=
  ∀ c p, p ≠ [] → walk (refers h) c p c →
         ∃ d, d ∈ p ∧ indirect_at h d = true.

(** The condition under which the code succeeds: every cycle through an
    object [c] that is not indirect passes through an indirect object,
    other than the trailer, that every walk from the trailer to [c]
    passes through as well (so that it has its number when [c] is
    inlined). *)
Definition guarded (h : heap) (trailer : ident) : Prop :=
  ∀ c p, indirect_at h c = false → p ≠ [] → walk (refers h) c p c →
    ∃ d, d ∈ p ∧ indirect_at h d = true ∧ d ≠ trailer
         ∧ ∀ q, walk (refers h) trailer q c → d ∈ q.

(** The recursion at some moment: [p] are the objects whose formatting is
    under way below the trailer, outermost first.  The guard set holds
    objects of [p] only, the indirect objects of [p] have their number,
    and none of them is in [p] twice. *)
Definition on_stack (h0 : heap) (s : FormatObjects) (p : list ident) : Prop :=
  (∀ v, v ∈ visited s → v ∈ p ∧ v ∈ composite (objs s))
  ∧ (∀ x, x ∈ p → indirect_at h0 x = true → is_Some (indirect_dict s !! x))
  ∧ (∀ i j x, p !! i = Some x → p !! j = Some x →
              indirect_at h0 x = true → i = j).

(** [compress([obj])] is called for no object of the arena: compression
    is off, or no payload is a string other than the empty one. *)
Definition never_compressed (compress : bool) (h : heap) : Prop :=
  ∀ obj indirect payload items,
    h !! obj = Some (PdfDict indirect (Some payload) items) →
    compress && truthy (Some payload) = false.

(** [block] is the text of the object [x] in a file whose table is [d]:
    a successful [format_obj] on [x] gave it, on an arena that the arena
    [h0] of the call to [dump] has become ([h0] itself where [compress]
    is not called) and with a table that is part of [d]; it is made of
    the tokens of the children of [x], and the token of a child that is
    indirect is the reference with the number that [d] has for the
    child. *)
Definition formatted_as
    (compress1 : string → list (string * ident) →
                 string * list (string * ident) * list (string * string))
    (compress : bool) (h0 : heap) (d : gmap nat nat) (x : ident) (block : string)
  : Prop :=
  ∃ sx sx' tokens,
    fmt_run compress1 compress sx x block sx'
    ∧ heap_evolves h0 (objs sx)
    ∧ (never_compressed compress h0 → objs sx = h0)
    ∧ indirect_dict sx' ⊆ d
    ∧ block = rendered (objs (prepared compress1 compress sx x)) (objs sx') x tokens
    ∧ Forall2 (site d (objs (prepared compress1 compress sx x)))
              (children (objs (prepared compress1 compress sx x)) x) tokens.

(** Every slot of the object list outside [pending] holds the text of the
    object that has the slot's number. *)
Definition blocks_stored
    (compress1 : string → list (string * ident) →
                 string * list (string * ident) * list (string * string))
    (compress : bool) (h0 : heap) (pending : gset nat) (s : FormatObjects) : Prop :=
  ∀ i, i < length (objlist s) → i ∉ pending →
    ∃ x block,
      objlist s !! i = Some (Some block)
      ∧ indirect_dict s !! x = Some (S i)
      ∧ formatted_as compress1 compress h0 (indirect_dict s) x block.

(** [x] was formatted by a successful call, on an arena with the links of
    [h0]. *)
Definition formatted
    (compress1 : string → list (string * ident) →
                 string * list (string * ident) * list (string * string))
    (compress : bool) (h0 : heap) (x : ident) : Prop :=
  ∃ sx text sx', fmt_run compress1 compress sx x text sx' ∧ static h0 (objs sx).

(** The same object, whatever the order in which a dictionary hands out
    its items; a dictionary holds each key once. *)
Definition same_object (n n' : node) : Prop :=
  match n, n' with
  | PdfDict indirect stream items, PdfDict indirect' stream' items' =>
      indirect' = indirect ∧ stream' = stream
      ∧ NoDup (map fst items) ∧ items ≡ₚ items'
  | PdfDict _ _ _, _ => False
  | _, _ => n' = n
  end.

Definition same_objects (h h' : heap) : Prop := Forall2 same_object h h'.

(** What a call gives besides the arena or the instance it leaves. *)
Definition value_of {A B} (r : result (A * B)) : result A :=
  '(a, _) ← r; Ok a.

(** The arena [h'] shows the object [x] as [h] does: it is there in both
    or in neither, indirect in both or in neither, with the same
    references in the order of the walk, and rendered alike. *)
Definition same_view (h h' : heap) (x : ident) : Prop :=
  (is_Some (h' !! x) ↔ is_Some (h !! x))
  ∧ indirect_at h' x = indirect_at h x
  ∧ children h' x = children h x
  ∧ ∀ tokens, rendered h' h' x tokens = rendered h h x tokens.

(** ** The loop of the script *)

(** [for page in pages: y.addpage(page)]; the first failed assertion ends
    the loop. *)
Fixpoint addpages (self : PdfWriter) (pages : list ident) (h : heap) : option heap :=
  match pages with
  | [] => Some h
  | page :: pages =>
      match addpage self page h with
      | Some h => addpages self pages h
      | None => None
      end
  end.

(** The arena of a writer made on [h], when the pages [sources] have been
    added: behind the objects of [h] come the page array and one wrapper
    for each page, in the order of the calls. *)
Definition pages_added (h : heap) (sources : list ident) (hk : heap) : Prop :=
  length hk = length h + 1 + length sources
  ∧ hk !! length h = Some (PdfArray false (seq (length h + 1) (length sources)))
  ∧ (∀ x, x < length h → hk !! x = h !! x)
  ∧ (∀ i page, sources !! i = Some page →
       ∃ indirect stream items,
         h !! page = Some (PdfDict indirect stream items)
         ∧ hk !! (length h + 1 + i) = Some (PdfDict true stream items)).

(** No object of the arena is reached from itself. *)
Definition acyclic (h : heap) : Prop :=
  ∀ c p, p ≠ [] → ¬ walk (refers h) c p c.

(* ================================================================== *)
(** * Properties *)
(* ================================================================== *)

(** ** Token packing *)

Section packing.
Import FormatArray.

Lemma app_cons a s t : String a s +:+ t = String a (s +:+ t).
Proof. reflexivity. Qed.

Lemma app_assoc_str s t u : (s +:+ t) +:+ u = s +:+ (t +:+ u).
Proof.
  induction s as [|a s IH]; [reflexivity|].
  by rewrite !app_cons, IH.
Qed.

Lemma length_app_str s t :
  String.length (s +:+ t) = String.length s + String.length t.
Proof.
  induction s as [|a s IH]; [reflexivity|].
  rewrite app_cons. cbn [String.length]. by rewrite IH.
Qed.

Lemma len_append s t : len (s +:+ t) = (len s + len t)%Z.
Proof. unfold len. rewrite length_app_str. lia. Qed.

Lemma join_cons2 sep a b (l : list string) :
  join sep (a :: b :: l) = a +:+ sep +:+ join sep (b :: l).
Proof. reflexivity. Qed.

Lemma join_snoc sep (l : list string) x :
  l ≠ [] → join sep (l ++ [x]) = join sep l +:+ sep +:+ x.
Proof.
  induction l as [|a l IH]; [done|]. intros _.
  destruct l as [|b l].
  - reflexivity.
  - change ((a :: b :: l) ++ [x]) with (a :: (b :: l) ++ [x]).
    change ((b :: l) ++ [x]) with (b :: (l ++ [x])) at 1.
    rewrite join_cons2.
    change (b :: (l ++ [x])) with ((b :: l) ++ [x]).
    rewrite IH by done. rewrite join_cons2.
    by rewrite !app_assoc_str.
Qed.

Lemma append_last_snoc done line x :
  append_last (done ++ [line]) x = done ++ [line ++ [x]].
Proof.
  induction done as [|g done IH]; simpl; [done|].
  rewrite IH. by destruct done.
Qed.

(** The loop's counter is the length of the current line plus the space
    that a further token would need. *)
Lemma loop_from done line rest :
  line ≠ [] →
  fst (foldl loop_body (done ++ [line], (len (join " " line) + 1)%Z) rest)
  = done ++ greedy_from line rest.
Proof.
  revert done line. induction rest as [|x rest IH]; intros done line Hne.
  { done. }
  simpl. rewrite (join_snoc _ line x Hne), !len_append.
  change (len " ") with 1%Z.
  replace (len (join " " line) + (1 + len x))%Z
    with (len x + (len (join " " line) + 1))%Z by lia.
  destruct (70 <? len x + (len (join " " line) + 1))%Z eqn:Hcmp.
  - rewrite <- (app_assoc done [line] [[]]).
    change ([line] ++ [[]]) with ([line; []] : list (list string)).
    replace (done ++ [line; []]) with ((done ++ [line]) ++ [[]])
      by by rewrite <- app_assoc.
    rewrite append_last_snoc. simpl.
    specialize (IH (done ++ [line]) [x]). simpl in IH.
    replace (0 + (len x + 1))%Z with (len x + 1)%Z by lia.
    rewrite IH by done. by rewrite <- app_assoc.
  - rewrite append_last_snoc.
    specialize (IH done (line ++ [x])).
    rewrite (join_snoc _ line x Hne), !len_append in IH.
    change (len " ") with 1%Z in IH.
    replace (len (join " " line) + 1 + (len x + 1))%Z
      with (len (join " " line) + (1 + len x) + 1)%Z by lia.
    apply IH. by destruct line.
Qed.

Lemma len_nonneg s : (0 <= len s)%Z.
Proof. unfold len. lia. Qed.

Lemma loop_greedy tokens : loop tokens = greedy_groups tokens.
Proof.
  destruct tokens as [|x rest]; [done|].
  unfold loop. simpl.
  pose proof (len_nonneg x).
  destruct (70 <? len x + 1000000)%Z eqn:Hcmp; [|lia].
  replace (0 + (len x + 1))%Z with (len (join " " [x]) + 1)%Z by (simpl; lia).
  apply (loop_from [] [x] rest). done.
Qed.

(** C5, as the code has it: the tokens go on one line when their summed
    length, separating spaces not counted, is at most 70; otherwise they
    are grouped greedily, a token opening a new group exactly when the
    current group joined by single spaces would, with the token added,
    be longer than 70; groups are joined by single spaces inside and by a
    newline and two spaces between them. *)
Theorem format_array_packing tokens opening closing :
  format_array tokens (opening, closing)
  = opening +:+ pack_by_summed_length tokens +:+ closing.
Proof.
  unfold format_array, pack_by_summed_length. rewrite loop_greedy.
  by destruct (sum_len tokens <=? 70)%Z.
Qed.

(** C5 fails as stated: seven tokens of ten bytes have summed length 70
    and joined length 76; the code writes them on one line of 76 bytes,
    where packing by joined length breaks the line after the sixth. *)
Lemma format_array_joined_length_counterexample :
  let tokens := replicate 7 "aaaaaaaaaa" in
  len (join " " tokens) = 76%Z
  ∧ format_array tokens ("[", "]") = "[" +:+ join " " tokens +:+ "]"
  ∧ format_array tokens ("[", "]")
    ≠ "[" +:+ pack_by_joined_length tokens +:+ "]".
Proof. vm_compute. repeat split; [done..|discriminate]. Qed.

End packing.

(** ** Runs of the serializer *)

Section adequacy.
Variable compress1 :
  string → list (string * ident) →
  string * list (string * ident) * list (string * string).
Variable compress : bool.

Local Abbreviation fmt_run := (fmt_run compress1 compress).
Local Abbreviation add_run := (add_run compress1 compress).
Local Abbreviation all_run := (all_run compress1 compress).
Local Abbreviation prep := (prepared compress1 compress).

Lemma bind_Ok {A B} (r : result A) (k : A → result B) b :
  r ≫= k = Ok b → ∃ a, r = Ok a ∧ k a = Ok b.
Proof. destruct r as [a|e]; [eauto | done]. Qed.

Lemma add_all_run addf self xs tokens self' :
  (∀ s x tok s', addf s x = Ok (tok, s') → add_run s x tok s') →
  add_all addf self xs = Ok (tokens, self') →
  all_run self xs tokens self'.
Proof.
  intros Hadd. revert self tokens self'.
  induction xs as [|x xs IH]; intros self tokens self' H; simpl in H.
  - injection H as <- <-. constructor.
  - apply bind_Ok in H as ([tok s1] & H1 & H).
    apply bind_Ok in H as ([toks s2] & H2 & H).
    injection H as <- <-. econstructor; eauto.
Qed.

Lemma compress_obj_lookup h obj indirect payload items :
  obj < length h →
  ∃ payload' items',
    compress_obj compress1 h obj indirect payload items !! obj
    = Some (PdfDict indirect (Some payload') items').
Proof.
  intros Hlt. unfold compress_obj.
  destruct (compress1 payload items) as [[payload' kept] added].
  eexists _, _. apply list_lookup_insert_eq.
  rewrite length_app. lia.
Qed.

Lemma prepared_id self obj :
  (∀ indirect payload items,
     objs self !! obj = Some (PdfDict indirect (Some payload) items) →
     compress && truthy (Some payload) = false) →
  prep self obj = self.
Proof.
  intros H. unfold prepared.
  destruct (objs self !! obj) as [[|ind [payload|] items|]|]; try done.
  by rewrite (H ind payload items).
Qed.

(** [format_obj] in one shape for the three kinds of object: the children
    are walked from the prepared instance, the text is put together
    afterwards. *)
Lemma format_obj_body_unfold addf self obj :
  format_obj_body compress1 compress addf self obj
  = match objs self !! obj with
    | None => Raise (NoSuchObject obj)
    | Some _ =>
        '(tokens, self') ← add_all addf (prep self obj)
                                   (children (objs (prep self obj)) obj);
        Ok (rendered (objs (prep self obj)) (objs self') obj tokens, self')
    end.
Proof.
  unfold format_obj_body.
  destruct (objs self !! obj) as [n|] eqn:Hn; [|done].
  destruct n as [ind elems|ind stream items|ind txt].
  - rewrite prepared_id by (intros ???; congruence).
    unfold rendered, children. rewrite Hn. cbn [children_of].
    destruct (add_all addf self elems) as [[toks s1]|e]; done.
  - set (self0 := match stream with
                  | Some payload => if compress && truthy stream
                      then set_objs self (compress_obj compress1 (objs self) obj ind payload items)
                      else self
                  | None => self end) in *.
    assert (Hprep : prep self obj = self0).
    { unfold prepared. rewrite Hn. subst self0. by destruct stream. }
    assert (∃ ind' stream' items', objs self0 !! obj = Some (PdfDict ind' stream' items'))
      as (ind' & stream' & items' & Hn0).
    { subst self0. destruct stream as [payload|]; [|eauto].
      destruct (compress && truthy (Some payload)); [|eauto]. simpl.
      destruct (compress_obj_lookup (objs self) obj ind payload items) as (p' & i' & ->);
        [by eapply lookup_lt_Some | eauto]. }
    rewrite Hprep. unfold rendered, children. rewrite Hn0. cbn [children_of].
    destruct (add_all addf self0 (map snd (sorted items'))) as [[toks s1]|e]; [|done].
    simpl. by destruct (objs s1 !! obj) as [[| ? [?|] ?|]|].
  - rewrite prepared_id by (intros ???; congruence).
    unfold rendered, children. rewrite Hn. done.
Qed.

Lemma add_all_cons addf self x xs :
  add_all addf self (x :: xs)
  = '(token, self1) ← addf self x;
    '(tokens, self2) ← add_all addf self1 xs;
    Ok (token :: tokens, self2).
Proof. reflexivity. Qed.

Lemma format_obj_body_run addf self obj text self' :
  (∀ s x tok s', addf s x = Ok (tok, s') → add_run s x tok s') →
  format_obj_body compress1 compress addf self obj = Ok (text, self') →
  fmt_run self obj text self'.
Proof.
  intros Hadd H. rewrite format_obj_body_unfold in H.
  destruct (objs self !! obj) as [n|] eqn:Hn; [|done].
  apply bind_Ok in H as ([toks s1] & H1 & H). injection H as <- <-.
  apply fmt_run_children; [by rewrite Hn|].
  by eapply add_all_run.
Qed.

Lemma add_body_run fmt self obj tok self' :
  (∀ s x t s', fmt s x = Ok (t, s') → fmt_run s x t s') →
  (∀ s x t s', fmt s x = Ok (t, s') → length (objlist s) ≤ length (objlist s')) →
  add_body fmt self obj = Ok (tok, self') →
  add_run self obj tok self'.
Proof.
  intros Hfmt Hlen H. unfold add_body in H.
  destruct (objs self !! obj) as [n|] eqn:Hn; [|done].
  destruct (is_indirect n) eqn:Hind; simpl in H.
  - destruct (indirect_dict self !! obj) as [objnum|] eqn:Hd.
    + injection H as <- <-. apply add_run_known; [|done].
      unfold indirect_at. by rewrite Hn.
    + apply bind_Ok in H as ([text s1] & H1 & H).
      case_decide as Hix; [|done]. injection H as <- <-.
      replace (length (objlist self) + 1 - 1) with (length (objlist self)) in * by lia.
      apply add_run_new; [unfold indirect_at; by rewrite Hn|done|by apply Hfmt|done].
  - case_decide as Hvis; [done|].
    apply bind_Ok in H as ([text s1] & H1 & H). injection H as <- <-.
    apply add_run_inline; [eauto|unfold indirect_at; by rewrite Hn|done|by apply Hfmt].
Qed.

End adequacy.

(** ** What every successful call keeps *)

Section grows.
Variable compress1 :
  string → list (string * ident) →
  string * list (string * ident) * list (string * string).
Variable compress : bool.

Local Abbreviation fmt_run := (fmt_run compress1 compress).
Local Abbreviation add_run := (add_run compress1 compress).
Local Abbreviation all_run := (all_run compress1 compress).
Local Abbreviation prep := (prepared compress1 compress).

Lemma grows_refl s : grows s s.
Proof. by repeat split. Qed.

Lemma grows_trans s1 s2 s3 : grows s1 s2 → grows s2 s3 → grows s1 s3.
Proof.
  intros (? & ? & ?) (? & ? & ?). repeat split;
    [by etrans | by etrans | congruence].
Qed.

Lemma prepared_fields self obj :
  indirect_dict (prep self obj) = indirect_dict self
  ∧ objlist (prep self obj) = objlist self
  ∧ visited (prep self obj) = visited self.
Proof.
  unfold prepared.
  destruct (objs self !! obj) as [[|ind [payload|] items|]|]; try done.
  by destruct (compress && truthy (Some payload)).
Qed.

Lemma run_grows :
  (∀ s obj text s', fmt_run s obj text s' → grows s s')
  ∧ (∀ s obj tok s', add_run s obj tok s' → grows s s')
  ∧ (∀ s xs toks s', all_run s xs toks s' → grows s s').
Proof.
  apply run_mutind.
  - intros self obj tokens self' _ _ IH.
    destruct (prepared_fields self obj) as (Hd & Hl & Hv).
    destruct IH as (? & ? & ?).
    repeat split; [rewrite <- Hd | rewrite <- Hl | rewrite <- Hv]; done.
  - intros self obj result self' _ _ Hvis _ (Hd & Hl & Hv). simpl in *.
    repeat split; simpl; [done..|]. rewrite Hv. set_solver.
  - intros. apply grows_refl.
  - intros self obj text self' _ Hnone _ (Hd & Hl & Hv) Hlt. simpl in *.
    repeat split; simpl.
    + etrans; [|exact Hd]. by apply insert_subseteq.
    + destruct Hl as [k ->]. rewrite <- app_assoc.
      rewrite insert_app_r_alt by done. rewrite Nat.sub_diag.
      by apply prefix_app_r.
    + done.
  - intros. apply grows_refl.
  - intros. by eapply grows_trans.
Qed.

Lemma grows_length s s' : grows s s' → length (objlist s) ≤ length (objlist s').
Proof. intros (_ & H & _). by apply prefix_length. Qed.

Lemma fmt_run_grows s obj text s' : fmt_run s obj text s' → grows s s'.
Proof. apply run_grows. Qed.
Lemma add_run_grows s obj tok s' : add_run s obj tok s' → grows s s'.
Proof. apply run_grows. Qed.
Lemma all_run_grows s xs toks s' : all_run s xs toks s' → grows s s'.
Proof. apply run_grows. Qed.

(** Every successful call of the functions is a run. *)
Lemma format_obj_run fuel :
  ∀ s obj text s',
    format_obj compress1 compress fuel s obj = Ok (text, s') →
    fmt_run s obj text s'.
Proof.
  induction fuel as [|fuel IH]; intros s obj text s' H; [done|].
  simpl in H. eapply format_obj_body_run; [|exact H].
  intros s1 x tok s2 Hadd. eapply add_body_run; [exact IH| |exact Hadd].
  intros s3 y t s4 Hf. apply IH in Hf. apply fmt_run_grows in Hf.
  destruct Hf as (_ & Hf & _). by apply prefix_length.
Qed.

Lemma add_run_of fuel s obj tok s' :
  add compress1 compress fuel s obj = Ok (tok, s') → add_run s obj tok s'.
Proof.
  intros H. eapply add_body_run; [apply format_obj_run| |exact H].
  intros s3 y t s4 Hf. apply format_obj_run, fmt_run_grows in Hf.
  apply prefix_length, Hf.
Qed.

End grows.

(** ** The arena during a run *)

Section arena.
Variable compress1 :
  string → list (string * ident) →
  string * list (string * ident) * list (string * string).
Variable compress : bool.

Local Abbreviation fmt_run := (fmt_run compress1 compress).
Local Abbreviation add_run := (add_run compress1 compress).
Local Abbreviation all_run := (all_run compress1 compress).
Local Abbreviation prep := (prepared compress1 compress).

Lemma node_evolves_refl n : node_evolves n n.
Proof. destruct n as [|ind [p|] items|]; simpl; eauto. Qed.

Lemma node_evolves_trans n1 n2 n3 :
  node_evolves n1 n2 → node_evolves n2 n3 → node_evolves n1 n3.
Proof.
  destruct n1 as [|ind [p|] items|]; simpl; try (intros -> ; done).
  intros (p' & i' & ->). simpl. done.
Qed.

Lemma node_evolves_indirect n n' :
  node_evolves n n' → is_indirect n' = is_indirect n.
Proof.
  destruct n as [|ind [p|] items|]; simpl; try (intros -> ; done).
  intros (p' & i' & ->). done.
Qed.

Lemma heap_evolves_refl h : heap_evolves h h.
Proof. split; [eauto using node_evolves_refl | eauto]. Qed.

Lemma is_plain_evolves h h' obj :
  heap_evolves h h' → is_plain h obj = true → is_plain h' obj = true.
Proof.
  intros [H _]. unfold is_plain.
  destruct (h !! obj) as [[| |[] txt]|] eqn:Hn; try done. intros _.
  destruct (H _ _ Hn) as (n' & -> & Hev). simpl in Hev. by subst.
Qed.

Lemma heap_evolves_trans h1 h2 h3 :
  heap_evolves h1 h2 → heap_evolves h2 h3 → heap_evolves h1 h3.
Proof.
  intros H12 H23. split.
  - intros obj n Hn. destruct H12 as [H12 _], H23 as [H23 _].
    destruct (H12 _ _ Hn) as (n2 & Hn2 & E12).
    destruct (H23 _ _ Hn2) as (n3 & Hn3 & E23).
    eauto using node_evolves_trans.
  - intros obj Hn. destruct (proj2 H12 _ Hn) as [Hn2|Hp].
    + apply (proj2 H23 _ Hn2).
    + right. by eapply is_plain_evolves.
Qed.

Lemma heap_evolves_length h h' : heap_evolves h h' → length h ≤ length h'.
Proof.
  intros [H _]. destruct (decide (length h ≤ length h')) as [|Hgt]; [done|].
  destruct (lookup_lt_is_Some_2 h (length h')) as [n Hn]; [lia|].
  destruct (H _ _ Hn) as (n' & Hn' & _).
  apply lookup_lt_Some in Hn'. lia.
Qed.

Lemma indirect_at_evolves h h' obj :
  heap_evolves h h' → is_Some (h !! obj) →
  indirect_at h' obj = indirect_at h obj.
Proof.
  intros [H _] [n Hn]. unfold indirect_at. rewrite Hn.
  destruct (H _ _ Hn) as (n' & -> & Hev). by apply node_evolves_indirect.
Qed.

Lemma compress_obj_evolves h obj indirect payload items :
  h !! obj = Some (PdfDict indirect (Some payload) items) →
  heap_evolves h (compress_obj compress1 h obj indirect payload items).
Proof.
  intros Hobj. unfold compress_obj.
  destruct (compress1 payload items) as [[payload' kept] added].
  pose proof (lookup_lt_Some _ _ _ Hobj) as Hlt.
  split.
  - intros x n Hn. destruct (decide (x = obj)) as [->|Hne].
    + rewrite list_lookup_insert_eq by (rewrite length_app; lia).
      eexists. split; [done|]. rewrite Hobj in Hn. injection Hn as <-.
      simpl. eauto.
    + rewrite list_lookup_insert_ne by done.
      rewrite lookup_app_l by (by eapply lookup_lt_Some).
      eauto using node_evolves_refl.
  - intros x Hn. apply lookup_ge_None in Hn.
    unfold is_plain. rewrite list_lookup_insert_ne by lia.
    rewrite lookup_app_r by done. rewrite list_lookup_fmap.
    destruct (added !! (x - length h)) as [kv|]; simpl; eauto.
Qed.

Lemma prepared_evolves self obj : heap_evolves (objs self) (objs (prep self obj)).
Proof.
  unfold prepared.
  destruct (objs self !! obj) as [[|ind [payload|] items|]|] eqn:Hn;
    try apply heap_evolves_refl.
  destruct (compress && truthy (Some payload)); [|apply heap_evolves_refl].
  simpl. by apply compress_obj_evolves.
Qed.

Lemma run_evolves :
  (∀ s obj text s', fmt_run s obj text s' → heap_evolves (objs s) (objs s'))
  ∧ (∀ s obj tok s', add_run s obj tok s' → heap_evolves (objs s) (objs s'))
  ∧ (∀ s xs toks s', all_run s xs toks s' → heap_evolves (objs s) (objs s')).
Proof.
  apply run_mutind; simpl; intros;
    eauto using heap_evolves_refl, heap_evolves_trans, prepared_evolves.
Qed.

End arena.

(** ** Numbering *)

Section numbering.
Variable compress1 :
  string → list (string * ident) →
  string * list (string * ident) * list (string * string).
Variable compress : bool.

Local Abbreviation fmt_run := (fmt_run compress1 compress).
Local Abbreviation add_run := (add_run compress1 compress).
Local Abbreviation all_run := (all_run compress1 compress).
Local Abbreviation prep := (prepared compress1 compress).

Lemma numbered_ext s s' order :
  indirect_dict s' = indirect_dict s →
  length (objlist s') = length (objlist s) →
  numbered s order → numbered s' order.
Proof. intros Hd Hl [H1 H2]. split; [congruence|]. by rewrite Hd. Qed.

Lemma numbered_reserved s obj order :
  indirect_dict s !! obj = None →
  numbered s order →
  numbered (reserved s obj) (order ++ [obj]).
Proof.
  intros Hnone [Hlen Hnum]. split.
  { simpl. rewrite !length_app. simpl. lia. }
  intros o n. simpl. split.
  - destruct (decide (obj = o)) as [->|Hne].
    + rewrite lookup_insert_eq. intros [= <-].
      exists (length order). split; [lia|].
      rewrite lookup_app_r by done. by rewrite Nat.sub_diag.
    + rewrite lookup_insert_ne by done. intros H.
      apply Hnum in H as (k & -> & Hk). exists k. split; [done|].
      by apply lookup_app_l_Some.
  - intros (k & -> & Hk).
    apply lookup_app_Some in Hk as [Hk|[Hge Hk]].
    + assert (indirect_dict s !! o = Some (S k)) as Ho by (apply Hnum; eauto).
      rewrite lookup_insert_ne; [done|]. congruence.
    + apply list_lookup_singleton_Some in Hk as [Hk <-].
      rewrite lookup_insert_eq. f_equal. lia.
Qed.

(** A successful call appends the objects it numbers to the order. *)
Lemma run_numbered :
  (∀ s obj text s', fmt_run s obj text s' →
     ∀ order, numbered s order → ∃ more, numbered s' (order ++ more))
  ∧ (∀ s obj tok s', add_run s obj tok s' →
     ∀ order, numbered s order → ∃ more, numbered s' (order ++ more))
  ∧ (∀ s xs toks s', all_run s xs toks s' →
     ∀ order, numbered s order → ∃ more, numbered s' (order ++ more)).
Proof.
  apply run_mutind.
  - intros self obj tokens self' _ _ IH order Hnum.
    destruct (prepared_fields compress1 compress self obj) as (Hd & Hl & _).
    apply IH. eapply numbered_ext; [..|exact Hnum]; congruence.
  - intros self obj result self' _ _ _ _ IH order Hnum.
    destruct (IH order) as [more Hmore]; [by eapply numbered_ext|].
    exists more. by eapply numbered_ext.
  - intros self obj objnum _ _ order Hnum. exists []. by rewrite app_nil_r.
  - intros self obj text self' _ Hnone _ IH Hlt order Hnum.
    destruct (IH (order ++ [obj])) as [more Hmore];
      [by apply numbered_reserved|].
    exists (obj :: more). rewrite <- app_assoc in Hmore.
    eapply numbered_ext; [..|exact Hmore]; [done|].
    simpl. by rewrite length_insert.
  - intros self order Hnum. exists []. by rewrite app_nil_r.
  - intros self x xs token tokens self1 self2 _ IH1 _ IH2 order Hnum.
    destruct (IH1 order Hnum) as [m1 H1].
    destruct (IH2 _ H1) as [m2 H2].
    exists (m1 ++ m2). by rewrite app_assoc.
Qed.

Lemma numbered_fresh h : numbered (fresh_instance h) [].
Proof.
  split; [done|]. intros obj n. simpl. rewrite lookup_empty.
  split; [done|]. intros (k & _ & Hk). by rewrite lookup_nil in Hk.
Qed.

Lemma numbered_NoDup s order : numbered s order → NoDup order.
Proof.
  intros [_ H]. apply NoDup_alt. intros i j x Hi Hj.
  assert (indirect_dict s !! x = Some (S i)) as Ei by (apply H; eauto).
  assert (indirect_dict s !! x = Some (S j)) as Ej by (apply H; eauto).
  congruence.
Qed.

Lemma numbered_range s order obj n :
  numbered s order → indirect_dict s !! obj = Some n →
  1 ≤ n ≤ length (objlist s).
Proof.
  intros [Hl H] Hn. apply H in Hn as (k & -> & Hk).
  apply lookup_lt_Some in Hk. lia.
Qed.

Lemma numbered_inj s order obj1 obj2 n :
  numbered s order →
  indirect_dict s !! obj1 = Some n → indirect_dict s !! obj2 = Some n →
  obj1 = obj2.
Proof.
  intros [_ H] H1 H2.
  apply H in H1 as (k1 & -> & Hk1). apply H in H2 as (k2 & [= <-] & Hk2).
  congruence.
Qed.

Lemma numbered_surj s order n :
  numbered s order → 1 ≤ n ≤ length (objlist s) →
  ∃ obj, indirect_dict s !! obj = Some n.
Proof.
  intros [Hl H] Hn. destruct n as [|k]; [lia|].
  destruct (lookup_lt_is_Some_2 order k) as [obj Hk]; [lia|].
  exists obj. apply H. eauto.
Qed.

End numbering.

(** ** The body and the cross-reference table *)

Section xref.

Lemma enumerate_snoc {A} (l : list A) x :
  enumerate (l ++ [x]) = enumerate l ++ [(length l, x)].
Proof.
  unfold enumerate. rewrite length_app. simpl.
  rewrite seq_app. simpl.
  rewrite zip_with_app by (by rewrite length_seq). done.
Qed.

Lemma write_body_snoc version l x :
  write_body version (l ++ [x]) = write_obj (write_body version l) (length l, x).
Proof. unfold write_body. by rewrite enumerate_snoc, foldl_app. Qed.

Lemma join_empty_snoc (l : list string) x : join "" (l ++ [x]) = join "" l +:+ x.
Proof.
  destruct l as [|a l]; [done|]. by rewrite join_snoc.
Qed.

(** The body: the header and one block per entry of the object list. *)
Lemma write_body_file version l :
  file (write_body version l)
  = header version +:+ join "" (map (λ ix, objstr ix.1 ix.2) (enumerate l)).
Proof.
  induction l as [|x l IH] using rev_ind.
  - simpl. clear. induction (header version) as [|a s IHs]; [done|].
    by rewrite app_cons, <- IHs.
  - rewrite write_body_snoc, enumerate_snoc, map_app. cbn [map].
    rewrite join_empty_snoc. cbn [write_obj file fst snd].
    by rewrite IH, app_assoc_str.
Qed.

(** The running offset is the number of bytes written so far. *)
Lemma write_body_offset version l :
  offset (write_body version l) = String.length (file (write_body version l)).
Proof.
  induction l as [|x l IH] using rev_ind; [done|].
  rewrite write_body_snoc. simpl. by rewrite length_app_str, IH.
Qed.

Lemma write_body_offsets_length version l :
  length (offsets (write_body version l)) = S (length l).
Proof.
  induction l as [|x l IH] using rev_ind; [done|].
  rewrite write_body_snoc. simpl. rewrite !length_app, IH. simpl. lia.
Qed.

Lemma write_body_entry version l i x :
  l !! i = Some x →
  ∃ before after,
    file (write_body version l) = before +:+ objstr i x +:+ after
    ∧ offsets (write_body version l) !! S i = Some (String.length before, 0, "n").
Proof.
  revert i x. induction l as [|y l IH] using rev_ind; intros i x Hi; [done|].
  rewrite write_body_snoc. simpl.
  apply lookup_app_Some in Hi as [Hi|[Hge Hi]].
  - destruct (IH _ _ Hi) as (before & after & Hf & Ho).
    exists before, (after +:+ objstr (length l) y). split.
    + by rewrite Hf, !app_assoc_str.
    + by apply lookup_app_l_Some.
  - apply list_lookup_singleton_Some in Hi as [Hi <-].
    assert (i = length l) as -> by lia.
    exists (file (write_body version l)), "". split.
    + f_equal. clear. induction (objstr (length l) y) as [|a s IHs]; [done|].
      by rewrite app_cons, <- IHs.
    + rewrite lookup_app_r by (rewrite write_body_offsets_length; lia).
      rewrite write_body_offsets_length, Nat.sub_diag. simpl.
      by rewrite write_body_offset.
Qed.

End xref.

(** ** The two passes of dump *)

Section passes.
Variable compress1 :
  string → list (string * ident) →
  string * list (string * ident) * list (string * string).
Variable compress : bool.

Local Abbreviation fmt_run := (fmt_run compress1 compress).
Local Abbreviation add_run := (add_run compress1 compress).
Local Abbreviation all_run := (all_run compress1 compress).

Lemma dump_format_inv limit trailer h text final :
  dump_format compress1 limit trailer compress h = Ok (text, final) →
  ∃ text1 s1,
    format_obj compress1 compress limit (fresh_instance h) trailer
    = Ok (text1, s1)
    ∧ format_obj compress1 compress limit (sized s1 trailer) trailer
      = Ok (text, final).
Proof.
  unfold dump_format. intros H.
  apply bind_Ok in H as ([text1 s1] & H1 & H2). eauto.
Qed.

Lemma dump_inv limit trailer version h out h' :
  dump compress1 limit trailer version compress h = Ok (out, h') →
  ∃ text final,
    dump_format compress1 limit trailer compress h = Ok (text, final)
    ∧ out = write_xref (write_body version (objlist final)) text
    ∧ h' = objs final.
Proof.
  unfold dump. intros H.
  apply bind_Ok in H as ([text final] & H1 & H2).
  injection H2 as <- <-. eauto.
Qed.

Lemma dump_format_numbered limit trailer h text final :
  dump_format compress1 limit trailer compress h = Ok (text, final) →
  ∃ order, numbered final order.
Proof.
  intros H. apply dump_format_inv in H as (text1 & s1 & H1 & H2).
  apply format_obj_run in H1, H2.
  destruct (proj1 (run_numbered compress1 compress) _ _ _ _ H1 [])
    as [m1 Hm1]; [apply numbered_fresh|].
  destruct (proj1 (run_numbered compress1 compress) _ _ _ _ H2 ([] ++ m1))
    as [m2 Hm2]; [by eapply numbered_ext|].
  eauto.
Qed.

(** C3: [add] on a value that is not indirect.  With the identity in the
    guard set the assertion fails at once; without it the call is the
    formatting of the value under the enlarged set, and a normal return
    leaves the set as it was, so that a later encounter of the same value
    passes the assertion again.  An error of either pass ends [dump] with
    that error. *)
Theorem circular_reference_guard fuel self obj n :
  objs self !! obj = Some n →
  is_indirect n = false →
  (obj ∈ visited self →
     add compress1 compress fuel self obj = Raise (CircularReference obj))
  ∧ (obj ∉ visited self →
     add compress1 compress fuel self obj
     = '(result, s) ← format_obj compress1 compress fuel
                        (set_visited self ({[obj]} ∪ visited self)) obj;
       Ok (result, set_visited s (visited s ∖ {[obj]})))
  ∧ (∀ result self',
       add compress1 compress fuel self obj = Ok (result, self') →
       obj ∉ visited self ∧ visited self' = visited self ∧ obj ∉ visited self')
  ∧ (∀ limit trailer version h e,
       (format_obj compress1 compress limit (fresh_instance h) trailer
        = Raise e →
        dump compress1 limit trailer version compress h = Raise e)
       ∧ (∀ text1 s1,
            format_obj compress1 compress limit (fresh_instance h) trailer
            = Ok (text1, s1) →
            format_obj compress1 compress limit (sized s1 trailer) trailer
            = Raise e →
            dump compress1 limit trailer version compress h = Raise e)).
Proof.
  intros Hn Hind.
  assert (Hin : obj ∈ visited self →
                add compress1 compress fuel self obj = Raise (CircularReference obj)).
  { intros Hv. unfold add, add_body. rewrite Hn, Hind. simpl.
    by rewrite decide_True. }
  split; [exact Hin|]. split; [|split].
  - intros Hv. unfold add, add_body. rewrite Hn, Hind. simpl.
    rewrite decide_False by done.
    by destruct (format_obj _ _ _ _ _) as [[??]|?].
  - intros result self' Hadd.
    assert (obj ∉ visited self) as Hv.
    { intros Hv. rewrite (Hin Hv) in Hadd. done. }
    apply add_run_of, add_run_grows in Hadd as (_ & _ & Hvis).
    rewrite Hvis. done.
  - intros limit trailer version h e. split.
    + intros H. unfold dump, dump_format. by rewrite H.
    + intros text1 s1 H1 H2. unfold dump, dump_format. rewrite H1. simpl.
      unfold sized in H2. by rewrite H2.
Qed.

Lemma indirect_at_true h obj :
  indirect_at h obj = true → ∃ n, h !! obj = Some n ∧ is_indirect n = true.
Proof. unfold indirect_at. destruct (h !! obj); [eauto|done]. Qed.

(** An object already in the table: [add] gives its reference and changes
    nothing, on any budget. *)
Lemma add_known fuel self obj n :
  indirect_at (objs self) obj = true →
  indirect_dict self !! obj = Some n →
  add compress1 compress fuel self obj = Ok (reference n, self).
Proof.
  intros (n0 & Hn0 & Hind)%indirect_at_true Hd.
  unfold add, add_body. by rewrite Hn0, Hind, Hd.
Qed.

End passes.

(** ** A document of one page *)

Section one_page.
Variable compress1 :
  string → list (string * ident) →
  string * list (string * ident) * list (string * string).
Variable version : string.
Variable compress indirect : bool.

(** The nesting that the interpreter allows beyond the six levels that
    the document takes. *)
Variable spare : nat.

(** C9: a page dictionary [{Type: /Page}] is added to a new writer and
    the document is written.  The page's wrapper is object 3 of the
    arena, the Pages node object 6 and the Catalog object 8; they get the
    numbers 3, 2 and 1, and nothing else is numbered.  The page's
    [Parent] is the reference to number 2, the Pages node.  The file has
    the header, the three blocks [1 0 obj], [2 0 obj] and [3 0 obj], a
    table of four entries (the head and the offsets 15, 62 and 117 of
    the blocks for version 1.3), the trailer with [Root] and [Size 4],
    and the offset 162 of the table; it is given byte by byte for
    version 1.3.  The formatting nests six calls deep: with less the
    interpreter's error ends it. *)
Theorem single_page_document :
  let limit := 6 + spare in
  let lf := String "010"%char "" in
  let crlf := String "013"%char lf in
  let w := (PdfWriter_init version compress (page_arena indirect)).1 in
  let h0 := (PdfWriter_init version compress (page_arena indirect)).2 in
  let w13 := (PdfWriter_init "1.3" compress (page_arena indirect)).1 in
  let blocks :=
    [Some "<</Pages 2 0 R /Type /Catalog>>";
     Some "<</Count 1 /Kids [3 0 R] /Type /Pages>>";
     Some "<</Parent 2 0 R /Type /Page>>"] in
  ∃ h1 final h2,
    addpage w 1 h0 = Some h1
    ∧ (write_graph w h1).2 !! 3 = Some (PdfDict true None [("/Type", 0); ("/Parent", 6)])
    ∧ (write_graph w h1).2 !! 6
      = Some (PdfDict true None [("/Type", 4); ("/Count", 5); ("/Kids", 2)])
    ∧ (write_graph w h1).2 !! 8 = Some (PdfDict true None [("/Type", 7); ("/Pages", 6)])
    ∧ dump_format compress1 limit (write_graph w h1).1 compress (write_graph w h1).2
      = Ok ("<</Root 1 0 R /Size 4>>", final)
    ∧ objlist final = blocks
    ∧ indirect_dict final !! 3 = Some 3
    ∧ indirect_dict final !! 6 = Some 2
    ∧ indirect_dict final !! 8 = Some 1
    ∧ size (indirect_dict final) = 3
    ∧ write compress1 limit w h1
      = Ok (write_xref (write_body version blocks) "<</Root 1 0 R /Size 4>>", h2)
    ∧ length (offsets (write_body version blocks)) = 4
    ∧ write compress1 limit w13 h1
      = Ok ("%PDF-1.3" +:+ lf
            +:+ "%" +:+ String "226"%char (String "227"%char
                          (String "207"%char (String "211"%char ""))) +:+ lf
            +:+ "1 0 obj" +:+ lf
            +:+ "<</Pages 2 0 R /Type /Catalog>>" +:+ lf
            +:+ "endobj" +:+ lf
            +:+ "2 0 obj" +:+ lf
            +:+ "<</Count 1 /Kids [3 0 R] /Type /Pages>>" +:+ lf
            +:+ "endobj" +:+ lf
            +:+ "3 0 obj" +:+ lf
            +:+ "<</Parent 2 0 R /Type /Page>>" +:+ lf
            +:+ "endobj" +:+ lf
            +:+ "xref" +:+ lf
            +:+ "0 4" +:+ lf
            +:+ "0000000000 65535 f" +:+ crlf
            +:+ "0000000015 00000 n" +:+ crlf
            +:+ "0000000062 00000 n" +:+ crlf
            +:+ "0000000117 00000 n" +:+ crlf
            +:+ "trailer" +:+ lf
            +:+ lf
            +:+ "<</Root 1 0 R /Size 4>>" +:+ lf
            +:+ "startxref" +:+ lf
            +:+ "162" +:+ lf
            +:+ "%%EOF" +:+ lf, h2)
    ∧ write compress1 5 w h1 = Raise RecursionLimit.
Proof.
  intros limit lf crlf w h0 w13 blocks. subst limit lf crlf w h0 w13 blocks.
  eexists _, _, _. split; [reflexivity|].
  split; [reflexivity|]. split; [reflexivity|]. split; [reflexivity|].
  split.
  { set (r := dump_format _ _ _ _ _). vm_compute in r. subst r. reflexivity. }
  split; [vm_compute; reflexivity|].
  split; [vm_compute; reflexivity|].
  split; [vm_compute; reflexivity|].
  split; [vm_compute; reflexivity|].
  split; [vm_compute; reflexivity|].
  split.
  { set (r := write _ _ _ _). vm_compute in r. subst r.
    set (r := write_xref _ _). vm_compute in r. subst r. reflexivity. }
  split; [reflexivity|].
  split; [vm_compute; reflexivity|].
  vm_compute. reflexivity.
Qed.

End one_page.

(** ** The graph stays as it is *)

Lemma filter_ext_in {A} (P1 P2 : A → Prop)
    `{!∀ x, Decision (P1 x), !∀ x, Decision (P2 x)} (l : list A) :
  (∀ x, x ∈ l → (P1 x ↔ P2 x)) → filter P1 l = filter P2 l.
Proof.
  induction l as [|a l IH]; [done|]. intros Hext.
  rewrite !filter_cons. rewrite IH by (intros; apply Hext; set_solver).
  apply decide_ext, Hext. set_solver.
Qed.


Section static_graph.
Variable compress1 :
  string → list (string * ident) →
  string * list (string * ident) * list (string * string).
Variable compress : bool.
Hypothesis contract : compress = true → keeps_links compress1.

Local Abbreviation fmt_run := (fmt_run compress1 compress).
Local Abbreviation add_run := (add_run compress1 compress).
Local Abbreviation all_run := (all_run compress1 compress).
Local Abbreviation prep := (prepared compress1 compress).

Lemma closed_spec h :
  closed h ↔ ∀ x c, c ∈ children h x → c < length h.
Proof.
  unfold closed, children. rewrite Forall_lookup. split.
  - intros H x c Hc. destruct (h !! x) as [n|] eqn:Hn; [|by apply elem_of_nil in Hc].
    specialize (H _ _ Hn). rewrite Forall_forall in H. by apply H.
  - intros H x n Hn. apply Forall_forall. intros c Hc.
    apply (H x). by rewrite Hn.
Qed.

Lemma links_children h x c : c ∈ links h x → c ∈ children h x.
Proof. unfold links. rewrite list_elem_of_filter. tauto. Qed.

Lemma links_not_plain h x c : c ∈ links h x → is_plain h c = false.
Proof. unfold links. rewrite list_elem_of_filter. tauto. Qed.

Lemma children_links h x c :
  c ∈ children h x → is_plain h c = false → c ∈ links h x.
Proof. unfold links. rewrite list_elem_of_filter. tauto. Qed.

Lemma compress_obj_other h obj indirect payload items x :
  x ≠ obj → x < length h →
  compress_obj compress1 h obj indirect payload items !! x = h !! x.
Proof.
  intros Hne Hlt. unfold compress_obj.
  destruct (compress1 payload items) as [[payload' kept] added].
  rewrite list_lookup_insert_ne by done. by apply lookup_app_l.
Qed.

Lemma compress_obj_fresh h obj indirect payload items x :
  obj < length h → length h ≤ x →
  compress_obj compress1 h obj indirect payload items !! x = None
  ∨ ∃ text, compress_obj compress1 h obj indirect payload items !! x
            = Some (Scalar false text).
Proof.
  intros Hobj Hge. unfold compress_obj.
  destruct (compress1 payload items) as [[payload' kept] added].
  rewrite list_lookup_insert_ne by lia.
  rewrite lookup_app_r by done. rewrite list_lookup_fmap.
  destruct (added !! (x - length h)); simpl; eauto.
Qed.

Lemma compress_obj_static h0 h obj indirect payload items :
  keeps_links compress1 →
  h !! obj = Some (PdfDict indirect (Some payload) items) →
  static h0 h →
  static h0 (compress_obj compress1 h obj indirect payload items).
Proof.
  intros Hkeep Hobj (Hclosed & Hlinks & Hind).
  pose proof (Hkeep h obj indirect payload items Hclosed Hobj) as Hkept.
  pose proof (lookup_lt_Some _ _ _ Hobj) as Hlt.
  pose proof (compress_obj_evolves compress1 h obj indirect payload items Hobj) as Hev.
  pose proof (heap_evolves_length _ _ Hev) as Hlen.
  set (h' := compress_obj compress1 h obj indirect payload items) in *.
  rewrite closed_spec in Hclosed.
  assert (Hplain : ∀ c, c < length h → is_plain h' c = is_plain h c).
  { intros c Hc. unfold is_plain. destruct (decide (c = obj)) as [->|Hne].
    - rewrite Hobj. subst h'.
      destruct (compress_obj_lookup compress1 h obj indirect payload items Hlt)
        as (p' & i' & ->). done.
    - subst h'. by rewrite compress_obj_other. }
  assert (Hsame : ∀ x, links h' x = links h x).
  { intros x. destruct (decide (x = obj)) as [->|Hne]; [exact Hkept|].
    unfold links.
    assert (children h' x = children h x) as ->.
    { unfold children. destruct (decide (x < length h)).
      - subst h'. by rewrite compress_obj_other.
      - rewrite (lookup_ge_None_2 h x) by lia. subst h'.
        destruct (compress_obj_fresh h obj indirect payload items x Hlt)
          as [->|[text ->]]; [lia|done..]. }
    apply filter_ext_in.
    intros c Hc. by rewrite Hplain by by eapply Hclosed. }
  split; [|split].
  - apply closed_spec. intros x c Hc.
    destruct (is_plain h' c) eqn:Hp.
    + unfold is_plain in Hp. destruct (h' !! c) eqn:Hn; [|done].
      by eapply lookup_lt_Some.
    + apply children_links in Hc; [|done]. rewrite Hsame in Hc.
      apply links_children, Hclosed in Hc. lia.
  - intros x. by rewrite Hsame.
  - intros x. rewrite <- Hind. unfold indirect_at.
    destruct (decide (x = obj)) as [->|Hne].
    + rewrite Hobj. subst h'.
      destruct (compress_obj_lookup compress1 h obj indirect payload items Hlt)
        as (p' & i' & Hl).
      pose proof (proj1 Hev _ _ Hobj) as (n' & Hn' & Hnode).
      rewrite Hn'. by apply node_evolves_indirect.
    + destruct (decide (x < length h)).
      * subst h'. by rewrite compress_obj_other.
      * rewrite (lookup_ge_None_2 h x) by lia. subst h'.
        destruct (compress_obj_fresh h obj indirect payload items x Hlt)
          as [->|[text ->]]; [lia|done..].
Qed.

Lemma prepared_static h0 self obj :
  static h0 (objs self) → static h0 (objs (prep self obj)).
Proof.
  intros Hst. unfold prepared.
  destruct (objs self !! obj) as [[|ind [payload|] items|]|] eqn:Hn; try done.
  destruct (compress && truthy (Some payload)) eqn:Hc; [|done].
  apply andb_true_iff in Hc as [Hc _]. simpl.
  apply compress_obj_static; auto.
Qed.

Lemma run_static h0 :
  (∀ s obj text s', fmt_run s obj text s' →
     static h0 (objs s) → static h0 (objs s'))
  ∧ (∀ s obj tok s', add_run s obj tok s' →
     static h0 (objs s) → static h0 (objs s'))
  ∧ (∀ s xs toks s', all_run s xs toks s' →
     static h0 (objs s) → static h0 (objs s')).
Proof.
  apply run_mutind; simpl; intros; eauto using prepared_static.
Qed.

Lemma static_refl h : closed h → static h h.
Proof. by repeat split. Qed.

End static_graph.

(** ** Which objects get a number *)

Section discovery.
Variable compress1 :
  string → list (string * ident) →
  string * list (string * ident) * list (string * string).
Variable compress : bool.
Hypothesis contract : compress = true → keeps_links compress1.

Local Abbreviation fmt_run := (fmt_run compress1 compress).
Local Abbreviation add_run := (add_run compress1 compress).
Local Abbreviation all_run := (all_run compress1 compress).
Local Abbreviation prep := (prepared compress1 compress).

Lemma static_within h0 h : static h0 h → within h0 h.
Proof. intros (? & Hl & ?). repeat split; [done| |done]. intros x c. by rewrite Hl. Qed.

Lemma within_step h0 h h' : within h0 h → static h h' → within h0 h'.
Proof.
  intros (_ & Hl & Hi) (Hc & Hl' & Hi'). repeat split; [done| |].
  - intros x c. rewrite Hl'. apply Hl.
  - intros x. by rewrite Hi'.
Qed.

Lemma prepared_within h0 self obj :
  within h0 (objs self) → within h0 (objs (prep self obj)).
Proof.
  intros Hw. eapply within_step; [exact Hw|].
  apply (prepared_static compress1 compress contract).
  apply static_refl, Hw.
Qed.

Lemma run_within h0 :
  (∀ s obj text s', fmt_run s obj text s' →
     within h0 (objs s) → within h0 (objs s'))
  ∧ (∀ s obj tok s', add_run s obj tok s' →
     within h0 (objs s) → within h0 (objs s'))
  ∧ (∀ s xs toks s', all_run s xs toks s' →
     within h0 (objs s) → within h0 (objs s')).
Proof.
  apply run_mutind; simpl; intros; eauto using prepared_within.
Qed.

(** Plain scalars stay plain scalars, and nothing else becomes one. *)
Lemma is_plain_stable h h' x :
  heap_evolves h h' → x < length h → is_plain h' x = is_plain h x.
Proof.
  intros [Hev _] Hlt. destruct (lookup_lt_is_Some_2 h x Hlt) as [n Hn].
  destruct (Hev _ _ Hn) as (n' & Hn' & Hnode).
  unfold is_plain. rewrite Hn, Hn'.
  destruct n as [|ind [p|] items|]; simpl in Hnode;
    try (by subst). by destruct Hnode as (? & ? & ->).
Qed.

Lemma prepared_plain self obj :
  is_plain (objs self) obj = true → prep self obj = self.
Proof.
  intros Hp. apply prepared_id. intros ind payload items Hn.
  unfold is_plain in Hp. by rewrite Hn in Hp.
Qed.

(** Formatting a plain scalar changes nothing. *)
Lemma fmt_run_plain s obj text s' :
  is_plain (objs s) obj = true → fmt_run s obj text s' → s' = s.
Proof.
  intros Hp Hrun. inversion Hrun as [? ? tokens ? _ Hall]; subst.
  rewrite prepared_plain in Hall by done.
  assert (children (objs s) obj = []) as Hch.
  { unfold children, is_plain in *. by destruct (objs s !! obj) as [[| |[] ?]|]. }
  rewrite Hch in Hall. by inversion Hall.
Qed.

Lemma add_run_plain s obj tok s' :
  is_plain (objs s) obj = true → add_run s obj tok s' →
  indirect_dict s' = indirect_dict s ∧ objlist s' = objlist s
  ∧ objs s' = objs s.
Proof.
  intros Hp Hrun.
  assert (indirect_at (objs s) obj = false) as Hind.
  { unfold indirect_at, is_plain in *. by destruct (objs s !! obj) as [[| |[] ?]|]. }
  inversion Hrun as [? ? ? s1 _ _ _ Hfmt| |]; subst; try congruence.
  apply fmt_run_plain in Hfmt; [|done]. by subst s1.
Qed.

Lemma not_plain_of_link h x c : c ∈ links h x → is_plain h x = false.
Proof.
  intros Hc%links_children. unfold children, is_plain in *.
  destruct (h !! x) as [[| |[] ?]|]; try done; by apply elem_of_nil in Hc.
Qed.

Lemma not_plain_of_indirect h x : indirect_at h x = true → is_plain h x = false.
Proof.
  unfold indirect_at, is_plain. by destruct (h !! x) as [[| |[] ?]|].
Qed.

(** Soundness: an object that gets a number during a call is linked,
    directly or not, from the object of the call. *)
Lemma run_sound h0 :
  (∀ s obj text s', fmt_run s obj text s' →
     within h0 (objs s) →
     ∀ x, is_Some (indirect_dict s' !! x) →
          is_Some (indirect_dict s !! x) ∨ tc (link h0) obj x)
  ∧ (∀ s obj tok s', add_run s obj tok s' →
     within h0 (objs s) →
     ∀ x, is_Some (indirect_dict s' !! x) →
          is_Some (indirect_dict s !! x)
          ∨ (is_plain (objs s) obj = false ∧ (x = obj ∨ tc (link h0) obj x)))
  ∧ (∀ s xs toks s', all_run s xs toks s' →
     within h0 (objs s) →
     ∀ x, is_Some (indirect_dict s' !! x) →
          is_Some (indirect_dict s !! x)
          ∨ ∃ c, c ∈ xs ∧ is_plain (objs s) c = false
                 ∧ (x = c ∨ tc (link h0) c x)).
Proof.
  apply run_mutind.
  - intros self obj tokens self' _ Hall IH Hw x Hx.
    destruct (prepared_fields compress1 compress self obj) as (Hd & _ & _).
    pose proof (prepared_within h0 self obj Hw) as Hw0.
    destruct (IH Hw0 x Hx) as [H|(c & Hc & Hp & H)]; [left; by rewrite <- Hd|].
    right. assert (link h0 obj c) as Hlink.
    { apply Hw0. by apply children_links. }
    destruct H as [->|H]; [by apply tc_once|by eapply tc_l].
  - intros self obj result self' Hsome Hind Hvis Hfmt IH Hw x Hx. simpl in *.
    destruct (is_plain (objs self) obj) eqn:Hp.
    + left. apply fmt_run_plain in Hfmt; [|done]. by subst self'.
    + destruct (IH Hw x Hx) as [H|H]; [by left|]. right. split; [done|by right].
  - intros self obj objnum _ _ _ x Hx. by left.
  - intros self obj text self' Hind Hnone Hfmt IH Hlt Hw x Hx. simpl in *.
    destruct (IH Hw x Hx) as [H|H].
    + destruct (decide (x = obj)) as [->|Hne].
      * right. split; [by apply not_plain_of_indirect|by left].
      * left. by rewrite lookup_insert_ne in H.
    + right. split; [by apply not_plain_of_indirect|by right].
  - intros self _ x Hx. by left.
  - intros self y ys token tokens self1 self2 Hadd IH1 Hall IH2 Hw x Hx.
    pose proof (proj1 (proj2 (run_within h0)) _ _ _ _ Hadd Hw) as Hw1.
    pose proof (proj1 (proj2 (run_evolves compress1 compress)) _ _ _ _ Hadd) as Hev.
    destruct (IH2 Hw1 x Hx) as [H|(c & Hc & Hp & H)].
    + destruct (IH1 Hw x H) as [H1|[Hp1 H1]]; [by left|].
      right. exists y. split; [set_solver|done].
    + right. exists c. split; [set_solver|]. split; [|done].
      destruct (is_plain (objs self) c) eqn:Hpc; [|done].
      by rewrite (is_plain_evolves _ _ _ Hev Hpc) in Hp.
Qed.

Lemma covered_mono h0 (d d' : gmap nat nat) o :
  d ⊆ d' → covered h0 d o → covered h0 d' o.
Proof. intros Hsub Hc j Hj. eapply lookup_weaken_is_Some; eauto. Qed.

(** Completeness: after a call the table has every reference token of
    the texts that are finished; [busy] are the objects whose formatting
    is under way. *)
Lemma run_complete h0 :
  (∀ s obj text s', fmt_run s obj text s' →
     static h0 (objs s) →
     ∀ busy : gset nat,
       (∀ i, is_Some (indirect_dict s !! i) → i ∉ busy →
             covered h0 (indirect_dict s) i) →
       covered h0 (indirect_dict s') obj
       ∧ (∀ i, is_Some (indirect_dict s' !! i) → i ∉ busy →
               covered h0 (indirect_dict s') i))
  ∧ (∀ s obj tok s', add_run s obj tok s' →
     static h0 (objs s) →
     ∀ busy : gset nat,
       (∀ i, is_Some (indirect_dict s !! i) → i ∉ busy →
             covered h0 (indirect_dict s) i) →
       (indirect_at h0 obj = true → is_Some (indirect_dict s' !! obj))
       ∧ (indirect_at h0 obj = false → covered h0 (indirect_dict s') obj)
       ∧ (∀ i, is_Some (indirect_dict s' !! i) → i ∉ busy →
               covered h0 (indirect_dict s') i))
  ∧ (∀ s xs toks s', all_run s xs toks s' →
     static h0 (objs s) →
     ∀ busy : gset nat,
       (∀ i, is_Some (indirect_dict s !! i) → i ∉ busy →
             covered h0 (indirect_dict s) i) →
       (∀ c, c ∈ xs →
          (indirect_at h0 c = true → is_Some (indirect_dict s' !! c))
          ∧ (indirect_at h0 c = false → covered h0 (indirect_dict s') c))
       ∧ (∀ i, is_Some (indirect_dict s' !! i) → i ∉ busy →
               covered h0 (indirect_dict s') i)).
Proof.
  apply run_mutind.
  - intros self obj tokens self' _ Hall IH Hst busy Hpre.
    destruct (prepared_fields compress1 compress self obj) as (Hd & _ & _).
    pose proof (prepared_static compress1 compress contract h0 self obj Hst) as Hst0.
    destruct (IH Hst0 busy) as [Hkids Hpost]; [by rewrite Hd|].
    split; [|done].
    assert (∀ c, link h0 obj c → c ∈ children (objs (prep self obj)) obj) as Hin.
    { intros c Hc. apply links_children. destruct Hst0 as (_ & -> & _). done. }
    intros j Hj. inversion Hj as [o j' Hlink Hind|o c j' Hlink Hind Hj']; subst.
    + by apply (proj1 (Hkids j (Hin _ Hlink))).
    + by apply (proj2 (Hkids c (Hin _ Hlink)) Hind).
  - intros self obj result self' _ Hind _ _ IH Hst busy Hpre. simpl in *.
    destruct (IH Hst busy Hpre) as [Hcov Hpost].
    destruct Hst as (_ & _ & Hi). rewrite Hi in Hind.
    split; [congruence|]. done.
  - intros self obj objnum Hind Hd Hst busy Hpre.
    destruct Hst as (_ & _ & Hi). rewrite Hi in Hind.
    split; [by rewrite Hd|]. split; [congruence|done].
  - intros self obj text self' Hind Hnone Hfmt IH Hlt Hst busy Hpre. simpl in *.
    pose proof (fmt_run_grows _ _ _ _ _ _ Hfmt) as (Hsub & _ & _). simpl in Hsub.
    destruct (IH Hst ({[obj]} ∪ busy)) as [Hcov Hpost].
    { intros i Hi Hnot.
      rewrite lookup_insert_ne in Hi by set_solver.
      eapply covered_mono; [|apply Hpre; [done|set_solver]].
      by apply insert_subseteq. }
    split; [|split].
    + intros _. eapply lookup_weaken_is_Some; [|exact Hsub].
      rewrite lookup_insert_eq. eauto.
    + destruct Hst as (_ & _ & Hi). rewrite Hi in Hind. congruence.
    + intros i Hi Hnot. destruct (decide (i = obj)) as [->|Hne]; [done|].
      apply Hpost; [done|set_solver].
  - intros self _ busy Hpre. split; [|done]. intros c Hc. by apply elem_of_nil in Hc.
  - intros self y ys token tokens self1 self2 Hadd IH1 Hall IH2 Hst busy Hpre.
    pose proof (proj1 (proj2 (run_static compress1 compress contract h0))
                  _ _ _ _ Hadd Hst) as Hst1.
    pose proof (all_run_grows _ _ _ _ _ _ Hall) as (Hsub & _ & _).
    destruct (IH1 Hst busy Hpre) as (Hy1 & Hy2 & Hpost1).
    destruct (IH2 Hst1 busy Hpost1) as [Hkids Hpost2].
    split; [|done]. intros c Hc.
    apply elem_of_cons in Hc as [->|Hc]; [|by apply Hkids].
    split.
    + intros Hi. eapply lookup_weaken_is_Some; [|exact Hsub]. by apply Hy1.
    + intros Hi. eapply covered_mono; [exact Hsub|]. by apply Hy2.
Qed.

(** With every finished text covered, the table has all the indirect
    objects that are linked from a covered object. *)
Lemma covered_closure h0 (d : gmap nat nat) :
  (∀ i, is_Some (d !! i) → covered h0 d i) →
  ∀ a x, tc (link h0) a x → covered h0 d a → indirect_at h0 x = true →
         is_Some (d !! x).
Proof.
  intros Hall a x Htc. induction Htc as [a x Hax|a b x Hab Hbx IH];
    intros Hcov Hind.
  - apply Hcov. by constructor.
  - apply IH; [|done]. destruct (indirect_at h0 b) eqn:Hb.
    + apply Hall, Hcov. by constructor.
    + intros j Hj. apply Hcov. by eapply inline_target_step.
Qed.

(** Nothing new: a call whose reference tokens are all in the table
    leaves the table and the object list as they are. *)
Lemma run_quiet h0 :
  (∀ s obj text s', fmt_run s obj text s' →
     within h0 (objs s) → covered h0 (indirect_dict s) obj →
     indirect_dict s' = indirect_dict s ∧ objlist s' = objlist s)
  ∧ (∀ s obj tok s', add_run s obj tok s' →
     within h0 (objs s) → settled h0 s obj →
     indirect_dict s' = indirect_dict s ∧ objlist s' = objlist s)
  ∧ (∀ s xs toks s', all_run s xs toks s' →
     within h0 (objs s) → (∀ c, c ∈ xs → settled h0 s c) →
     indirect_dict s' = indirect_dict s ∧ objlist s' = objlist s).
Proof.
  apply run_mutind.
  - intros self obj tokens self' _ Hall IH Hw Hcov.
    destruct (prepared_fields compress1 compress self obj) as (Hd & Hl & _).
    pose proof (prepared_within h0 self obj Hw) as Hw0.
    rewrite <- Hd, <- Hl. apply IH; [done|].
    intros c Hc. destruct (is_plain (objs (prep self obj)) c) eqn:Hp; [by left|].
    right. assert (link h0 obj c) as Hlink.
    { apply Hw0. by apply children_links. }
    destruct (indirect_at h0 c) eqn:Hi.
    + left. split; [done|]. rewrite Hd. apply Hcov. by constructor.
    + right. split; [done|]. rewrite Hd. intros j Hj. apply Hcov.
      by eapply inline_target_step.
  - intros self obj result self' Hsome Hind Hvis Hfmt IH Hw Hset. simpl in *.
    destruct Hset as [Hp|[[Hi _]|[_ Hcov]]].
    + apply fmt_run_plain in Hfmt; [|done]. by subst self'.
    + destruct Hw as (_ & _ & Hiw). rewrite Hiw in Hind. congruence.
    + by apply IH.
  - done.
  - intros self obj text self' Hind Hnone _ _ _ Hw Hset. exfalso.
    destruct Hset as [Hp|[[_ [n Hn]]|[Hi _]]].
    + apply not_plain_of_indirect in Hind. congruence.
    + congruence.
    + destruct Hw as (_ & _ & Hiw). rewrite Hiw in Hind. congruence.
  - done.
  - intros self y ys token tokens self1 self2 Hadd IH1 Hall IH2 Hw Hset.
    pose proof (proj1 (proj2 (run_within h0)) _ _ _ _ Hadd Hw) as Hw1.
    pose proof (proj1 (proj2 (run_evolves compress1 compress)) _ _ _ _ Hadd) as Hev.
    destruct (IH1 Hw) as [Hd1 Hl1]; [apply Hset; set_solver|].
    destruct (IH2 Hw1) as [Hd2 Hl2]; [|split; congruence].
    intros c Hc. destruct (Hset c) as [Hp|H]; [set_solver| |].
    + left. by eapply is_plain_evolves.
    + right. by rewrite Hd1.
Qed.

Lemma discover_S h fuel seen obj :
  discover h (S fuel) seen obj
  = foldl (discover_child h fuel) seen (children h obj).
Proof. reflexivity. Qed.

Lemma discover_child_plain h fuel seen x :
  is_plain h x = true → discover_child h fuel seen x = seen.
Proof.
  intros Hp. unfold discover_child.
  assert (indirect_at h x = false) as ->.
  { unfold indirect_at, is_plain in *. by destruct (h !! x) as [[| |[] ?]|]. }
  destruct fuel; [done|]. rewrite discover_S.
  assert (children h x = []) as ->; [|done].
  unfold children, is_plain in *. by destruct (h !! x) as [[| |[] ?]|].
Qed.

Lemma discover_links h fuel seen obj :
  discover h (S fuel) seen obj
  = foldl (discover_child h fuel) seen (links h obj).
Proof.
  rewrite discover_S. unfold links. generalize (children h obj) seen.
  intros l. induction l as [|c l IH]; intros seen'; [done|].
  rewrite filter_cons. simpl. destruct (is_plain h c) eqn:Hp.
  - rewrite decide_False by done. by rewrite discover_child_plain.
  - rewrite decide_True by done. simpl. apply IH.
Qed.

Lemma numbered_seen s seen x :
  numbered s seen → (x ∈ seen ↔ is_Some (indirect_dict s !! x)).
Proof.
  intros [_ H]. split.
  - intros (k & Hk)%list_elem_of_lookup. exists (S k). apply H. eauto.
  - intros [n Hn]. apply H in Hn as (k & _ & Hk). by eapply list_elem_of_lookup_2.
Qed.

(** The walk over the children, given the claim for the nested calls. *)
Lemma add_all_discover h0 fuel :
  (∀ s obj text s' seen,
     format_obj compress1 compress fuel s obj = Ok (text, s') →
     static h0 (objs s) → numbered s seen →
     numbered s' (discover h0 fuel seen obj)) →
  ∀ cs s toks s' seen,
    add_all (add compress1 compress fuel) s cs = Ok (toks, s') →
    static h0 (objs s) → numbered s seen →
    (∀ c, c ∈ cs → c < length (objs s)) →
    numbered s'
      (foldl (discover_child h0 fuel) seen
             (filter (λ c, is_plain (objs s) c = false) cs)).
Proof.
  intros IHfuel cs.
  induction cs as [|c cs IH]; intros s toks s' seen Hall Hst Hnum Hclosed.
  { simpl in Hall. injection Hall as _ <-. exact Hnum. }
  rewrite add_all_cons in Hall.
  apply bind_Ok in Hall as ([tok s1] & Hadd & Hall).
  apply bind_Ok in Hall as ([toks' s2] & Hall & H). injection H as _ <-.
  pose proof (add_run_of _ _ _ _ _ _ _ Hadd) as Hrun.
  pose proof (proj1 (proj2 (run_static compress1 compress contract h0))
                _ _ _ _ Hrun Hst) as Hst1.
  pose proof (proj1 (proj2 (run_evolves compress1 compress)) _ _ _ _ Hrun) as Hev.
  assert (∀ c', c' ∈ cs → c' < length (objs s1)) as Hclosed1.
  { intros c' Hc'. pose proof (heap_evolves_length _ _ Hev).
    assert (c' < length (objs s)) by (apply Hclosed; set_solver). lia. }
  assert (filter (λ c', is_plain (objs s) c' = false) cs
          = filter (λ c', is_plain (objs s1) c' = false) cs) as Hfilter.
  { apply filter_ext_in. intros c' Hc'.
    rewrite (is_plain_stable _ _ c' Hev); [done|]. apply Hclosed. set_solver. }
  rewrite filter_cons. destruct (is_plain (objs s) c) eqn:Hp.
  - rewrite decide_False by done. rewrite Hfilter.
    destruct (add_run_plain _ _ _ _ Hp Hrun) as (Hd & Hl & _).
    eapply IH; eauto. eapply numbered_ext; [..|exact Hnum]; congruence.
  - rewrite decide_True by done. simpl. rewrite Hfilter.
    eapply IH; eauto. clear IH Hall Hfilter Hclosed1.
    unfold discover_child. unfold add, add_body in Hadd.
    destruct (objs s !! c) as [n|] eqn:Hn; [|done].
    assert (indirect_at h0 c = is_indirect n) as ->.
    { destruct Hst as (_ & _ & <-). unfold indirect_at. by rewrite Hn. }
    destruct (is_indirect n); simpl in Hadd.
    + destruct (indirect_dict s !! c) as [objnum|] eqn:Hd.
      * injection Hadd as _ <-.
        rewrite bool_decide_eq_true_2; [done|].
        apply (numbered_seen s); eauto.
      * rewrite bool_decide_eq_false_2.
        2:{ rewrite (numbered_seen s) by done. rewrite Hd. by intros [? ?]. }
        apply bind_Ok in Hadd as ([text s3] & Hfmt & Hadd).
        case_decide; [|done]. injection Hadd as _ <-.
        eapply numbered_ext; [..|eapply (IHfuel _ _ _ _ (seen ++ [c]) Hfmt)];
          [done|simpl; by rewrite length_insert|done|].
        by apply numbered_reserved.
    + case_decide; [done|].
      apply bind_Ok in Hadd as ([text s3] & Hfmt & Hadd). injection Hadd as _ <-.
      eapply numbered_ext; [..|eapply (IHfuel _ _ _ _ seen Hfmt)]; try done.
Qed.

(** The table numbers the objects in discovery order. *)
Lemma format_obj_discover h0 fuel :
  ∀ s obj text s' seen,
    format_obj compress1 compress fuel s obj = Ok (text, s') →
    static h0 (objs s) → numbered s seen →
    numbered s' (discover h0 fuel seen obj).
Proof.
  induction fuel as [|fuel IHfuel]; intros s obj text s' seen H Hst Hnum; [done|].
  simpl in H. rewrite format_obj_body_unfold in H.
  destruct (objs s !! obj) as [n|] eqn:Hn; [|done].
  apply bind_Ok in H as ([toks s1] & Hall & H). injection H as _ <-.
  rewrite discover_links.
  pose proof (prepared_static compress1 compress contract h0 s obj Hst) as Hst0.
  destruct (prepared_fields compress1 compress s obj) as (Hd & Hl & _).
  assert (numbered (prep s obj) seen) as Hnum0.
  { eapply numbered_ext; [exact Hd|by rewrite Hl|exact Hnum]. }
  assert (links h0 obj
          = filter (λ c, is_plain (objs (prep s obj)) c = false)
                   (children (objs (prep s obj)) obj)) as ->.
  { destruct Hst0 as (_ & <- & _). done. }
  eapply (add_all_discover h0 fuel IHfuel); eauto.
  intros c Hc. destruct Hst0 as (Hcl & _). rewrite closed_spec in Hcl. eauto.
Qed.

End discovery.

(** ** Between the passes *)

Section size_entry.

Lemma insert_item_perm p l : insert_item p l ≡ₚ p :: l.
Proof.
  induction l as [|q l IH]; [done|]. simpl.
  destruct (String.leb p.1 q.1); [done|].
  rewrite IH. apply Permutation_swap.
Qed.

Lemma sorted_perm items : sorted items ≡ₚ items.
Proof.
  induction items as [|p l IH]; [done|]. simpl.
  by rewrite insert_item_perm, IH.
Qed.

Lemma set_item_elem key v items p :
  p ∈ set_item key v items → p = (key, v) ∨ p ∈ items.
Proof.
  induction items as [|[k w] items IH]; simpl.
  - intros ->%list_elem_of_singleton. by left.
  - destruct (String.eqb key k).
    + intros [->|H]%elem_of_cons; [by left|right; set_solver].
    + intros [->|H]%elem_of_cons; [right; set_solver|].
      destruct (IH H); [by left|right; set_solver].
Qed.

Lemma set_item_has key v items : (key, v) ∈ set_item key v items.
Proof.
  induction items as [|[k w] items IH]; simpl; [set_solver|].
  destruct (String.eqb key k); set_solver.
Qed.

(** The arena with the [Size] set: the new scalar is the last object,
    the trailer has it under ["/Size"], and the rest is as before. *)
Lemma set_Size_new h trailer n :
  set_Size h trailer n !! length h = Some (Scalar false (pretty n)).
Proof.
  unfold set_Size.
  destruct ((h ++ [Scalar false (pretty n)]) !! trailer) as [[|ind st items|]|] eqn:Hn;
    try by rewrite lookup_app_r, Nat.sub_diag.
  rewrite list_lookup_insert_ne.
  - by rewrite lookup_app_r, Nat.sub_diag.
  - intros ->. rewrite lookup_app_r, Nat.sub_diag in Hn by done. done.
Qed.

Lemma set_Size_length h trailer n : length (set_Size h trailer n) = S (length h).
Proof.
  unfold set_Size.
  destruct ((h ++ [Scalar false (pretty n)]) !! trailer) as [[|ind st items|]|];
    rewrite ?length_insert, length_app; simpl; lia.
Qed.

Lemma set_Size_other h trailer n x :
  x ≠ trailer → x < length h → set_Size h trailer n !! x = h !! x.
Proof.
  intros Hne Hlt. unfold set_Size.
  destruct ((h ++ [Scalar false (pretty n)]) !! trailer) as [[|ind st items|]|];
    rewrite ?list_lookup_insert_ne by done; by rewrite lookup_app_l.
Qed.

Lemma set_Size_trailer h trailer n :
  match h !! trailer with
  | Some (PdfDict indirect stream items) =>
      set_Size h trailer n !! trailer
      = Some (PdfDict indirect stream (set_item "/Size" (length h) items))
  | other => set_Size h trailer n !! trailer = other ∨ trailer = length h
  end.
Proof.
  unfold set_Size. destruct (h !! trailer) as [nd|] eqn:Hn.
  - pose proof (lookup_lt_Some _ _ _ Hn) as Hlt.
    rewrite lookup_app_l by done. rewrite Hn.
    destruct nd as [|ind st items|].
    + left. by rewrite lookup_app_l.
    + apply list_lookup_insert_eq. rewrite length_app. lia.
    + left. by rewrite lookup_app_l.
  - apply lookup_ge_None in Hn.
    destruct (decide (trailer = length h)) as [->|Hne]; [by right|left].
    rewrite (lookup_ge_None_2 (h ++ _)) by (rewrite length_app; simpl; lia).
    apply lookup_ge_None_2. rewrite length_app. simpl. lia.
Qed.

Lemma set_Size_children h trailer n x c :
  c ∈ children (set_Size h trailer n) x → c = length h ∨ c ∈ children h x.
Proof.
  unfold children. intros Hc.
  destruct (decide (x = trailer)) as [->|Hne].
  - pose proof (set_Size_trailer h trailer n) as Ht.
    destruct (h !! trailer) as [[|ind st items|]|] eqn:Hn.
    + destruct Ht as [Ht| ->]; [rewrite Ht in Hc; by right|].
      apply lookup_lt_Some in Hn. lia.
    + rewrite Ht in Hc. simpl in *.
      apply list_elem_of_fmap in Hc as ([k v] & -> & Hp).
      rewrite sorted_perm in Hp. apply set_item_elem in Hp as [[= _ ->]|Hp];
        [by left|right].
      apply list_elem_of_fmap. exists (k, v). by rewrite sorted_perm.
    + destruct Ht as [Ht| ->]; [rewrite Ht in Hc; by right|].
      apply lookup_lt_Some in Hn. lia.
    + destruct Ht as [Ht| ->]; [rewrite Ht in Hc; by right|].
      rewrite set_Size_new in Hc. by apply elem_of_nil in Hc.
  - destruct (decide (x < length h)) as [Hlt|Hge].
    + rewrite set_Size_other in Hc by done. by right.
    + destruct (decide (x = length h)) as [->|Hne'].
      * rewrite set_Size_new in Hc. by apply elem_of_nil in Hc.
      * rewrite lookup_ge_None_2 in Hc by (rewrite set_Size_length; lia).
        by apply elem_of_nil in Hc.
Qed.

Lemma set_Size_plain h trailer n c :
  c < length h → is_plain (set_Size h trailer n) c = is_plain h c.
Proof.
  intros Hlt. unfold is_plain.
  destruct (decide (c = trailer)) as [->|Hne].
  - pose proof (set_Size_trailer h trailer n) as Ht.
    destruct (h !! trailer) as [[|ind st items|]|] eqn:Hn.
    + destruct Ht as [->| ->]; [done|lia].
    + by rewrite Ht.
    + destruct Ht as [->| ->]; [done|lia].
    + apply lookup_ge_None in Hn. lia.
  - by rewrite set_Size_other.
Qed.

Lemma set_Size_indirect h trailer n x :
  indirect_at (set_Size h trailer n) x = indirect_at h x.
Proof.
  unfold indirect_at.
  destruct (decide (x = trailer)) as [->|Hne].
  - pose proof (set_Size_trailer h trailer n) as Ht.
    destruct (h !! trailer) as [[|ind st items|]|] eqn:Hn.
    + destruct Ht as [->| ->]; [done|]. apply lookup_lt_Some in Hn. lia.
    + by rewrite Ht.
    + destruct Ht as [->| ->]; [done|]. apply lookup_lt_Some in Hn. lia.
    + destruct Ht as [->| ->]; [done|]. by rewrite set_Size_new.
  - destruct (decide (x < length h)) as [Hlt|Hge].
    + by rewrite set_Size_other.
    + rewrite (lookup_ge_None_2 h x) by lia.
      destruct (decide (x = length h)) as [->|Hne'].
      * by rewrite set_Size_new.
      * by rewrite lookup_ge_None_2 by (rewrite set_Size_length; lia).
Qed.

Lemma set_Size_within h0 h trailer n :
  within h0 h → within h0 (set_Size h trailer n).
Proof.
  intros (Hclosed & Hlinks & Hind). rewrite closed_spec in Hclosed.
  split; [|split].
  - apply closed_spec. intros x c Hc. rewrite set_Size_length.
    apply set_Size_children in Hc as [->|Hc]; [lia|].
    apply Hclosed in Hc. lia.
  - intros x c Hc. apply Hlinks.
    pose proof (links_not_plain _ _ _ Hc) as Hp.
    apply links_children, set_Size_children in Hc as [->|Hc].
    + unfold is_plain in Hp. by rewrite set_Size_new in Hp.
    + apply children_links; [done|].
      rewrite <- (set_Size_plain h trailer n); [done|]. by eapply Hclosed.
  - intros x. by rewrite set_Size_indirect.
Qed.

End size_entry.

(** ** What dump leaves behind *)

Section dump_facts.
Variable compress1 :
  string → list (string * ident) →
  string * list (string * ident) * list (string * string).
Variable compress : bool.
Hypothesis contract : compress = true → keeps_links compress1.
Variable limit : nat.

Local Abbreviation fmt_run := (fmt_run compress1 compress).
Local Abbreviation add_run := (add_run compress1 compress).
Local Abbreviation all_run := (all_run compress1 compress).

(** Only indirect objects get a number. *)
Lemma run_indirect h0 :
  (∀ s obj text s', fmt_run s obj text s' →
     within h0 (objs s) →
     ∀ x, is_Some (indirect_dict s' !! x) →
          is_Some (indirect_dict s !! x) ∨ indirect_at h0 x = true)
  ∧ (∀ s obj tok s', add_run s obj tok s' →
     within h0 (objs s) →
     ∀ x, is_Some (indirect_dict s' !! x) →
          is_Some (indirect_dict s !! x) ∨ indirect_at h0 x = true)
  ∧ (∀ s xs toks s', all_run s xs toks s' →
     within h0 (objs s) →
     ∀ x, is_Some (indirect_dict s' !! x) →
          is_Some (indirect_dict s !! x) ∨ indirect_at h0 x = true).
Proof.
  apply run_mutind.
  - intros self obj tokens self' _ Hall IH Hw x Hx.
    destruct (prepared_fields compress1 compress self obj) as (Hd & _ & _).
    rewrite <- Hd. apply IH; [|done].
    by apply (prepared_within compress1 compress contract).
  - intros self obj result self' _ _ _ _ IH Hw x Hx. by apply IH.
  - intros. by left.
  - intros self obj text self' Hind Hnone _ IH _ Hw x Hx. simpl in *.
    destruct (IH Hw x Hx) as [H|H]; [|by right].
    destruct (decide (x = obj)) as [->|Hne].
    + right. destruct Hw as (_ & _ & <-). done.
    + left. by rewrite lookup_insert_ne in H.
  - intros. by left.
  - intros self y ys token tokens self1 self2 Hadd IH1 _ IH2 Hw x Hx.
    pose proof (proj1 (proj2 (run_within compress1 compress contract h0))
                  _ _ _ _ Hadd Hw) as Hw1.
    destruct (IH2 Hw1 x Hx) as [H|H]; [|by right]. by apply IH1.
Qed.

Lemma link_refers h a x : link h a x → refers h a x.
Proof. apply links_children. Qed.

Lemma tc_link_reachable h a x : tc (link h) a x → reachable h a x.
Proof. apply (tc_congruence id). intros ??. apply link_refers. Qed.

Lemma reachable_link h a x :
  reachable h a x → indirect_at h x = true → tc (link h) a x.
Proof.
  intros Htc Hind. induction Htc as [a x Hax|a b x Hab Hbx IH].
  - apply tc_once. apply children_links; [done|].
    by apply not_plain_of_indirect.
  - eapply tc_l; [|by apply IH]. apply children_links; [done|].
    assert (∃ y, refers h b y) as [y Hy] by (destruct Hbx; eauto).
    unfold refers, children, is_plain in *.
    destruct (h !! b) as [[| |[] ?]|]; try done; by apply elem_of_nil in Hy.
Qed.

(** The two passes of a successful [dump]: the first numbers the objects
    in discovery order and covers every text; the second changes neither
    the table nor the object list. *)
Lemma dump_format_passes h trailer text final :
  closed h →
  dump_format compress1 limit trailer compress h = Ok (text, final) →
  ∃ text1 s1,
    fmt_run (fresh_instance h) trailer text1 s1
    ∧ fmt_run (sized s1 trailer) trailer text final
    ∧ static h (objs s1)
    ∧ numbered s1 (discover h limit [] trailer)
    ∧ covered h (indirect_dict s1) trailer
    ∧ (∀ i, is_Some (indirect_dict s1 !! i) → covered h (indirect_dict s1) i)
    ∧ indirect_dict final = indirect_dict s1
    ∧ objlist final = objlist s1.
Proof.
  intros Hclosed H.
  apply dump_format_inv in H as (text1 & s1 & H1 & H2).
  pose proof (format_obj_run _ _ _ _ _ _ _ H1) as R1.
  pose proof (format_obj_run _ _ _ _ _ _ _ H2) as R2.
  pose proof (static_refl h Hclosed) as Hst.
  pose proof (proj1 (run_static compress1 compress contract h) _ _ _ _ R1 Hst) as Hst1.
  pose proof (format_obj_discover compress1 compress contract h _ _ _ _ _ []
                H1 Hst (numbered_fresh h)) as Hnum.
  destruct (proj1 (run_complete compress1 compress contract h) _ _ _ _ R1 Hst ∅)
    as [Hcov Hall].
  { intros i [n Hn]. simpl in Hn. by rewrite lookup_empty in Hn. }
  assert (∀ i, is_Some (indirect_dict s1 !! i) → covered h (indirect_dict s1) i)
    as Hall' by (intros; apply Hall; [done|set_solver]).
  destruct (proj1 (run_quiet compress1 compress contract h) _ _ _ _ R2) as [Hd Hl].
  { simpl. apply set_Size_within. by apply static_within. }
  { done. }
  exists text1, s1.
  split; [exact R1|]. split; [exact R2|]. split; [exact Hst1|].
  split; [exact Hnum|]. split; [exact Hcov|]. split; [exact Hall'|].
  split; [exact Hd|exact Hl].
Qed.

(** The numbering of a successful [dump], with the walk cut at the
    nesting of the call. *)
Lemma dump_format_discovery h trailer text final :
  closed h →
  dump_format compress1 limit trailer compress h = Ok (text, final) →
  let order := discover h limit [] trailer in
  NoDup order
  ∧ (∀ x, x ∈ order ↔ indirect_at h x = true ∧ reachable h trailer x)
  ∧ length (objlist final) = length order
  ∧ (∀ x n, indirect_dict final !! x = Some n
            ↔ ∃ k, n = S k ∧ order !! k = Some x).
Proof.
  intros Hclosed Hdump order.
  destruct (dump_format_passes h trailer text final Hclosed Hdump)
    as (text1 & s1 & R1 & R2 & Hst1 & Hnum & Hcov & Hall & Hd & Hl).
  fold order in Hnum.
  split; [by eapply numbered_NoDup|]. split; [|split].
  - intros x. rewrite (numbered_seen s1 order x Hnum). split.
    + intros Hx.
      pose proof (static_within h h (static_refl h Hclosed)) as Hw.
      split.
      * destruct (proj1 (run_indirect h) _ _ _ _ R1 Hw x Hx) as [[n Hn]|H]; [|done].
        simpl in Hn. by rewrite lookup_empty in Hn.
      * destruct (proj1 (run_sound compress1 compress contract h) _ _ _ _ R1 Hw x Hx)
          as [[n Hn]|H]; [|by apply tc_link_reachable].
        simpl in Hn. by rewrite lookup_empty in Hn.
    + intros [Hind Hreach].
      eapply (covered_closure h (indirect_dict s1)); eauto.
      by apply reachable_link.
  - rewrite Hl. apply Hnum.
  - intros x n. rewrite Hd. apply Hnum.
Qed.

Lemma all_run_lookup s xs toks s' :
  all_run s xs toks s' →
  length toks = length xs
  ∧ ∀ i c, xs !! i = Some c →
      ∃ sc tok sc', toks !! i = Some tok ∧ add_run sc c tok sc'
                    ∧ heap_evolves (objs s) (objs sc).
Proof.
  induction 1 as [s|s x xs token tokens s1 s2 Hadd Hall [IHl IH]].
  - split; [done|]. intros i c Hi. by rewrite lookup_nil in Hi.
  - split; [simpl; by rewrite IHl|].
    intros [|i] c Hi; simpl in *.
    + injection Hi as <-. exists s, token, s1.
      split; [done|]. split; [done|apply heap_evolves_refl].
    + destruct (IH i c Hi) as (sc & tok & sc' & Ht & Hrun & Hev).
      exists sc, tok, sc'. split; [done|]. split; [done|].
      eapply heap_evolves_trans; [|exact Hev].
      apply (proj1 (proj2 (run_evolves compress1 compress)) _ _ _ _ Hadd).
Qed.

(** [add] on a plain scalar gives its text. *)
Lemma add_run_scalar s c tok s' text :
  objs s !! c = Some (Scalar false text) → add_run s c tok s' → tok = text.
Proof.
  intros Hc Hrun.
  assert (indirect_at (objs s) c = false) as Hind.
  { unfold indirect_at. by rewrite Hc. }
  inversion Hrun as [? ? ? s1 _ _ _ Hfmt| |]; subst; try congruence.
  inversion Hfmt as [? ? tokens ? _ Hall]; subst.
  rewrite prepared_id by (simpl; intros ???; congruence).
  unfold rendered. simpl. by rewrite Hc.
Qed.

End dump_facts.

(** ** Termination *)

Section termination.
Variable compress1 :
  string → list (string * ident) →
  string * list (string * ident) * list (string * string).
Variable compress : bool.

Local Abbreviation fmt_run := (fmt_run compress1 compress).
Local Abbreviation add_run := (add_run compress1 compress).
Local Abbreviation prep := (prepared compress1 compress).

Lemma elem_of_composite h x :
  x ∈ composite h ↔ is_Some (h !! x) ∧ is_plain h x = false.
Proof.
  unfold composite. rewrite elem_of_list_to_set, list_elem_of_filter, elem_of_seq.
  rewrite lookup_lt_is_Some. simpl. split; intros []; split; (done || lia).
Qed.

Lemma composite_evolves h h' : heap_evolves h h' → composite h' = composite h.
Proof.
  intros Hev. apply set_eq. intros x. rewrite !elem_of_composite.
  pose proof (heap_evolves_length _ _ Hev) as Hlen.
  rewrite !lookup_lt_is_Some. split.
  - intros [Hlt Hp]. destruct (decide (x < length h)) as [Hx|Hx].
    + split; [done|]. by rewrite <- (is_plain_stable _ _ x Hev).
    + destruct (proj2 Hev x) as [Hn|Hn].
      * apply lookup_ge_None. lia.
      * apply lookup_ge_None in Hn. lia.
      * congruence.
  - intros [Hlt Hp]. split; [lia|]. by rewrite (is_plain_stable _ _ x Hev).
Qed.

Lemma composite_bound h : size (composite h) ≤ length h.
Proof.
  unfold composite. rewrite size_list_to_set.
  - etrans; [apply length_filter|]. by rewrite length_seq.
  - apply NoDup_filter, NoDup_seq.
Qed.

Lemma budget_bound s : budget s ≤ 2 * length (objs s).
Proof.
  unfold budget. pose proof (composite_bound (objs s)).
  assert (size (composite (objs s) ∖ visited s) ≤ size (composite (objs s)))
    by (apply subseteq_size; set_solver).
  assert (size (composite (objs s) ∖ dom (indirect_dict s))
          ≤ size (composite (objs s)))
    by (apply subseteq_size; set_solver).
  lia.
Qed.

(** A successful call does not raise the budget. *)
Lemma budget_grows s s' :
  grows s s' → heap_evolves (objs s) (objs s') → budget s' ≤ budget s.
Proof.
  intros (Hsub & _ & Hvis) Hev. unfold budget.
  rewrite (composite_evolves _ _ Hev), Hvis.
  apply Nat.add_le_mono_l, subseteq_size.
  apply subseteq_dom in Hsub. set_solver.
Qed.

Lemma budget_visit s x :
  is_Some (objs s !! x) → is_plain (objs s) x = false → x ∉ visited s →
  budget (set_visited s ({[x]} ∪ visited s)) < budget s.
Proof.
  intros Hx Hp Hv. unfold budget. simpl.
  apply Nat.add_lt_mono_r, subset_size.
  assert (x ∈ composite (objs s)) by by apply elem_of_composite.
  set_solver.
Qed.

Lemma budget_reserve s x :
  is_Some (objs s !! x) → is_plain (objs s) x = false →
  indirect_dict s !! x = None →
  budget (reserved s x) < budget s.
Proof.
  intros Hx Hp Hd. unfold budget. simpl.
  apply Nat.add_lt_mono_l, subset_size.
  assert (x ∈ composite (objs s)) by by apply elem_of_composite.
  apply not_elem_of_dom in Hd. rewrite dom_insert_L. set_solver.
Qed.

Hypothesis contract : compress = true → keeps_links compress1.

Lemma prepared_budget s obj : budget (prep s obj) = budget s.
Proof.
  destruct (prepared_fields compress1 compress s obj) as (Hd & _ & Hv).
  unfold budget. rewrite Hd, Hv.
  by rewrite (composite_evolves _ _ (prepared_evolves compress1 compress s obj)).
Qed.

Lemma run_closed s obj tok s' :
  add_run s obj tok s' → closed (objs s) → closed (objs s').
Proof.
  intros Hrun Hc.
  apply (proj1 (proj2 (run_static compress1 compress contract (objs s)))
           _ _ _ _ Hrun (static_refl _ Hc)).
Qed.

Lemma format_obj_scalar fuel s c text :
  objs s !! c = Some (Scalar false text) →
  format_obj compress1 compress (S fuel) s c = Ok (text, s).
Proof. intros Hc. simpl. unfold format_obj_body. by rewrite Hc. Qed.

Lemma add_all_ends_well fuel :
  (∀ s o, budget s + 1 < fuel → closed (objs s) → is_Some (objs s !! o) →
          ends_well (format_obj compress1 compress fuel s o)) →
  ∀ cs s, budget s < fuel → closed (objs s) →
          (∀ c, c ∈ cs → c < length (objs s)) →
          ends_well (add_all (add compress1 compress fuel) s cs).
Proof.
  intros IHfuel cs. induction cs as [|c cs IH]; intros s Hb Hclosed Hcs.
  { left. by eexists. }
  rewrite add_all_cons.
  assert (ends_well (add compress1 compress fuel s c)) as Hadd.
  { destruct (lookup_lt_is_Some_2 (objs s) c) as [n Hn]; [apply Hcs; set_solver|].
    unfold add, add_body. rewrite Hn.
    destruct (is_indirect n) eqn:Hind; simpl.
    - destruct (indirect_dict s !! c) as [k|] eqn:Hd; [left; by eexists|].
      assert (is_plain (objs s) c = false) as Hp.
      { apply not_plain_of_indirect. unfold indirect_at. by rewrite Hn. }
      destruct (IHfuel (reserved s c) c) as [[[text s1] Hok]|[x Hx]].
      + pose proof (budget_reserve s c (mk_is_Some _ _ Hn) Hp Hd). lia.
      + done.
      + simpl. eauto.
      + pose proof (grows_length _ _
          (fmt_run_grows _ _ _ _ _ _ (format_obj_run _ _ _ _ _ _ _ Hok))) as Hlen.
        simpl in Hlen. rewrite length_app in Hlen. simpl in Hlen.
        unfold reserved in Hok. rewrite Hok. simpl.
        rewrite decide_True by lia. left. by eexists.
      + unfold reserved in Hx. rewrite Hx. right. by eexists.
    - case_decide as Hv; [right; by eexists|].
      destruct (is_plain (objs s) c) eqn:Hp.
      + destruct fuel as [|fuel']; [lia|].
        unfold is_plain in Hp. rewrite Hn in Hp.
        destruct n as [| |[] text]; try done.
        rewrite (format_obj_scalar fuel' _ c text) by done.
        left. by eexists.
      + destruct (IHfuel (set_visited s ({[c]} ∪ visited s)) c)
          as [[[text s1] Hok]|[x Hx]].
        * pose proof (budget_visit s c (mk_is_Some _ _ Hn) Hp Hv). lia.
        * done.
        * simpl. eauto.
        * rewrite Hok. left. by eexists.
        * rewrite Hx. right. by eexists. }
  destruct Hadd as [[[tok s1] Hok]|[x Hx]]; [|rewrite Hx; right; by eexists].
  rewrite Hok. simpl.
  pose proof (add_run_of _ _ _ _ _ _ _ Hok) as Hrun.
  pose proof (proj1 (proj2 (run_evolves compress1 compress)) _ _ _ _ Hrun) as Hev.
  destruct (IH s1) as [[[toks s2] Hok2]|[x Hx]].
  - pose proof (budget_grows _ _ (add_run_grows _ _ _ _ _ _ Hrun) Hev). lia.
  - by eapply run_closed.
  - intros c' Hc'. pose proof (heap_evolves_length _ _ Hev).
    assert (c' < length (objs s)) by (apply Hcs; set_solver). lia.
  - rewrite Hok2. left. by eexists.
  - rewrite Hx. right. by eexists.
Qed.

Lemma format_obj_S fuel s o :
  format_obj compress1 compress (S fuel) s o
  = format_obj_body compress1 compress (add compress1 compress fuel) s o.
Proof. reflexivity. Qed.

(** On a closed arena and with the budget at hand, a call returns or
    fails the assertion of [add]; it does nothing else. *)
Lemma format_obj_ends_well fuel :
  ∀ s o, budget s + 1 < fuel → closed (objs s) → is_Some (objs s !! o) →
         ends_well (format_obj compress1 compress fuel s o).
Proof.
  induction fuel as [|fuel IH]; intros s o Hb Hclosed [n Hn]; [lia|].
  rewrite format_obj_S, format_obj_body_unfold, Hn.
  assert (closed (objs (prep s o))) as Hclosed0.
  { apply (prepared_static compress1 compress contract (objs s) s o).
    by apply static_refl. }
  destruct (add_all_ends_well fuel IH (children (objs (prep s o)) o) (prep s o))
    as [[[toks s1] Hok]|[x Hx]].
  - rewrite prepared_budget. lia.
  - done.
  - intros c Hc. rewrite closed_spec in Hclosed0. eauto.
  - rewrite Hok. left. by eexists.
  - rewrite Hx. right. by eexists.
Qed.

End termination.

(** ** Cycles *)

Section walks.
Context (R : relation nat).

Lemma walk_snoc x p y z : walk R x p y → R y z → walk R x (p ++ [z]) z.
Proof.
  induction 1 as [x|x y p z' Hxy Hw IH]; intros Hyz; simpl.
  - constructor; [done|constructor].
  - constructor; [done|by apply IH].
Qed.

Lemma walk_split x p1 c p2 y :
  walk R x (p1 ++ c :: p2) y → walk R x (p1 ++ [c]) c ∧ walk R c p2 y.
Proof.
  revert x. induction p1 as [|a p1 IH]; intros x Hw; simpl in *.
  - inversion Hw as [|? ? ? ? Hxc Hrest]; subst.
    split; [constructor; [done|constructor]|done].
  - inversion Hw as [|? ? ? ? Hxa Hrest]; subst.
    destruct (IH _ Hrest) as [Hw1 Hw2].
    split; [by constructor|done].
Qed.

Lemma walk_app x p y q z : walk R x p y → walk R y q z → walk R x (p ++ q) z.
Proof.
  induction 1 as [x|x y p z' Hxy Hw IH]; intros Hq; simpl; [done|].
  constructor; [done|by apply IH].
Qed.

Lemma walk_mono (R' : relation nat) x p y :
  (∀ a b, R a b → R' a b) → walk R x p y → walk R' x p y.
Proof. intros HR. induction 1; constructor; auto. Qed.

Lemma walk_rtc x p y : walk R x p y → rtc R x y.
Proof. induction 1; [done|by eapply rtc_l]. Qed.

Lemma rtc_walk x y : rtc R x y → ∃ p, walk R x p y.
Proof.
  induction 1 as [x|x y z Hxy _ [p Hp]]; [exists []; constructor|].
  exists (y :: p). by constructor.
Qed.

(** The last step of a walk starts at its origin or at one of its
    objects. *)
Lemma walk_pred x p y : walk R x p y → p ≠ [] → ∃ z, R z y ∧ (z = x ∨ z ∈ p).
Proof.
  induction 1 as [x|x y p z Hxy Hw IH]; [done|]. intros _.
  destruct p as [|a p].
  - inversion Hw; subst. eauto.
  - destruct IH as (z' & Hz & Hin); [done|]. exists z'. split; [done|].
    right. destruct Hin as [->|Hin]; set_solver.
Qed.

Lemma walk_last x p y : walk R x p y → p ≠ [] → ∃ p', p = p' ++ [y].
Proof.
  induction 1 as [x|x y p z Hxy Hw IH]; [done|]. intros _.
  destruct p as [|a p].
  - inversion Hw; subst. by exists [].
  - destruct IH as [p' ->]; [done|]. by exists (y :: p').
Qed.

End walks.

(** ** When the assertion of add holds *)

Section guard.
Variable compress1 :
  string → list (string * ident) →
  string * list (string * ident) * list (string * string).
Variable compress : bool.
Hypothesis contract : compress = true → keeps_links compress1.
Variable h0 : heap.
Variable trailer : ident.
Hypothesis Hguard : guarded h0 trailer.

Local Abbreviation fmt_run := (fmt_run compress1 compress).
Local Abbreviation add_run := (add_run compress1 compress).
Local Abbreviation prep := (prepared compress1 compress).

Lemma on_stack_grows s s' p :
  grows s s' → heap_evolves (objs s) (objs s') →
  on_stack h0 s p → on_stack h0 s' p.
Proof.
  intros (Hsub & _ & Hvis) Hev (H1 & H2 & H3). split; [|split; [|done]].
  - intros v Hv. rewrite Hvis in Hv. rewrite (composite_evolves _ _ Hev). auto.
  - intros x Hx Hi. eapply lookup_weaken_is_Some; eauto.
Qed.

Lemma on_stack_prepared s p o : on_stack h0 s p → on_stack h0 (prep s o) p.
Proof.
  intros (H1 & H2 & H3).
  destruct (prepared_fields compress1 compress s o) as (Hd & _ & Hv).
  split; [|split; [|done]].
  - intros v. rewrite Hv.
    rewrite (composite_evolves _ _ (prepared_evolves compress1 compress s o)). auto.
  - intros x. rewrite Hd. auto.
Qed.

(** The object met again would lie on a cycle that its guard rules out. *)
Lemma guard_excludes s p o c :
  walk (link h0) trailer p o → on_stack h0 s p →
  link h0 o c → indirect_at h0 c = false → c ∉ visited s.
Proof.
  intros Hwalk (H1 & H2 & H3) Hoc Hind Hv.
  destruct (H1 _ Hv) as [Hcp _].
  apply list_elem_of_split in Hcp as (p1 & p2 & ->).
  apply walk_split in Hwalk as [Hw1 Hw2].
  pose proof (walk_snoc _ _ _ _ _ Hw2 Hoc) as Hcycle.
  assert (∀ a b, link h0 a b → refers h0 a b) as Hmono by apply links_children.
  destruct (Hguard c (p2 ++ [c]) Hind) as (d & Hd & Hdi & Hdt & Hdom).
  { by destruct p2. }
  { by eapply walk_mono. }
  assert (d ≠ c) as Hne by (intros ->; congruence).
  assert (d ∈ p2) as Hd2 by set_solver.
  assert (d ∈ p1) as Hd1.
  { specialize (Hdom (p1 ++ [c]) (walk_mono _ _ _ _ _ Hmono Hw1)). set_solver. }
  apply list_elem_of_lookup in Hd1 as [i Hi], Hd2 as [j Hj].
  pose proof (lookup_lt_Some _ _ _ Hi) as Hlt.
  assert (i = length p1 + S j); [|lia].
  apply (H3 _ _ d); [by apply lookup_app_l_Some| |done].
  rewrite lookup_app_r by lia.
  replace (length p1 + S j - length p1) with (S j) by lia. done.
Qed.

Lemma on_stack_visit s p c :
  on_stack h0 s p → indirect_at h0 c = false → c ∈ composite (objs s) →
  on_stack h0 (set_visited s ({[c]} ∪ visited s)) (p ++ [c]).
Proof.
  intros (H1 & H2 & H3) Hind Hc. split; [|split].
  - intros v Hv. simpl in *. apply elem_of_union in Hv as [->%elem_of_singleton|Hv].
    + split; [set_solver|done].
    + destruct (H1 _ Hv). split; [set_solver|done].
  - intros x Hx Hi. simpl.
    apply elem_of_app in Hx as [Hx| ->%list_elem_of_singleton]; [auto|congruence].
  - intros i j x Hi Hj Hx.
    apply lookup_app_Some in Hi as [Hi|[_ Hi]], Hj as [Hj|[_ Hj]];
      try (apply list_lookup_singleton_Some in Hi as [_ <-]; congruence);
      try (apply list_lookup_singleton_Some in Hj as [_ <-]; congruence).
    eauto.
Qed.

Lemma on_stack_reserve s p c :
  on_stack h0 s p → indirect_at h0 c = true → indirect_dict s !! c = None →
  on_stack h0 (reserved s c) (p ++ [c]).
Proof.
  intros (H1 & H2 & H3) Hind Hnone. split; [|split].
  - intros v Hv. simpl in *. destruct (H1 _ Hv). split; [set_solver|done].
  - intros x Hx Hi. simpl. destruct (decide (x = c)) as [->|Hne].
    + rewrite lookup_insert_eq. eauto.
    + rewrite lookup_insert_ne by done. apply H2; [set_solver|done].
  - intros i j x Hi Hj Hx.
    assert (c ∉ p) as Hcp.
    { intros Hcp. destruct (H2 _ Hcp Hind) as [n Hn]. congruence. }
    apply lookup_app_Some in Hi as [Hi|[Hgi Hi]], Hj as [Hj|[Hgj Hj]].
    + eauto.
    + apply list_lookup_singleton_Some in Hj as [_ <-].
      exfalso. apply Hcp. by eapply list_elem_of_lookup_2.
    + apply list_lookup_singleton_Some in Hi as [_ <-].
      exfalso. apply Hcp. by eapply list_elem_of_lookup_2.
    + apply list_lookup_singleton_Some in Hi as [Hi _], Hj as [Hj _]. lia.
Qed.

Lemma add_all_no_cycle_error fuel p o :
  (∀ s o p x, within h0 (objs s) → walk (link h0) trailer p o →
              on_stack h0 s p →
              format_obj compress1 compress fuel s o ≠ Raise (CircularReference x)) →
  walk (link h0) trailer p o →
  ∀ cs s x,
    within h0 (objs s) → on_stack h0 s p →
    (∀ c, c ∈ cs → is_plain (objs s) c = false → link h0 o c) →
    add_all (add compress1 compress fuel) s cs ≠ Raise (CircularReference x).
Proof.
  intros IHfuel Hwalk cs.
  induction cs as [|c cs IH]; intros s x Hw Hst Hcs; [done|].
  rewrite add_all_cons.
  destruct (add compress1 compress fuel s c) as [[tok s1]|e] eqn:Hadd.
  - simpl.
    pose proof (add_run_of _ _ _ _ _ _ _ Hadd) as Hrun.
    pose proof (proj1 (proj2 (run_evolves compress1 compress)) _ _ _ _ Hrun) as Hev.
    specialize (IH s1 x).
    destruct (add_all (add compress1 compress fuel) s1 cs) as [[toks s2]|e] eqn:Hall;
      [done|]. simpl. apply IH.
    + apply (proj1 (proj2 (run_within compress1 compress contract h0)) _ _ _ _ Hrun Hw).
    + eapply on_stack_grows; eauto. by eapply add_run_grows.
    + intros c' Hc' Hp. apply Hcs; [set_solver|].
      destruct (is_plain (objs s) c') eqn:Hp'; [|done].
      by rewrite (is_plain_evolves _ _ _ Hev Hp') in Hp.
  - simpl. intros [= ->]. revert Hadd. unfold add, add_body.
    destruct (objs s !! c) as [n|] eqn:Hn; [|done].
    assert (indirect_at h0 c = is_indirect n) as Hind.
    { destruct Hw as (_ & _ & <-). unfold indirect_at. by rewrite Hn. }
    destruct (is_indirect n) eqn:Hin; simpl.
    + destruct (indirect_dict s !! c) as [k|] eqn:Hd; [done|].
      assert (link h0 o c) as Hoc.
      { apply Hcs; [set_solver|]. apply not_plain_of_indirect.
        unfold indirect_at. by rewrite Hn. }
      pose proof (IHfuel (reserved s c) c (p ++ [c]) x Hw
                    (walk_snoc _ _ _ _ _ Hwalk Hoc)
                    (on_stack_reserve s p c Hst Hind Hd)) as Hne.
      unfold reserved in Hne.
      destruct (format_obj _ _ _ _ _) as [[text s1]|e]; simpl.
      * by case_decide.
      * intros [= ->]. done.
    + case_decide as Hv.
      * intros _. destruct (is_plain (objs s) c) eqn:Hp.
        -- destruct Hst as (H1 & _). destruct (H1 _ Hv) as [_ Hc].
           apply elem_of_composite in Hc as [_ Hc]. congruence.
        -- by apply (guard_excludes s p o c Hwalk Hst (Hcs c ltac:(set_solver) Hp)).
      * destruct (is_plain (objs s) c) eqn:Hp.
        -- unfold is_plain in Hp. rewrite Hn in Hp.
           destruct n as [| |[] text]; try done.
           destruct fuel as [|fuel']; [done|].
           rewrite (format_obj_scalar compress1 compress fuel' _ c text) by done.
           done.
        -- assert (link h0 o c) as Hoc by (apply Hcs; [set_solver|done]).
           pose proof (IHfuel (set_visited s ({[c]} ∪ visited s)) c (p ++ [c]) x Hw
                         (walk_snoc _ _ _ _ _ Hwalk Hoc)) as Hne.
           destruct (format_obj _ _ _ _ _) as [[text s1]|e]; simpl; [done|].
           intros [= ->]. apply Hne; [|done].
           apply on_stack_visit; [done..|].
           apply elem_of_composite. split; [eauto|done].
Qed.

(** Under the guard, no call fails the assertion. *)
Lemma format_obj_no_cycle_error fuel :
  ∀ s o p x,
    within h0 (objs s) → walk (link h0) trailer p o → on_stack h0 s p →
    format_obj compress1 compress fuel s o ≠ Raise (CircularReference x).
Proof.
  induction fuel as [|fuel IH]; intros s o p x Hw Hwalk Hst; [done|].
  rewrite format_obj_S, format_obj_body_unfold.
  destruct (objs s !! o) as [n|] eqn:Hn; [|done].
  pose proof (prepared_within compress1 compress contract h0 s o Hw) as Hw0.
  pose proof (add_all_no_cycle_error fuel p o IH Hwalk
                (children (objs (prep s o)) o) (prep s o) x Hw0
                (on_stack_prepared s p o Hst)) as Hne.
  destruct (add_all _ _ _) as [[toks s1]|e]; simpl; [done|].
  intros [= ->]. apply Hne; [|done].
  intros c Hc Hp. apply Hw0. by apply children_links.
Qed.

End guard.

(** ** Cycles of inlined objects *)

Section inline_cycles.
Variable compress1 :
  string → list (string * ident) →
  string * list (string * ident) * list (string * string).
Variable compress : bool.
Hypothesis contract : compress = true → keeps_links compress1.
Variable h0 : heap.

Local Abbreviation fmt_run := (fmt_run compress1 compress).
Local Abbreviation add_run := (add_run compress1 compress).
Local Abbreviation all_run := (all_run compress1 compress).
Local Abbreviation prep := (prepared compress1 compress).

(** A successful call met no inlined object on a cycle of inlined
    objects, and none that was in the guard set. *)
Lemma run_no_inline_cycle :
  (∀ s obj text s', fmt_run s obj text s' →
     static h0 (objs s) →
     ∀ p y, walk (inline_link h0) obj p y → p ≠ [] →
            y ∉ visited s ∧ ∀ q, q ≠ [] → ¬ walk (inline_link h0) y q y)
  ∧ (∀ s obj tok s', add_run s obj tok s' →
     static h0 (objs s) → indirect_at h0 obj = false →
     ∀ p y, walk (inline_link h0) obj p y →
            y ∉ visited s ∧ ∀ q, q ≠ [] → ¬ walk (inline_link h0) y q y)
  ∧ (∀ s xs toks s', all_run s xs toks s' →
     static h0 (objs s) →
     ∀ c, c ∈ xs → indirect_at h0 c = false →
     ∀ p y, walk (inline_link h0) c p y →
            y ∉ visited s ∧ ∀ q, q ≠ [] → ¬ walk (inline_link h0) y q y).
Proof.
  apply run_mutind.
  - intros self obj tokens self' _ Hall IH Hst p y Hwalk Hp.
    destruct (prepared_fields compress1 compress self obj) as (_ & _ & Hv).
    pose proof (prepared_static compress1 compress contract h0 self obj Hst) as Hst0.
    rewrite <- Hv.
    inversion Hwalk as [|? c p' ? [Hlink Hind] Hrest]; subst; [done|].
    apply (IH Hst0 c) with (p := p'); [|done|done].
    apply links_children. destruct Hst0 as (_ & -> & _). done.
  - intros self obj result self' _ _ Hvis _ IH Hst Hind p y Hwalk. simpl in *.
    destruct p as [|c p].
    + inversion Hwalk; subst. split; [done|].
      intros q Hq Hcycle. destruct (IH Hst q y Hcycle Hq) as [Hy _]. set_solver.
    + destruct (IH Hst (c :: p) y Hwalk) as [Hy Hc]; [done|].
      split; [set_solver|done].
  - intros self obj objnum Hind _ Hst Hind'. destruct Hst as (_ & _ & Hi).
    rewrite Hi in Hind. congruence.
  - intros self obj text self' Hind _ _ _ _ Hst Hind'. destruct Hst as (_ & _ & Hi).
    rewrite Hi in Hind. congruence.
  - intros self _ c Hc. by apply elem_of_nil in Hc.
  - intros self x xs token tokens self1 self2 Hadd IH1 Hall IH2 Hst c Hc Hind p y Hwalk.
    apply elem_of_cons in Hc as [->|Hc]; [by apply (IH1 Hst Hind p)|].
    pose proof (add_run_grows _ _ _ _ _ _ Hadd) as (_ & _ & Hv).
    rewrite <- Hv. apply (IH2 ltac:(by eapply (proj1 (proj2
      (run_static compress1 compress contract h0)))) c Hc Hind p y Hwalk).
Qed.

(** Every object of the table went through a successful call. *)
Lemma run_formatted :
  (∀ s obj text s', fmt_run s obj text s' →
     static h0 (objs s) →
     ∀ x, is_Some (indirect_dict s' !! x) →
          is_Some (indirect_dict s !! x) ∨ formatted compress1 compress h0 x)
  ∧ (∀ s obj tok s', add_run s obj tok s' →
     static h0 (objs s) →
     ∀ x, is_Some (indirect_dict s' !! x) →
          is_Some (indirect_dict s !! x) ∨ formatted compress1 compress h0 x)
  ∧ (∀ s xs toks s', all_run s xs toks s' →
     static h0 (objs s) →
     ∀ x, is_Some (indirect_dict s' !! x) →
          is_Some (indirect_dict s !! x) ∨ formatted compress1 compress h0 x).
Proof.
  apply run_mutind.
  - intros self obj tokens self' _ Hall IH Hst x Hx.
    destruct (prepared_fields compress1 compress self obj) as (Hd & _ & _).
    rewrite <- Hd. apply IH; [|done].
    by apply (prepared_static compress1 compress contract).
  - intros self obj result self' _ _ _ _ IH Hst x Hx. by apply IH.
  - intros. by left.
  - intros self obj text self' Hind Hnone Hfmt IH _ Hst x Hx. simpl in *.
    destruct (IH Hst x Hx) as [H|H]; [|by right].
    destruct (decide (x = obj)) as [->|Hne].
    + right. by exists (reserved self obj), text, self'.
    + left. by rewrite lookup_insert_ne in H.
  - intros. by left.
  - intros self y ys token tokens self1 self2 Hadd IH1 _ IH2 Hst x Hx.
    pose proof (proj1 (proj2 (run_static compress1 compress contract h0))
                  _ _ _ _ Hadd Hst) as Hst1.
    destruct (IH2 Hst1 x Hx) as [H|H]; [|by right]. by apply IH1.
Qed.

Lemma inline_link_link x y : inline_link h0 x y → link h0 x y.
Proof. by intros []. Qed.

(** With the table complete, no cycle of inlined objects is within
    reach of the trailer. *)
Lemma inline_cycle_unreachable trailer (d : gmap nat nat) :
  formatted compress1 compress h0 trailer →
  (∀ x, is_Some (d !! x) → formatted compress1 compress h0 x) →
  (∀ x, tc (link h0) trailer x → indirect_at h0 x = true → is_Some (d !! x)) →
  ∀ b c, rtc (link h0) b c →
  ∀ a p, rtc (link h0) trailer a → formatted compress1 compress h0 a →
         walk (inline_link h0) a p b →
         ∀ q, q ≠ [] → ¬ walk (inline_link h0) c q c.
Proof.
  intros Ht Hall Hcomplete b c Hbc.
  induction Hbc as [b|b b' c Hbb' Hb'c IH]; intros a p Hta Ha Hwalk q Hq Hcycle.
  - destruct Ha as (sx & text & sx' & Hrun & Hst).
    destruct p as [|y p].
    + inversion Hwalk; subst.
      by destruct (proj1 run_no_inline_cycle _ _ _ _ Hrun Hst q b Hcycle Hq)
        as [_ Hno]; eapply Hno.
    + by destruct (proj1 run_no_inline_cycle _ _ _ _ Hrun Hst (y :: p) b Hwalk)
        as [_ Hno]; [|eapply Hno].
  - assert (rtc (link h0) trailer b) as Htb.
    { etrans; [exact Hta|]. eapply walk_rtc, walk_mono; [|exact Hwalk].
      apply inline_link_link. }
    destruct (indirect_at h0 b') eqn:Hind.
    + apply (IH b' [] (rtc_r _ _ _ Htb Hbb')) with (q := q); [|constructor|done..].
      apply Hall, Hcomplete; [|done]. by eapply tc_rtc_l; [|apply tc_once].
    + apply (IH a (p ++ [b']) Hta Ha) with (q := q); [|done..].
      by eapply walk_snoc.
Qed.

End inline_cycles.

(** ** More nesting changes nothing *)

(** Once the nesting allowed lets a call end with a text or with an error
    of the code, a deeper one gives the same. *)

Section nesting.
Variable compress1 :
  string → list (string * ident) →
  string * list (string * ident) * list (string * string).
Variable compress : bool.

Lemma add_all_more addf addf' s xs :
  (∀ s x, addf s x ≠ Raise RecursionLimit → addf' s x = addf s x) →
  add_all addf s xs ≠ Raise RecursionLimit →
  add_all addf' s xs = add_all addf s xs.
Proof.
  intros Hmore. revert s. induction xs as [|x xs IH]; intros s H; [done|].
  rewrite !add_all_cons in *.
  rewrite Hmore by (intros E; by rewrite E in H).
  destruct (addf s x) as [[tok s1]|e]; [|done]. simpl in *.
  rewrite IH; [done|]. intros E. by rewrite E in H.
Qed.

Lemma add_body_more fmt fmt' s x :
  (∀ s x, fmt s x ≠ Raise RecursionLimit → fmt' s x = fmt s x) →
  add_body fmt s x ≠ Raise RecursionLimit →
  add_body fmt' s x = add_body fmt s x.
Proof.
  intros Hmore. unfold add_body.
  destruct (objs s !! x) as [n|]; [|done].
  destruct (is_indirect n); simpl.
  - destruct (indirect_dict s !! x); [done|]. intros Hend.
    rewrite Hmore; [done|]. intros E. by rewrite E in Hend.
  - case_decide; [done|]. intros Hend.
    rewrite Hmore; [done|]. intros E. by rewrite E in Hend.
Qed.

Lemma format_obj_more fuel fuel' s obj :
  fuel ≤ fuel' →
  format_obj compress1 compress fuel s obj ≠ Raise RecursionLimit →
  format_obj compress1 compress fuel' s obj
  = format_obj compress1 compress fuel s obj.
Proof.
  revert fuel' s obj.
  induction fuel as [|fuel IH]; intros fuel' s obj Hle H; [done|].
  destruct fuel' as [|fuel']; [lia|]. simpl in *.
  rewrite !format_obj_body_unfold in *.
  destruct (objs s !! obj) as [n|]; [|done].
  rewrite (add_all_more (add_body (format_obj compress1 compress fuel))); [done| |].
  - intros s1 x. apply add_body_more. intros s2 y. apply IH. lia.
  - intros E. by rewrite E in H.
Qed.

Lemma format_obj_more_Ok fuel fuel' s obj r :
  fuel ≤ fuel' →
  format_obj compress1 compress fuel s obj = Ok r →
  format_obj compress1 compress fuel' s obj = Ok r.
Proof.
  intros Hle H. rewrite (format_obj_more fuel fuel') by (done || by rewrite H).
  done.
Qed.

Lemma add_more fuel fuel' s obj :
  fuel ≤ fuel' →
  add compress1 compress fuel s obj ≠ Raise RecursionLimit →
  add compress1 compress fuel' s obj = add compress1 compress fuel s obj.
Proof.
  intros Hle. apply add_body_more. intros s1 x. by apply format_obj_more.
Qed.

Lemma dump_format_more limit limit' trailer h :
  limit ≤ limit' →
  dump_format compress1 limit trailer compress h ≠ Raise RecursionLimit →
  dump_format compress1 limit' trailer compress h
  = dump_format compress1 limit trailer compress h.
Proof.
  intros Hle. unfold dump_format. intros H.
  rewrite (format_obj_more limit limit' (fresh_instance h)); [|done|].
  - destruct (format_obj compress1 compress limit (fresh_instance h) trailer)
      as [[text1 s1]|e]; [|done]. simpl in *.
    by rewrite (format_obj_more limit limit').
  - intros E. by rewrite E in H.
Qed.

End nesting.

(** ** Termination and success of dump *)

Section serialization.
Variable compress1 :
  string → list (string * ident) →
  string * list (string * ident) * list (string * string).
Variable compress : bool.
Hypothesis contract : compress = true → keeps_links compress1.

Local Abbreviation fmt_run := (fmt_run compress1 compress).

Lemma composite_set_Size h trailer n :
  composite (set_Size h trailer n) = composite h.
Proof.
  apply set_eq. intros x. rewrite !elem_of_composite, !lookup_lt_is_Some.
  rewrite set_Size_length. split.
  - intros [Hlt Hp]. destruct (decide (x = length h)) as [->|Hne].
    + unfold is_plain in Hp. by rewrite set_Size_new in Hp.
    + assert (x < length h) by lia. split; [done|].
      by rewrite <- (set_Size_plain h trailer n).
  - intros [Hlt Hp]. split; [lia|]. by rewrite set_Size_plain.
Qed.

Lemma budget_composite s : budget s ≤ 2 * size (composite (objs s)).
Proof.
  unfold budget.
  assert (size (composite (objs s) ∖ visited s) ≤ size (composite (objs s)))
    by (apply subseteq_size; set_solver).
  assert (size (composite (objs s) ∖ dom (indirect_dict s))
          ≤ size (composite (objs s)))
    by (apply subseteq_size; set_solver).
  lia.
Qed.

Lemma on_stack_empty h0 s : visited s = ∅ → on_stack h0 s [].
Proof.
  intros Hv. split; [|split].
  - intros v. rewrite Hv. set_solver.
  - intros x Hx. by apply elem_of_nil in Hx.
  - intros i j x Hi. by rewrite lookup_nil in Hi.
Qed.

Lemma rtc_refers_link h a c :
  rtc (refers h) a c → is_plain h c = false → rtc (link h) a c.
Proof.
  intros Hac Hc. induction Hac as [a|a b c Hab Hbc IH]; [done|].
  specialize (IH Hc). eapply rtc_l; [|done].
  apply children_links; [done|].
  destruct (rtc_inv _ _ IH) as [->|(y & Hy & _)]; [done|].
  by apply not_plain_of_link in Hy.
Qed.

(** The facts about the second pass that its start rests on. *)
Lemma second_pass_ready limit h trailer text1 s1 :
  closed h → trailer < length h → enough_fuel h ≤ limit →
  format_obj compress1 compress limit (fresh_instance h) trailer
  = Ok (text1, s1) →
  budget (sized s1 trailer) + 1 < limit
  ∧ within h (objs (sized s1 trailer))
  ∧ is_Some (objs (sized s1 trailer) !! trailer)
  ∧ visited (sized s1 trailer) = ∅.
Proof.
  intros Hclosed Ht Hlimit H1.
  pose proof (format_obj_run _ _ _ _ _ _ _ H1) as R1.
  pose proof (proj1 (run_evolves compress1 compress) _ _ _ _ R1) as Hev.
  pose proof (proj1 (run_static compress1 compress contract h) _ _ _ _ R1
                (static_refl h Hclosed)) as Hst1.
  pose proof (fmt_run_grows _ _ _ _ _ _ R1) as (_ & _ & Hv).
  split; [|split; [|split]].
  - pose proof (budget_composite (sized s1 trailer)) as Hb. simpl in Hb.
    rewrite composite_set_Size, (composite_evolves _ _ Hev) in Hb.
    pose proof (composite_bound h). unfold enough_fuel in *. simpl in *. lia.
  - simpl. apply set_Size_within. by apply static_within.
  - simpl. apply lookup_lt_is_Some. rewrite set_Size_length.
    pose proof (heap_evolves_length _ _ Hev). simpl in *. lia.
  - done.
Qed.

Lemma dump_format_ends_well limit h trailer :
  closed h → trailer < length h → enough_fuel h ≤ limit →
  ends_well (dump_format compress1 limit trailer compress h).
Proof.
  intros Hclosed Ht Hlimit. unfold dump_format.
  destruct (format_obj_ends_well compress1 compress contract limit
              (fresh_instance h) trailer) as [[[text1 s1] H1]|[x Hx]].
  - pose proof (budget_bound (fresh_instance h)). unfold enough_fuel in *.
    simpl in *. lia.
  - done.
  - by apply lookup_lt_is_Some.
  - rewrite H1. simpl.
    destruct (second_pass_ready limit h trailer text1 s1 Hclosed Ht Hlimit H1)
      as (Hb & Hw & Hsome & _).
    apply (format_obj_ends_well compress1 compress contract); [done| |done].
    apply Hw.
  - rewrite Hx. right. by eexists.
Qed.

Lemma dump_format_guarded limit h trailer :
  closed h → trailer < length h → enough_fuel h ≤ limit → guarded h trailer →
  ∃ text final, dump_format compress1 limit trailer compress h = Ok (text, final).
Proof.
  intros Hclosed Ht Hlimit Hguard.
  destruct (dump_format_ends_well limit h trailer Hclosed Ht Hlimit)
    as [[[text final] H]|[x Hx]];
    [eauto|exfalso].
  unfold dump_format in Hx.
  destruct (format_obj compress1 compress limit (fresh_instance h) trailer)
    as [[text1 s1]|e] eqn:H1; simpl in Hx.
  - destruct (second_pass_ready limit h trailer text1 s1 Hclosed Ht Hlimit H1)
      as (_ & Hw & _ & Hv).
    eapply (format_obj_no_cycle_error compress1 compress contract h trailer Hguard);
      [exact Hw|constructor|by apply on_stack_empty|exact Hx].
  - injection Hx as ->.
    eapply (format_obj_no_cycle_error compress1 compress contract h trailer Hguard);
      [|constructor| |exact H1].
    + simpl. by apply static_within, static_refl.
    + by apply on_stack_empty.
Qed.

Lemma dump_format_inline_cycle limit h trailer c q :
  closed h → trailer < length h → enough_fuel h ≤ limit →
  rtc (refers h) trailer c → q ≠ [] → walk (inline_link h) c q c →
  ∃ x, dump_format compress1 limit trailer compress h = Raise (CircularReference x).
Proof.
  intros Hclosed Ht Hlimit Hreach Hq Hcycle.
  destruct (dump_format_ends_well limit h trailer Hclosed Ht Hlimit)
    as [[[text final] H]|[x Hx]];
    [exfalso|eauto].
  destruct (dump_format_passes compress1 compress contract limit h trailer text final
              Hclosed H)
    as (text1 & s1 & R1 & R2 & Hst1 & Hnum & Hcov & Hall & Hd & Hl).
  pose proof (static_refl h Hclosed) as Hst.
  assert (formatted compress1 compress h trailer) as Hft
    by by exists (fresh_instance h), text1, s1.
  assert (is_plain h c = false) as Hc.
  { inversion Hcycle as [|? y ? ? [Hlink _] _]; subst; [done|].
    by apply not_plain_of_link in Hlink. }
  eapply (inline_cycle_unreachable compress1 compress contract h trailer
            (indirect_dict s1) Hft); [| |by apply rtc_refers_link|done|exact Hft
            |constructor|exact Hq|exact Hcycle].
  - intros x Hx.
    destruct (proj1 (run_formatted compress1 compress contract h) _ _ _ _ R1 Hst x Hx)
      as [[n Hn]|Hf]; [|done]. simpl in Hn. by rewrite lookup_empty in Hn.
  - intros x Hx Hind. eapply covered_closure; eauto.
Qed.

(** A run that gives a result gives it with any nesting that no run
    reaches. *)
Lemma dump_format_enough limit h trailer r :
  closed h →
  dump_format compress1 limit trailer compress h = Ok r →
  dump_format compress1 (enough_fuel h) trailer compress h = Ok r.
Proof.
  intros Hclosed H.
  assert (trailer < length h) as Ht.
  { destruct r as [text final].
    apply dump_format_inv in H as (text1 & s1 & H1 & _).
    apply format_obj_run in H1. inversion H1 as [? ? ? ? Hsome _]; subst.
    by apply lookup_lt_is_Some. }
  destruct (decide (limit ≤ enough_fuel h)) as [Hle|Hgt].
  - rewrite (dump_format_more compress1 compress limit) by (done || by rewrite H).
    done.
  - rewrite <- H. symmetry.
    apply dump_format_more; [lia|].
    destruct (dump_format_ends_well (enough_fuel h) h trailer Hclosed Ht)
      as [[a Ha]|[x Hx]]; [done|by rewrite Ha|by rewrite Hx].
Qed.

(** Whatever nesting the interpreter allows, [dump_format] ends in one of
    three ways. *)
Lemma dump_format_ends limit h trailer :
  closed h → trailer < length h →
  ends (dump_format compress1 limit trailer compress h).
Proof.
  intros Hclosed Ht.
  destruct (decide (enough_fuel h ≤ limit)) as [Hle|Hgt].
  - left. by apply dump_format_ends_well.
  - assert (dump_format compress1 limit trailer compress h = Raise RecursionLimit
            ∨ dump_format compress1 limit trailer compress h ≠ Raise RecursionLimit)
      as [E|E].
    { destruct (dump_format compress1 limit trailer compress h) as [a|[]];
        (by left) || by right. }
    { by right. }
    left. rewrite <- (dump_format_more compress1 compress limit (enough_fuel h))
      by (done || lia).
    by apply dump_format_ends_well.
Qed.

End serialization.
(** ** Collaborators that keep the contract *)

Section key_order.

Lemma compare_lt_trans s1 s2 s3 :
  String.compare s1 s2 = Lt → String.compare s2 s3 = Lt → String.compare s1 s3 = Lt.
Proof.
  revert s2 s3. induction s1 as [|a s1 IH]; intros [|b s2] [|c s3]; simpl; try done.
  unfold Ascii.compare.
  destruct (N.compare_spec (N_of_ascii a) (N_of_ascii b)) as [Eab|Lab|Gab];
    destruct (N.compare_spec (N_of_ascii b) (N_of_ascii c)) as [Ebc|Lbc|Gbc];
    try done; intros H1 H2.
  - rewrite Eab, Ebc, N.compare_refl. by eapply IH.
  - rewrite Eab. by apply N.compare_lt_iff in Lbc as ->.
  - rewrite <- Ebc. by apply N.compare_lt_iff in Lab as ->.
  - assert (N_of_ascii a < N_of_ascii c)%N as Lac by lia.
    by apply N.compare_lt_iff in Lac as ->.
Qed.

Lemma leb_trans s1 s2 s3 :
  String.leb s1 s2 = true → String.leb s2 s3 = true → String.leb s1 s3 = true.
Proof.
  unfold String.leb.
  destruct (String.compare s1 s2) eqn:E12; [|..|done].
  - by apply String.compare_eq_iff in E12 as ->.
  - destruct (String.compare s2 s3) eqn:E23; [|..|done].
    + apply String.compare_eq_iff in E23 as <-. by rewrite E12.
    + by rewrite (compare_lt_trans _ _ _ E12 E23).
Qed.

Local Abbreviation key_le :=
  (λ a b : string * ident, String.leb a.1 b.1 = true).

(** A pair whose key is not above any key of the list goes to the front. *)
Lemma insert_item_front p l :
  Forall (key_le p) l → insert_item p l = p :: l.
Proof.
  destruct l as [|q l]; [done|]. intros H. apply Forall_cons in H as [H _].
  simpl in *. by rewrite H.
Qed.

(** [sorted] gives the pairs in ascending order of the keys. *)
Lemma insert_item_ordered p l :
  StronglySorted key_le l → StronglySorted key_le (insert_item p l).
Proof.
  induction 1 as [|q l Hl IH Hq]; simpl.
  - repeat constructor.
  - destruct (String.leb p.1 q.1) eqn:Hpq.
    + constructor; [by constructor|]. constructor; [done|].
      eapply Forall_impl; [exact Hq|]. intros r Hr. simpl in *.
      by eapply leb_trans.
    + constructor; [done|]. rewrite insert_item_perm. constructor; [|done].
      simpl. destruct (String.leb_total p.1 q.1); congruence.
Qed.

Lemma foldr_insert_item_ordered base items :
  StronglySorted key_le base →
  StronglySorted key_le (foldr insert_item base items).
Proof.
  intros Hb. induction items as [|p items IH]; [done|].
  simpl. by apply insert_item_ordered.
Qed.

(** Filtering commutes with the insertion into an ordered list. *)
Lemma filter_insert_item (Q : string * ident → Prop) `{!∀ p, Decision (Q p)} p l :
  StronglySorted key_le l →
  filter Q (insert_item p l)
  = if decide (Q p) then insert_item p (filter Q l) else filter Q l.
Proof.
  induction 1 as [|q l Hl IH Hq]; simpl.
  - rewrite filter_cons, filter_nil. by destruct (decide (Q p)).
  - destruct (String.leb p.1 q.1) eqn:Hpq.
    + rewrite (filter_cons _ p). destruct (decide (Q p)); [|done].
      rewrite insert_item_front; [done|].
      apply Forall_forall. intros r Hr.
      apply list_elem_of_filter in Hr as [_ Hr].
      apply elem_of_cons in Hr as [->|Hr]; [done|].
      rewrite Forall_forall in Hq. simpl. eapply leb_trans; [exact Hpq|].
      by apply Hq.
    + rewrite !(filter_cons _ q), IH.
      destruct (decide (Q q)), (decide (Q p)); simpl; by rewrite ?Hpq.
Qed.

Lemma filter_foldr_insert_item
    (Q : string * ident → Prop) `{!∀ p, Decision (Q p)} base items :
  StronglySorted key_le base →
  filter Q (foldr insert_item base items)
  = foldr (λ p acc, if decide (Q p) then insert_item p acc else acc)
          (filter Q base) items.
Proof.
  intros Hb. induction items as [|p items IH]; [done|].
  simpl. rewrite filter_insert_item by by apply foldr_insert_item_ordered.
  by rewrite IH.
Qed.

(** Pairs that the filter drops can be added to the items of a
    dictionary without a change to what the filter keeps of the sorted
    items. *)
Lemma filter_sorted_added
    (Q Q' : string * ident → Prop)
    `{!∀ p, Decision (Q p), !∀ p, Decision (Q' p)} items added :
  (∀ p, p ∈ items → (Q' p ↔ Q p)) →
  (∀ p, p ∈ added → ¬ Q' p) →
  filter Q' (sorted (items ++ added)) = filter Q (sorted items).
Proof.
  intros Hsame Hdrop. unfold sorted. rewrite foldr_app.
  rewrite (filter_foldr_insert_item Q')
    by (apply (foldr_insert_item_ordered []); constructor).
  rewrite (filter_foldr_insert_item Q) by constructor.
  assert (∀ l, (∀ q, q ∈ l → ¬ Q' q) → filter Q' l = []) as Hnil.
  { induction l as [|q l IHl]; [done|]. intros Hl.
    rewrite filter_cons, decide_False by (apply Hl; set_solver).
    apply IHl. intros; apply Hl; set_solver. }
  rewrite (Hnil (foldr insert_item [] added)).
  2: { intros q Hq. apply Hdrop. fold (sorted added) in Hq.
       by rewrite sorted_perm in Hq. }
  induction items as [|p items IH]; [done|]. simpl.
  rewrite IH by (intros; apply Hsame; set_solver).
  assert (Q' p ↔ Q p) as Hp by (apply Hsame; set_solver).
  destruct (decide (Q' p)), (decide (Q p)); tauto || done.
Qed.

End key_order.

Section collaborators.

Lemma filter_map {A B} (f : A → B) (P : B → Prop) `{!∀ y, Decision (P y)}
    (l : list A) :
  filter P (map f l) = map f (filter (λ x, P (f x)) l).
Proof.
  induction l as [|a l IH]; [done|]. simpl.
  rewrite !filter_cons, IH. by destruct (decide (P (f a))).
Qed.

(** The collaborator that changes nothing keeps the links. *)
Lemma example_compress1_same h obj indirect payload items :
  h !! obj = Some (PdfDict indirect (Some payload) items) →
  compress_obj example_compress1 h obj indirect payload items = h.
Proof.
  intros Hobj. unfold compress_obj, example_compress1. simpl.
  rewrite !app_nil_r. by apply list_insert_id.
Qed.

Lemma example_compress1_keeps_links : keeps_links example_compress1.
Proof.
  intros h obj indirect payload items _ Hobj. by rewrite example_compress1_same.
Qed.

(** So does the collaborator that adds the filter name and the length:
    the two new entries are plain scalars, and the entries that were
    there keep their places among each other. *)
Lemma example_filter_keeps_links : keeps_links example_filter.
Proof.
  intros h obj indirect payload items Hclosed Hobj.
  pose proof (lookup_lt_Some _ _ _ Hobj) as Hlt.
  unfold compress_obj, example_filter.
  destruct (get_item "/Filter" items) as [f|];
    [simpl; rewrite !app_nil_r; by rewrite list_insert_id|].
  destruct (get_item "/Length" items) as [l|];
    [simpl; rewrite !app_nil_r; by rewrite list_insert_id|].
  cbn [length map seq zip zip_with fst snd].
  set (added := [("/Filter", length h); ("/Length", S (length h))]).
  set (fresh := [Scalar false "/FlateDecode"; Scalar false _]).
  set (h' := <[obj := _]> (h ++ fresh)).
  unfold links, children. rewrite Hobj.
  assert (h' !! obj
          = Some (PdfDict indirect (Some ("x" +:+ payload)) (items ++ added)))
    as ->.
  { subst h'. apply list_lookup_insert_eq. rewrite length_app. lia. }
  cbn [children_of]. rewrite !filter_map. f_equal.
  apply filter_sorted_added.
  - intros p Hp. simpl.
    assert (p.2 < length h) as Hp2.
    { rewrite closed_spec in Hclosed. apply (Hclosed obj).
      unfold children. rewrite Hobj. simpl.
      apply list_elem_of_fmap. exists p. split; [done|]. by rewrite sorted_perm. }
    assert (is_plain h' p.2 = is_plain h p.2) as ->; [|done].
    unfold is_plain. destruct (decide (p.2 = obj)) as [->|Hne].
    + subst h'. rewrite list_lookup_insert_eq by (rewrite length_app; lia).
      by rewrite Hobj.
    + subst h'. rewrite list_lookup_insert_ne by done.
      by rewrite lookup_app_l by done.
  - intros p Hp. simpl.
    assert (is_plain h' p.2 = true) as ->; [|done].
    unfold is_plain. subst h' added fresh.
    rewrite !elem_of_cons in Hp. destruct Hp as [->|[->|Hp]]; simpl.
    + rewrite list_lookup_insert_ne by lia.
      rewrite lookup_app_r by lia. by rewrite Nat.sub_diag.
    + rewrite list_lookup_insert_ne by lia.
      rewrite lookup_app_r by lia.
      by replace (S (length h) - length h) with 1 by lia.
    + by apply elem_of_nil in Hp.
Qed.

Lemma example_contract (compress : bool) :
  compress = true → keeps_links example_filter.
Proof. intros _. apply example_filter_keeps_links. Qed.

Lemma example_filter_keeps_Size : keeps_Size example_filter.
Proof.
  intros payload items v Hv. unfold example_filter.
  by destruct (get_item "/Filter" items), (get_item "/Length" items).
Qed.

End collaborators.
(** ** The texts of the object list *)

Section blocks.
Variable compress1 :
  string → list (string * ident) →
  string * list (string * ident) * list (string * string).
Variable compress : bool.

Local Abbreviation fmt_run := (fmt_run compress1 compress).
Local Abbreviation add_run := (add_run compress1 compress).
Local Abbreviation all_run := (all_run compress1 compress).
Local Abbreviation prep := (prepared compress1 compress).
Local Abbreviation formatted_as := (formatted_as compress1 compress).
Local Abbreviation blocks_stored := (blocks_stored compress1 compress).

(** Where [compress] is not called the arena stays as it is. *)
Lemma run_untouched :
  (∀ s obj text s', fmt_run s obj text s' →
     never_compressed compress (objs s) → objs s' = objs s)
  ∧ (∀ s obj tok s', add_run s obj tok s' →
     never_compressed compress (objs s) → objs s' = objs s)
  ∧ (∀ s xs toks s', all_run s xs toks s' →
     never_compressed compress (objs s) → objs s' = objs s).
Proof.
  apply run_mutind.
  - intros self obj tokens self' _ _ IH Hnc.
    rewrite (prepared_id compress1 compress self obj) in IH by (intros; by eapply Hnc).
    by apply IH.
  - intros self obj result self' _ _ _ _ IH Hnc. simpl. by apply IH.
  - done.
  - intros self obj text self' _ _ _ IH _ Hnc. simpl. by apply IH.
  - done.
  - intros self x xs token tokens self1 self2 _ IH1 _ IH2 Hnc.
    rewrite IH2; [by apply IH1|]. by rewrite IH1.
Qed.

Lemma never_compressed_set_Size h trailer n :
  never_compressed compress h → never_compressed compress (set_Size h trailer n).
Proof.
  intros Hnc obj indirect payload items Hobj.
  assert (∀ x ind p its,
            (h ++ [Scalar false (pretty n)]) !! x = Some (PdfDict ind (Some p) its) →
            h !! x = Some (PdfDict ind (Some p) its)) as Hold.
  { intros x ind p its [Hx|[_ Hx]]%lookup_app_Some; [done|].
    by apply list_lookup_singleton_Some in Hx as [_ ?]. }
  unfold set_Size in Hobj.
  destruct ((h ++ [Scalar false (pretty n)]) !! trailer)
    as [[|ind stream its|]|] eqn:Ht;
    try (apply Hold in Hobj; by eapply Hnc).
  destruct (decide (obj = trailer)) as [->|Hne].
  - apply lookup_lt_Some in Ht as Hlt.
    rewrite list_lookup_insert_eq in Hobj by exact Hlt.
    injection Hobj as <- -> <-. apply Hold in Ht. by eapply Hnc.
  - rewrite list_lookup_insert_ne in Hobj by done.
    apply Hold in Hobj. by eapply Hnc.
Qed.

Lemma format_obj_untouched fuel s obj text s' :
  never_compressed compress (objs s) →
  format_obj compress1 compress fuel s obj = Ok (text, s') →
  objs s' = objs s.
Proof. intros Hnc H%format_obj_run. by eapply (proj1 run_untouched). Qed.

Lemma add_untouched fuel s obj tok s' :
  never_compressed compress (objs s) →
  add compress1 compress fuel s obj = Ok (tok, s') →
  objs s' = objs s.
Proof. intros Hnc H%add_run_of. by eapply (proj1 (proj2 run_untouched)). Qed.

Lemma site_mono d d' h c tok : d ⊆ d' → site d h c tok → site d' h c tok.
Proof.
  intros Hsub Hs Hind. destruct (Hs Hind) as (n & Hn & ->).
  exists n. split; [|done]. by eapply lookup_weaken.
Qed.

Lemma site_evolves d h h' c tok :
  heap_evolves h h' → site d h' c tok → site d h c tok.
Proof.
  intros Hev Hs Hind. apply Hs.
  rewrite (indirect_at_evolves h h' c Hev); [done|].
  unfold indirect_at in Hind. destruct (h !! c); [eauto|done].
Qed.

(** The tokens that [add] gives for the children: at an indirect child,
    the reference with the child's number. *)
Lemma all_run_sites s xs toks s' :
  all_run s xs toks s' → Forall2 (site (indirect_dict s') (objs s)) xs toks.
Proof.
  induction 1 as [s|s x xs token tokens s1 s2 Hadd Hall IH]; [constructor|].
  pose proof (add_run_grows _ _ _ _ _ _ Hadd) as (Hd1 & _ & _).
  pose proof (all_run_grows _ _ _ _ _ _ Hall) as (Hd2 & _ & _).
  pose proof (proj1 (proj2 (run_evolves compress1 compress)) _ _ _ _ Hadd) as Hev.
  constructor.
  - intros Hind.
    inversion Hadd as [? ? ? ? _ Hno _ _|? ? n _ Hn|? ? text s0 _ Hnone Hrun Hlt];
      subst.
    + congruence.
    + exists n. split; [|done]. eapply lookup_weaken; [exact Hn|].
      by etrans.
    + exists (length (objlist s) + 1). split; [|done].
      eapply lookup_weaken; [|exact Hd2]. simpl.
      pose proof (fmt_run_grows _ _ _ _ _ _ Hrun) as (Hd0 & _ & _).
      eapply lookup_weaken; [|exact Hd0]. simpl. apply lookup_insert_eq.
  - eapply Forall2_impl; [exact IH|]. intros c tok Hs.
    by eapply site_evolves.
Qed.

(** The arena of an instance below a call of [dump] on the arena [h0]. *)
Local Abbreviation arena_of :=
  (λ (h0 : heap) (s : FormatObjects),
     heap_evolves h0 (objs s) ∧ (never_compressed compress h0 → objs s = h0)).

Lemma arena_of_refl s : arena_of (objs s) s.
Proof. split; [apply heap_evolves_refl|done]. Qed.

Lemma arena_of_prepared h0 s x : arena_of h0 s → arena_of h0 (prep s x).
Proof.
  intros [Hev Hnc]. split.
  - eapply heap_evolves_trans; [exact Hev|apply prepared_evolves].
  - intros H. rewrite prepared_id; [by apply Hnc|].
    intros ind payload items Hx. rewrite (Hnc H) in Hx. by eapply H.
Qed.

Lemma arena_of_add h0 s x tok s' :
  add_run s x tok s' → arena_of h0 s → arena_of h0 s'.
Proof.
  intros Hrun [Hev Hnc]. split.
  - eapply heap_evolves_trans; [exact Hev|].
    apply (proj1 (proj2 (run_evolves compress1 compress)) _ _ _ _ Hrun).
  - intros H. pose proof (Hnc H) as E. rewrite <- E.
    apply (proj1 (proj2 run_untouched) _ _ _ _ Hrun). by rewrite E.
Qed.

Lemma formatted_as_mono h0 d d' x block :
  d ⊆ d' → formatted_as h0 d x block → formatted_as h0 d' x block.
Proof.
  intros Hsub (sx & sx' & tokens & Hrun & Hev & Hnc & Hd & Hb & Hs).
  exists sx, sx', tokens. split; [done|]. split; [done|]. split; [done|].
  split; [by etrans|]. split; [done|].
  eapply Forall2_impl; [exact Hs|]. intros c tok. by apply site_mono.
Qed.

(** A successful [format_obj] gives the text of its object. *)
Lemma fmt_run_formatted_as h0 s x block s' :
  fmt_run s x block s' → arena_of h0 s →
  formatted_as h0 (indirect_dict s') x block.
Proof.
  intros Hrun [Hev Hnc]. exists s, s'.
  inversion Hrun as [? ? tokens ? _ Hall]; subst.
  exists tokens. split; [done|]. split; [done|]. split; [done|].
  split; [done|]. split; [done|]. by apply all_run_sites.
Qed.

Lemma blocks_stored_mono h0 pending s s' :
  indirect_dict s ⊆ indirect_dict s' → objlist s' = objlist s →
  blocks_stored h0 pending s → blocks_stored h0 pending s'.
Proof.
  intros Hd Hl H i Hi Hp. rewrite Hl in *.
  destruct (H i Hi Hp) as (x & block & Hb & Hx & Hf).
  exists x, block. split; [done|]. split; [by eapply lookup_weaken|].
  by eapply formatted_as_mono.
Qed.

Lemma run_blocks_stored h0 :
  (∀ s obj text s', fmt_run s obj text s' →
     arena_of h0 s →
     ∀ pending, blocks_stored h0 pending s → blocks_stored h0 pending s')
  ∧ (∀ s obj tok s', add_run s obj tok s' →
     arena_of h0 s →
     ∀ pending, blocks_stored h0 pending s → blocks_stored h0 pending s')
  ∧ (∀ s xs toks s', all_run s xs toks s' →
     arena_of h0 s →
     ∀ pending, blocks_stored h0 pending s → blocks_stored h0 pending s').
Proof.
  apply run_mutind.
  - intros self obj tokens self' _ _ IH Hev pending H.
    destruct (prepared_fields compress1 compress self obj) as (Hd & Hl & _).
    apply IH.
    + by apply arena_of_prepared.
    + eapply blocks_stored_mono; [| |exact H]; [by rewrite Hd|done].
  - intros self obj result self' _ _ _ _ IH Hev pending H.
    eapply (blocks_stored_mono _ _ self'); [done|done|].
    apply IH; [done|]. by eapply blocks_stored_mono; [| |exact H].
  - done.
  - intros self obj text self' _ Hnone Hrun IH Hlt Hev pending H.
    pose proof (fmt_run_grows _ _ _ _ _ _ Hrun) as (Hd & Hl & _).
    intros i Hi Hp. simpl in Hi. rewrite length_insert in Hi. simpl.
    destruct (decide (i = length (objlist self))) as [->|Hne].
    + exists obj, text.
      rewrite list_lookup_insert_eq by done. split; [done|]. split.
      * eapply lookup_weaken; [|exact Hd]. simpl.
        rewrite lookup_insert_eq. f_equal. lia.
      * by apply (fmt_run_formatted_as h0 (reserved self obj)).
    + rewrite list_lookup_insert_ne by done.
      apply (IH Hev (pending ∪ {[length (objlist self)]})); [|done|].
      * intros j Hj Hjp. simpl in Hj. rewrite length_app in Hj. simpl in Hj.
        apply not_elem_of_union in Hjp as [Hjp Hjn].
        apply not_elem_of_singleton in Hjn.
        destruct (H j) as (x & block & Hb & Hx & Hr); [lia|done|].
        exists x, block. simpl.
        split; [by apply lookup_app_l_Some|]. split.
        -- rewrite lookup_insert_ne; [done|]. congruence.
        -- eapply formatted_as_mono; [|exact Hr]. by apply insert_subseteq.
      * apply not_elem_of_union. split; [done|].
        by apply not_elem_of_singleton.
  - done.
  - intros self x xs token tokens self1 self2 Hadd IH1 _ IH2 Hev pending H.
    apply IH2; [|by apply IH1]. by eapply arena_of_add.
Qed.

(** After the two passes of [dump] every slot holds the text of its
    object, formatted in the first pass on the arena of the call or in
    the second on the arena with the [Size] set, and the trailer text
    has its references. *)
Lemma dump_format_blocks limit trailer h text final :
  dump_format compress1 limit trailer compress h = Ok (text, final) →
  ∃ text1 s1 tokens,
    format_obj compress1 compress limit (fresh_instance h) trailer = Ok (text1, s1)
    ∧ (∀ i, i < length (objlist final) →
         ∃ x block,
           objlist final !! i = Some (Some block)
           ∧ indirect_dict final !! x = Some (S i)
           ∧ (formatted_as h (indirect_dict final) x block
              ∨ formatted_as (objs (sized s1 trailer)) (indirect_dict final) x block))
    ∧ text = rendered (objs (prep (sized s1 trailer) trailer)) (objs final)
               trailer tokens
    ∧ Forall2 (site (indirect_dict final) (objs (prep (sized s1 trailer) trailer)))
              (children (objs (prep (sized s1 trailer) trailer)) trailer) tokens.
Proof.
  intros H.
  apply dump_format_inv in H as (text1 & s1 & H1 & H2).
  pose proof (format_obj_run _ _ _ _ _ _ _ H1) as R1.
  pose proof (format_obj_run _ _ _ _ _ _ _ H2) as R2.
  assert (∃ tokens,
            text = rendered (objs (prep (sized s1 trailer) trailer)) (objs final)
                     trailer tokens
            ∧ Forall2 (site (indirect_dict final)
                         (objs (prep (sized s1 trailer) trailer)))
                (children (objs (prep (sized s1 trailer) trailer)) trailer) tokens)
    as (tokens & Htext & Hsites).
  { inversion R2 as [? ? tokens ? _ Hall]; subst.
    exists tokens. split; [done|by apply all_run_sites]. }
  exists text1, s1, tokens. split; [done|].
  split; [|split; [done|done]].
  assert (blocks_stored h ∅ s1) as Hs1.
  { apply (proj1 (run_blocks_stored h) _ _ _ _ R1);
      [apply (arena_of_refl (fresh_instance h))|].
    intros j Hj. simpl in Hj. lia. }
  pose proof (fmt_run_grows _ _ _ _ _ _ R2) as (Hd & Hl & _). simpl in Hd, Hl.
  set (pending := list_to_set (seq 0 (length (objlist s1))) : gset nat).
  assert (blocks_stored (objs (sized s1 trailer)) pending final) as Hs2.
  { apply (proj1 (run_blocks_stored (objs (sized s1 trailer))) _ _ _ _ R2);
      [apply arena_of_refl|].
    intros j Hj Hp. destruct Hp. subst pending.
    apply elem_of_list_to_set, elem_of_seq. simpl in Hj. lia. }
  intros i Hi. destruct (decide (i < length (objlist s1))) as [Hlt|Hge].
  - destruct (Hs1 i Hlt) as (x & block & Hb & Hx & Hf); [set_solver|].
    exists x, block. split; [by eapply prefix_lookup_Some|].
    split; [by eapply lookup_weaken|]. left. by eapply formatted_as_mono.
  - destruct (Hs2 i Hi) as (x & block & Hb & Hx & Hf).
    { subst pending. rewrite elem_of_list_to_set, elem_of_seq. lia. }
    exists x, block. split; [done|]. split; [done|]. by right.
Qed.

End blocks.
(** ** The bytes of the file *)

Section layout.

(** The block of an entry, as the format string gives it. *)
Lemma objstr_text i x :
  let lf := String "010"%char "" in
  objstr i x
  = pretty (i + 1) +:+ " 0 obj" +:+ lf
    +:+ match x with Some text => text | None => "None" end
    +:+ lf +:+ "endobj" +:+ lf.
Proof. by destruct x. Qed.

Lemma header_text version :
  let lf := String "010"%char "" in
  header version
  = "%PDF-" +:+ version +:+ lf +:+ "%"
    +:+ String "226"%char (String "227"%char (String "207"%char (String "211"%char "")))
    +:+ lf.
Proof. done. Qed.

(** The line of the table for an object in use. *)
Lemma xref_line_text off :
  let crlf := String "013"%char (String "010"%char "") in
  xref_line (off, 0, "n")
  = String.concat "" (replicate (10 - String.length (pretty off)) "0")
    +:+ pretty off +:+ " 00000 n" +:+ crlf.
Proof.
  unfold xref_line, zero_pad, join. simpl. by rewrite app_assoc_str.
Qed.

Lemma xref_line_head :
  let crlf := String "013"%char (String "010"%char "") in
  xref_line (0, 65535, "f") = "0000000000 65535 f" +:+ crlf.
Proof. done. Qed.

Lemma imap_snoc {A B} (f : nat → A → B) (l : list A) x :
  imap f (l ++ [x]) = imap f l ++ [f (length l) x].
Proof.
  rewrite imap_app. simpl. by rewrite Nat.add_0_r.
Qed.

Lemma write_body_blocks (l : list (option string)) :
  map (λ ix, objstr ix.1 ix.2) (enumerate l) = imap objstr l.
Proof.
  induction l as [|x l IH] using rev_ind; [done|].
  by rewrite enumerate_snoc, map_app, imap_snoc, IH.
Qed.

(** The bytes before the block of entry [i] are the file of the first [i]
    entries. *)
Lemma write_body_split version l i x :
  l !! i = Some x →
  ∃ after,
    file (write_body version l)
    = file (write_body version (take i l)) +:+ objstr i x +:+ after.
Proof.
  revert i x. induction l as [|y l IH] using rev_ind; intros i x Hi; [done|].
  rewrite write_body_snoc. simpl.
  apply lookup_app_Some in Hi as [Hi|[Hge Hi]].
  - destruct (IH _ _ Hi) as (after & Hf).
    exists (after +:+ objstr (length l) y).
    rewrite take_app_le by (apply lookup_lt_Some in Hi; lia).
    by rewrite Hf, !app_assoc_str.
  - apply list_lookup_singleton_Some in Hi as [Hi <-].
    assert (i = length l) as -> by lia.
    exists "". rewrite take_app_length. f_equal.
    clear. induction (objstr (length l) y) as [|a s IHs]; [done|].
    by rewrite app_cons, <- IHs.
Qed.

(** The recorded offsets: for each entry, the length of the file of the
    entries before it. *)
Lemma write_body_offsets version l :
  offsets (write_body version l)
  = (0, 65535, "f")
    :: map (λ i, (String.length (file (write_body version (take i l))), 0, "n"))
           (seq 0 (length l)).
Proof.
  induction l as [|x l IH] using rev_ind; [done|].
  rewrite write_body_snoc. cbn [write_obj offsets].
  rewrite IH, write_body_offset, length_app, seq_app, map_app. simpl.
  rewrite take_app_length. f_equal. f_equal.
  apply map_ext_in. intros i Hi%in_seq.
  by rewrite take_app_le by lia.
Qed.

End layout.
Section table.

(** C6: the file that [dump] writes from an object list and a trailer
    text, byte by byte.  The block of object [i + 1] comes after the
    header and the blocks of the [i] objects before it; the line of the
    table for object [i + 1] holds, on ten digits, the number of these
    bytes, which is the offset recorded for it; the number after
    [startxref] is the number of bytes of the header and all the blocks,
    after which the [xref] keyword comes. *)
Theorem xref_offsets_exact version (objlist : list (option string)) trailer_text :
  let lf := String "010"%char "" in
  let crlf := String "013"%char lf in
  let head :=
    "%PDF-" +:+ version +:+ lf +:+ "%"
    +:+ String "226"%char (String "227"%char (String "207"%char (String "211"%char "")))
    +:+ lf in
  let block (i : nat) (x : option string) :=
    pretty (i + 1) +:+ " 0 obj" +:+ lf
    +:+ match x with Some text => text | None => "None" end
    +:+ lf +:+ "endobj" +:+ lf in
  let before (i : nat) := head +:+ String.concat "" (imap block (take i objlist)) in
  let line (i : nat) :=
    let digits := pretty (String.length (before i)) in
    String.concat "" (replicate (10 - String.length digits) "0")
    +:+ digits +:+ " 00000 n" +:+ crlf in
  let body := before (length objlist) in
  let out := write_xref (write_body version objlist) trailer_text in
  out = body
        +:+ ("xref" +:+ lf +:+ "0 " +:+ pretty (S (length objlist)) +:+ lf)
        +:+ String.concat ""
              (("0000000000 65535 f" +:+ crlf) :: map line (seq 0 (length objlist)))
        +:+ ("trailer" +:+ lf +:+ lf +:+ trailer_text +:+ lf
             +:+ "startxref" +:+ lf +:+ pretty (String.length body) +:+ lf
             +:+ "%%EOF" +:+ lf)
  ∧ (∀ i x, objlist !! i = Some x →
       ∃ after, out = before i +:+ block i x +:+ after)
  ∧ offsets (write_body version objlist)
    = (0, 65535, "f")
      :: map (λ i, (String.length (before i), 0, "n")) (seq 0 (length objlist)).
Proof.
  intros lf crlf head block before line body out.
  assert (Hfile : ∀ l, file (write_body version l)
                       = head +:+ String.concat "" (imap block l)).
  { intros l. by rewrite write_body_file, write_body_blocks. }
  assert (Hoffs : offsets (write_body version objlist)
                  = (0, 65535, "f")
                    :: map (λ i, (String.length (before i), 0, "n"))
                         (seq 0 (length objlist))).
  { rewrite write_body_offsets. f_equal. apply map_ext. intros i.
    by rewrite Hfile. }
  split; [|split; [|exact Hoffs]].
  - subst out. unfold write_xref.
    rewrite write_body_offsets_length, write_body_offset, Hoffs, Hfile.
    subst body before. cbn beta. rewrite firstn_all.
    f_equal. f_equal. f_equal.
    cbn [map]. rewrite map_map. unfold join. f_equal. f_equal.
    apply map_ext. intros i. apply xref_line_text.
  - intros i x Hi.
    destruct (write_body_split version objlist i x Hi) as [after Hafter].
    exists (after +:+
      (("xref" +:+ nl +:+ "0 " +:+ pretty (length (offsets (write_body version objlist)))
        +:+ nl)
       +:+ join "" (map xref_line (offsets (write_body version objlist)))
       +:+ ("trailer" +:+ nl +:+ nl +:+ trailer_text +:+ nl +:+ "startxref" +:+ nl
            +:+ pretty (offset (write_body version objlist)) +:+ nl
            +:+ "%%EOF" +:+ nl))).
    subst out. unfold write_xref. rewrite Hafter, Hfile.
    subst before. cbn beta. by rewrite !app_assoc_str.
Qed.

End table.
Section once.
Variable compress1 :
  string → list (string * ident) →
  string * list (string * ident) * list (string * string).
Variable compress : bool.


End once.
(** ** The claims about the numbering *)

Section numbering_claims.
Variable compress1 :
  string → list (string * ident) →
  string * list (string * ident) * list (string * string).
Variable compress : bool.
Hypothesis contract : compress = true → keeps_links compress1.

Local Abbreviation fmt_run := (fmt_run compress1 compress).
Local Abbreviation add_run := (add_run compress1 compress).
Local Abbreviation all_run := (all_run compress1 compress).
Local Abbreviation prep := (prepared compress1 compress).

(** C1: a successful [dump], whatever nesting the interpreter allows,
    numbers exactly the indirect objects that are reachable from the
    trailer along one reference or more, each once; the numbers are 1,
    2, ..., K without gap or reuse, K their count and the length of the
    object list, in the order in which the pre-order depth-first walk
    from the trailer discovers them. *)
Theorem numbering_in_discovery_order limit h trailer text final :
  closed h →
  dump_format compress1 limit trailer compress h = Ok (text, final) →
  let order := discover h (enough_fuel h) [] trailer in
  NoDup order
  ∧ (∀ x, x ∈ order ↔ indirect_at h x = true ∧ reachable h trailer x)
  ∧ length (objlist final) = length order
  ∧ (∀ x n, indirect_dict final !! x = Some n
            ↔ ∃ k, n = S k ∧ order !! k = Some x).
Proof.
  intros Hclosed Hdump.
  apply (dump_format_enough compress1 compress contract) in Hdump; [|done].
  by apply (dump_format_discovery compress1 compress contract (enough_fuel h)
              h trailer text final).
Qed.


End numbering_claims.
(** ** The claims about termination *)

Section termination_claims.
Variable compress1 :
  string → list (string * ident) →
  string * list (string * ident) * list (string * string).
Variable compress : bool.
Hypothesis contract : compress = true → keeps_links compress1.

(** What the nesting allowed changes: nothing, or the call ends with the
    interpreter's error. *)
Lemma dump_format_limit limit h trailer :
  closed h → trailer < length h →
  dump_format compress1 limit trailer compress h
  = dump_format compress1 (enough_fuel h) trailer compress h
  ∨ dump_format compress1 limit trailer compress h = Raise RecursionLimit.
Proof.
  intros Hclosed Ht.
  pose proof (dump_format_ends_well compress1 compress contract (enough_fuel h)
                h trailer Hclosed Ht (le_n _)) as Hwell.
  destruct (decide (enough_fuel h ≤ limit)) as [Hle|Hgt].
  - left. apply dump_format_more; [done|].
    destruct Hwell as [[a Ha]|[x Hx]]; [by rewrite Ha|by rewrite Hx].
  - assert (dump_format compress1 limit trailer compress h = Raise RecursionLimit
            ∨ dump_format compress1 limit trailer compress h ≠ Raise RecursionLimit)
      as [E|E].
    { destruct (dump_format compress1 limit trailer compress h) as [a|[]];
        (by left) || by right. }
    { by right. }
    left. symmetry. apply dump_format_more; [lia|done].
Qed.

(** C7, as the code has it.  The recursion of [add] and [format_obj] has
    no work list, so that on a closed arena [dump] ends in one of three
    ways: with a file, with the failed assertion of [add], or, where the
    graph nests deeper than the interpreter allows, with the
    interpreter's error.  With the nesting allowed it gives a file when
    every cycle through an object [c] that is not indirect passes
    through an indirect object, other than the trailer, that lies on
    every walk from the trailer to [c]: that object is in the table
    when [c] is inlined, and [add] returns the reference of an object it
    finds in the table without a look at its content.  It fails the
    assertion when a cycle made of objects that are not indirect is
    within reach of the trailer. *)
Theorem serialization_terminates limit h trailer version :
  closed h → trailer < length h →
  ends (dump compress1 limit trailer version compress h)
  ∧ (enough_fuel h ≤ limit →
     ends_well (dump compress1 limit trailer version compress h))
  ∧ (guarded h trailer →
     (enough_fuel h ≤ limit →
      ∃ out h', dump compress1 limit trailer version compress h = Ok (out, h'))
     ∧ ((∃ out h', dump compress1 limit trailer version compress h = Ok (out, h'))
        ∨ dump compress1 limit trailer version compress h = Raise RecursionLimit))
  ∧ (∀ fuel s obj n,
       indirect_at (objs s) obj = true → indirect_dict s !! obj = Some n →
       add compress1 compress fuel s obj = Ok (pretty n +:+ " 0 R", s))
  ∧ (∀ c q,
       rtc (refers h) trailer c → q ≠ [] → walk (inline_link h) c q c →
       (enough_fuel h ≤ limit →
        ∃ x, dump compress1 limit trailer version compress h
             = Raise (CircularReference x))
       ∧ ((∃ x, dump compress1 limit trailer version compress h
                = Raise (CircularReference x))
          ∨ dump compress1 limit trailer version compress h = Raise RecursionLimit)).
Proof.
  intros Hclosed Ht.
  assert (Hguarded : ∀ lim, enough_fuel h ≤ lim → guarded h trailer →
            ∃ out h', dump compress1 lim trailer version compress h = Ok (out, h')).
  { intros lim Hlim Hguard.
    destruct (dump_format_guarded compress1 compress contract lim h trailer
                Hclosed Ht Hlim Hguard) as (text & final & H).
    unfold dump. rewrite H. simpl. eauto. }
  assert (Hcycle : ∀ lim c q, enough_fuel h ≤ lim →
            rtc (refers h) trailer c → q ≠ [] → walk (inline_link h) c q c →
            ∃ x, dump compress1 lim trailer version compress h
                 = Raise (CircularReference x)).
  { intros lim c q Hlim Hreach Hq Hwalk.
    destruct (dump_format_inline_cycle compress1 compress contract lim h trailer c q
                Hclosed Ht Hlim Hreach Hq Hwalk) as [x Hx].
    exists x. unfold dump. by rewrite Hx. }
  assert (Hlimit : dump compress1 limit trailer version compress h
                   = dump compress1 (enough_fuel h) trailer version compress h
                   ∨ dump compress1 limit trailer version compress h
                     = Raise RecursionLimit).
  { unfold dump.
    destruct (dump_format_limit limit h trailer Hclosed Ht) as [-> | ->];
      [by left|by right]. }
  split; [|split; [|split; [|split]]].
  - unfold dump.
    destruct (dump_format_ends compress1 compress contract limit h trailer Hclosed Ht)
      as [[[[text final] H]|[x Hx]]|H]; rewrite ?H, ?Hx; simpl.
    + left. left. by eexists.
    + left. right. by eexists.
    + by right.
  - intros Hlim. unfold dump.
    destruct (dump_format_ends_well compress1 compress contract limit h trailer
                Hclosed Ht Hlim) as [[[text final] H]|[x Hx]]; rewrite ?H, ?Hx; simpl.
    + left. by eexists.
    + right. by eexists.
  - intros Hguard. split; [intros Hlim; by apply Hguarded|].
    destruct Hlimit as [-> | ->]; [left|by right].
    by apply Hguarded.
  - intros fuel s obj n. apply add_known.
  - intros c q Hreach Hq Hwalk. split; [intros Hlim; by eapply Hcycle|].
    destruct Hlimit as [-> | ->]; [left|by right].
    by eapply Hcycle.
Qed.

End termination_claims.
(** ** The claims about the trailer *)

Section trailer_claims.
Variable compress1 :
  string → list (string * ident) →
  string * list (string * ident) * list (string * string).
Variable compress : bool.
Hypothesis contract : compress = true → keeps_links compress1.

Local Abbreviation fmt_run := (fmt_run compress1 compress).
Local Abbreviation add_run := (add_run compress1 compress).
Local Abbreviation all_run := (all_run compress1 compress).
Local Abbreviation prep := (prepared compress1 compress).
Local Abbreviation calls := (calls compress1 compress).

Lemma is_plain_before h h' x :
  heap_evolves h h' → is_plain h' x = false → is_plain h x = false.
Proof.
  intros Hev Hx. destruct (is_plain h x) eqn:Hp; [|done].
  by rewrite (is_plain_evolves h h' x Hev Hp) in Hx.
Qed.

Section reach.
Variable h0 : heap.
Variable t : ident.

(** The calls of [format_obj] on an object [t] that is no plain scalar:
    they are on objects that the links lead to. *)
Lemma all_calls_reach fuel :
  (∀ s obj, within h0 (objs s) →
     is_plain (objs s) t = false → t < length (objs s) →
     t ∈ calls fuel s obj →
     t = obj ∨ ∃ c, c ∈ links (objs (prep s obj)) obj ∧ rtc (link h0) c t) →
  ∀ xs s, within h0 (objs s) →
    is_plain (objs s) t = false → t < length (objs s) →
    t ∈ all_calls (calls fuel) (add compress1 compress fuel) s xs →
    ∃ c, c ∈ xs ∧ is_plain (objs s) c = false ∧ rtc (link h0) c t.
Proof.
  intros IHfuel xs. induction xs as [|x xs IH]; intros s Hw Hp Hlt Hin.
  - by apply elem_of_nil in Hin.
  - simpl in Hin. apply elem_of_app in Hin as [Hin|Hin].
    + exists x. split; [by left|].
      unfold add_calls in Hin.
      destruct (objs s !! x) as [n|] eqn:Hn; [|by apply elem_of_nil in Hin].
      assert (∃ s0, objs s0 = objs s ∧ t ∈ calls fuel s0 x) as (s0 & Hs0 & Hcall).
      { destruct (negb (is_indirect n)).
        - case_decide; [by apply elem_of_nil in Hin|].
          by exists (set_visited s ({[x]} ∪ visited s)).
        - destruct (indirect_dict s !! x); [by apply elem_of_nil in Hin|].
          by exists (reserved s x). }
      destruct (IHfuel s0 x) as [->|(c & Hc & Hct)];
        [by rewrite Hs0..|done|by split|].
      pose proof (prepared_within compress1 compress contract h0 s0 x) as Hw0.
      rewrite Hs0 in Hw0. specialize (Hw0 Hw).
      split.
      * apply not_plain_of_link in Hc.
        apply (is_plain_before _ _ x (prepared_evolves compress1 compress s0 x))
          in Hc.
        by rewrite Hs0 in Hc.
      * eapply rtc_l; [|exact Hct]. by apply Hw0.
    + destruct (add compress1 compress fuel s x) as [[tok s1]|e] eqn:Hadd;
        [|by apply elem_of_nil in Hin].
      pose proof (add_run_of _ _ _ _ _ _ _ Hadd) as Hrun.
      pose proof (proj1 (proj2 (run_evolves compress1 compress)) _ _ _ _ Hrun) as Hev.
      pose proof (proj1 (proj2 (run_within compress1 compress contract h0))
                    _ _ _ _ Hrun Hw) as Hw1.
      pose proof (heap_evolves_length _ _ Hev) as Hlen.
      destruct (IH s1 Hw1) as (c & Hc & Hpc & Hct); [| |done|].
      * by rewrite (is_plain_stable _ _ t Hev).
      * lia.
      * exists c. split; [by right|]. split; [|done].
        by eapply is_plain_before.
Qed.

Lemma calls_reach fuel :
  ∀ s obj, within h0 (objs s) →
    is_plain (objs s) t = false → t < length (objs s) →
    t ∈ calls fuel s obj →
    t = obj ∨ ∃ c, c ∈ links (objs (prep s obj)) obj ∧ rtc (link h0) c t.
Proof.
  induction fuel as [|fuel IH]; intros s obj Hw Hp Hlt Hin.
  - by apply elem_of_nil in Hin.
  - simpl in Hin. apply elem_of_cons in Hin as [->|Hin]; [by left|right].
    pose proof (prepared_evolves compress1 compress s obj) as Hev.
    destruct (all_calls_reach fuel IH (children (objs (prep s obj)) obj)
                (prep s obj)) as (c & Hc & Hpc & Hct).
    + by apply (prepared_within compress1 compress contract).
    + by rewrite (is_plain_stable _ _ t Hev).
    + pose proof (heap_evolves_length _ _ Hev). lia.
    + exact Hin.
    + exists c. split; [|done]. by apply children_links.
Qed.

(** Below a call of [format_obj] on [t] there is no other call on [t],
    unless a reference leads back to [t]. *)
Lemma calls_once fuel s :
  within h0 (objs s) → t < length (objs s) →
  ¬ reachable h0 t t →
  ∃ l, calls (S fuel) s t = t :: l ∧ t ∉ l.
Proof.
  intros Hw Hlt Hloop. eexists. split; [reflexivity|].
  intros Hin.
  destruct (is_plain (objs s) t) eqn:Hp.
  { unfold is_plain in Hp.
    destruct (objs s !! t) as [[| |[] text]|] eqn:Hn; try done.
    rewrite prepared_id in Hin by (intros ???; congruence).
    unfold children in Hin. rewrite Hn in Hin. by apply elem_of_nil in Hin. }
  pose proof (prepared_evolves compress1 compress s t) as Hev.
  destruct (all_calls_reach fuel (calls_reach fuel)
              (children (objs (prep s t)) t) (prep s t)) as (c & Hc & Hpc & Hct).
  - by apply (prepared_within compress1 compress contract).
  - by rewrite (is_plain_stable _ _ t Hev).
  - pose proof (heap_evolves_length _ _ Hev). lia.
  - exact Hin.
  - apply Hloop, tc_link_reachable.
    eapply tc_rtc_r; [|exact Hct]. apply tc_once.
    apply (prepared_within compress1 compress contract h0 s t Hw).
    by apply children_links.
Qed.

End reach.

(** C10, as the code has it: [dump] formats the trailer with [format_obj]
    itself, in both passes.  The trailer gets a number exactly when it
    is indirect and a reference leads back to it: [add] then treats it
    like any object.  Otherwise it has no number, and every block of the
    body belongs to a numbered object other than the trailer; the table
    of the file has one entry per block besides the head.  When no
    reference leads back to the trailer, [format_obj] is called on it in
    each pass once, by [dump]: no text of the file has the text of the
    trailer but the one after the [trailer] keyword. *)
Theorem trailer_not_numbered limit h trailer version text final :
  closed h →
  dump_format compress1 limit trailer compress h = Ok (text, final) →
  (∃ text1 s1,
     format_obj compress1 compress limit (fresh_instance h) trailer
     = Ok (text1, s1)
     ∧ format_obj compress1 compress limit (sized s1 trailer) trailer
       = Ok (text, final)
     ∧ (¬ reachable h trailer trailer →
        ∃ l1 l2,
          calls limit (fresh_instance h) trailer = trailer :: l1
          ∧ calls limit (sized s1 trailer) trailer = trailer :: l2
          ∧ trailer ∉ l1 ∧ trailer ∉ l2))
  ∧ (is_Some (indirect_dict final !! trailer)
     ↔ indirect_at h trailer = true ∧ reachable h trailer trailer)
  ∧ (indirect_at h trailer = false ∨ ¬ reachable h trailer trailer →
     indirect_dict final !! trailer = None
     ∧ ∀ n, 1 ≤ n ≤ length (objlist final) →
            ∃ x, x ≠ trailer ∧ indirect_dict final !! x = Some n)
  ∧ length (offsets (write_body version (objlist final)))
    = S (length (objlist final)).
Proof.
  intros Hclosed Hdump.
  destruct (dump_format_inv _ _ _ _ _ _ _ Hdump) as (text1 & s1 & H1 & H2).
  pose proof (dump_format_enough compress1 compress contract _ _ _ _ Hclosed Hdump)
    as Henough.
  destruct (dump_format_discovery compress1 compress contract (enough_fuel h)
              h trailer text final Hclosed Henough) as (Hnd & Hmem & Hlen & Hnum).
  set (order := discover h (enough_fuel h) [] trailer) in *.
  assert (numbered final order) as Hnumf by (split; [done|exact Hnum]).
  assert (Hiff : is_Some (indirect_dict final !! trailer)
                 ↔ indirect_at h trailer = true ∧ reachable h trailer trailer).
  { rewrite <- (numbered_seen final order trailer Hnumf). apply Hmem. }
  split; [|split; [exact Hiff|split]].
  - exists text1, s1. split; [done|]. split; [done|].
    intros Hloop.
    pose proof (format_obj_run _ _ _ _ _ _ _ H1) as R1.
    pose proof (proj1 (run_evolves compress1 compress) _ _ _ _ R1) as Hev.
    pose proof (static_refl h Hclosed) as Hst.
    pose proof (proj1 (run_static compress1 compress contract h) _ _ _ _ R1 Hst)
      as Hst1.
    assert (trailer < length h) as Ht.
    { inversion R1 as [? ? ? ? Hsome _]; subst. by apply lookup_lt_is_Some. }
    pose proof (heap_evolves_length _ _ Hev) as Hlen1. simpl in Hev, Hlen1.
    destruct limit as [|fuel]; [done|].
    destruct (calls_once h trailer fuel (fresh_instance h)) as (l1 & Hl1 & Hn1);
      [by apply static_within|done|done|].
    destruct (calls_once h trailer fuel (sized s1 trailer)) as (l2 & Hl2 & Hn2);
      [| |done|].
    + simpl. by apply set_Size_within, static_within.
    + simpl. rewrite set_Size_length. lia.
    + by exists l1, l2.
  - intros Hno.
    assert (indirect_dict final !! trailer = None) as Hnone.
    { destruct (indirect_dict final !! trailer) as [n|] eqn:Hn; [|done].
      exfalso. destruct (proj1 Hiff) as [Hi Hr]; [by eexists|].
      destruct Hno as [Hno|Hno]; [congruence|done]. }
    split; [done|]. intros n Hn.
    destruct (numbered_surj final _ n Hnumf Hn) as [x Hx].
    exists x. split; [|done]. intros ->. congruence.
  - apply write_body_offsets_length.
Qed.

End trailer_claims.

(** ** Instances *)

Lemma doc_arena_closed : closed doc_arena.
Proof. unfold closed, doc_arena. repeat constructor; simpl; lia. Qed.

(** The references of the one-page document. *)
Lemma doc_arena_refers z c :
  refers doc_arena z c →
  (z, c) ∈ [(1, 0); (2, 3); (3, 10); (3, 6); (3, 0); (6, 5); (6, 2); (6, 4);
            (8, 6); (8, 7); (9, 8)].
Proof.
  unfold refers, children.
  do 11 (destruct z as [|z]; [simpl; set_solver|]).
  simpl. set_solver.
Qed.

(** In the one-page document the page array is the one object on a cycle
    that is not indirect, and the Pages node guards it. *)
Lemma doc_arena_guarded : guarded doc_arena 9.
Proof.
  intros c p Hind Hp Hcycle.
  assert (c = 2) as ->.
  { destruct (walk_pred _ _ _ _ Hcycle Hp) as (z & Hz%doc_arena_refers & _).
    inversion Hcycle as [|? y ? ? Hcy%doc_arena_refers _]; subst; [done|].
    set_solver. }
  exists 6. split; [|split; [done|split; [done|]]].
  - destruct (walk_pred _ _ _ _ Hcycle Hp) as (z & Hz%doc_arena_refers & Hzp).
    assert (z = 6) as -> by set_solver. by destruct Hzp.
  - intros q Hq. assert (q ≠ []) as Hne by (intros ->; inversion Hq).
    destruct (walk_pred _ _ _ _ Hq Hne) as (z & Hz%doc_arena_refers & Hzq).
    assert (z = 6) as -> by set_solver. by destruct Hzq.
Qed.

Lemma tc_pred {A} (R : relation A) x y : tc R x y → ∃ z, R z y.
Proof. induction 1; eauto. Qed.

(** C1 at work on the one-page document, with compression on and a
    collaborator that adds the filter name and the length to the content
    stream: Catalog, Pages node, page and content stream are discovered
    in this order and numbered 1 to 4. *)
Lemma numbering_in_discovery_order_witness :
  closed doc_arena
  ∧ discover doc_arena (enough_fuel doc_arena) [] 9 = [8; 6; 3; 10]
  ∧ ∃ text final,
      dump_format example_filter 1000 9 true doc_arena = Ok (text, final)
      ∧ length (objlist final) = 4
      ∧ indirect_dict final !! 10 = Some 4
      ∧ indirect_at doc_arena 10 = true ∧ reachable doc_arena 9 10.
Proof.
  split; [exact doc_arena_closed|]. split; [vm_compute; reflexivity|].
  destruct (dump_format example_filter 1000 9 true doc_arena)
    as [[text final]|e] eqn:Hd; [|vm_compute in Hd; discriminate].
  exists text, final. split; [reflexivity|].
  destruct (numbering_in_discovery_order example_filter true
              (example_contract true) 1000 doc_arena 9 text final
              doc_arena_closed Hd)
    as (Hnodup & Hmem & Hlen & Hnum).
  replace (discover doc_arena (enough_fuel doc_arena) [] 9) with [8; 6; 3; 10]
    in * by (vm_compute; reflexivity).
  split; [exact Hlen|]. split.
  - apply Hnum. exists 3. split; reflexivity.
  - apply Hmem. apply list_elem_of_In. simpl. tauto.
Defined.


Lemma stream_trailer_arena_closed : closed stream_trailer_arena.
Proof. unfold closed, stream_trailer_arena. repeat constructor; simpl; lia. Qed.


(** C7 at work: the one-page document, with its cycle from the page back
    to the Pages node, is written. *)
Lemma serialization_terminates_witness :
  closed doc_arena ∧ 9 < length doc_arena ∧ guarded doc_arena 9
  ∧ enough_fuel doc_arena ≤ 1000
  ∧ ∃ out h', dump example_filter 1000 9 "1.3" true doc_arena = Ok (out, h').
Proof.
  assert (9 < length doc_arena) as Ht by (simpl; lia).
  assert (enough_fuel doc_arena ≤ 1000) as Hlimit by (vm_compute; lia).
  split; [exact doc_arena_closed|]. split; [exact Ht|].
  split; [exact doc_arena_guarded|]. split; [exact Hlimit|].
  exact (proj1 (proj1 (proj2 (proj2
           (serialization_terminates example_filter true (example_contract true)
              1000 doc_arena 9 "1.3" doc_arena_closed Ht)))
           doc_arena_guarded) Hlimit).
Defined.

Lemma ring_arena_refers z c :
  refers ring_arena z c → (z, c) ∈ [(0, 1); (1, 2); (2, 1)].
Proof.
  unfold refers, children.
  do 3 (destruct z as [|z]; [simpl; set_solver|]).
  simpl. set_solver.
Qed.

(** C7 fails as stated: the only cycle of the arena, from [A] to the
    indirect [B] and back, passes through an indirect object, and [dump]
    fails the assertion on [A], which is in the guard set when [B], met
    inside [A], is formatted. *)
Lemma cycle_through_indirect_counterexample :
  closed ring_arena
  ∧ cycles_through_indirect ring_arena
  ∧ dump example_filter 1000 0 "1.3" true ring_arena
    = Raise (CircularReference 1).
Proof.
  split; [unfold closed, ring_arena; repeat constructor; simpl; lia|].
  split; [|vm_compute; reflexivity].
  intros c p Hp Hcycle. exists 2. split; [|reflexivity].
  destruct (walk_pred _ _ _ _ Hcycle Hp) as (z & Hz%ring_arena_refers & _).
  assert (c = 1 ∨ c = 2) as [->| ->].
  { apply list_elem_of_In in Hz. simpl in Hz.
    destruct Hz as [[= _ <-]|[[= _ <-]|[[= _ <-]|[]]]]; auto. }
  - inversion Hcycle as [|? y ? ? Hcy%ring_arena_refers _]; subst; [done|].
    assert (y = 2) as ->.
    { apply list_elem_of_In in Hcy. simpl in Hcy.
      destruct Hcy as [[=]|[[= <-]|[[=]|[]]]]. reflexivity. }
    apply list_elem_of_here.
  - destruct (walk_last _ _ _ _ Hcycle Hp) as [p' ->].
    apply elem_of_app. right. apply list_elem_of_singleton. reflexivity.
Qed.

(** C10 at work: nothing refers to the trailer of the one-page document;
    the trailer gets no number, and [format_obj] is called on it by
    [dump] only. *)
Lemma trailer_not_numbered_witness :
  closed doc_arena ∧ ¬ reachable doc_arena 9 9
  ∧ ∃ text final,
      dump_format example_filter 1000 9 true doc_arena = Ok (text, final)
      ∧ indirect_dict final !! 9 = None
      ∧ ∃ l1, calls example_filter true 1000 (fresh_instance doc_arena) 9 = 9 :: l1
              ∧ 9 ∉ l1.
Proof.
  assert (¬ reachable doc_arena 9 9) as Hloop.
  { intros (z & Hz%doc_arena_refers)%tc_pred. set_solver. }
  split; [exact doc_arena_closed|]. split; [exact Hloop|].
  destruct (dump_format example_filter 1000 9 true doc_arena)
    as [[text final]|e] eqn:Hd; [|vm_compute in Hd; discriminate].
  exists text, final. split; [reflexivity|].
  destruct (trailer_not_numbered example_filter true (example_contract true)
              1000 doc_arena 9 "1.3" text final doc_arena_closed Hd)
    as ((text1 & s1 & _ & _ & Honce) & _ & Hnone & _).
  split; [exact (proj1 (Hnone (or_intror Hloop)))|].
  destruct (Honce Hloop) as (l1 & l2 & Hl1 & _ & Hn1 & _).
  exists l1. split; [exact Hl1|exact Hn1].
Defined.

(** C10 fails as stated: the Catalog refers back to an indirect trailer;
    the trailer is entered into the table with number 2 and its text,
    still without [Size], is the second block of the body. *)
Lemma trailer_numbered_counterexample :
  ∃ final,
    dump_format example_filter 1000 0 false back_arena
    = Ok ("<</Root 1 0 R /Size 3>>", final)
    ∧ indirect_dict final !! 0 = Some 2
    ∧ objlist final
      = [Some "<</Back 2 0 R /Type /Catalog>>"; Some "<</Root 1 0 R>>"]
    ∧ length (offsets (write_body "1.3" (objlist final))) = 3.
Proof.
  destruct (dump_format example_filter 1000 0 false back_arena)
    as [[text final]|e] eqn:Hd; [|vm_compute in Hd; discriminate].
  exists final.
  assert (text = "<</Root 1 0 R /Size 3>>"
          ∧ indirect_dict final !! 0 = Some 2
          ∧ objlist final
            = [Some "<</Back 2 0 R /Type /Catalog>>"; Some "<</Root 1 0 R>>"])
    as (-> & H2 & H3).
  { vm_compute in Hd. injection Hd as <- <-. repeat split; vm_compute; reflexivity. }
  split; [reflexivity|]. split; [exact H2|]. split; [exact H3|].
  rewrite H3. vm_compute. reflexivity.
Qed.

(** C3 at work: the scalar 1 is met while it is in the guard set. *)
Lemma circular_reference_guard_witness :
  let self := mkFormatObjects [PdfArray false [1; 1]; Scalar false "a"] ∅ [] {[1]} in
  objs self !! 1 = Some (Scalar false "a")
  ∧ is_indirect (Scalar false "a") = false
  ∧ add example_filter true 5 self 1 = Raise (CircularReference 1).
Proof.
  intros self. split; [done|]. split; [done|].
  apply (circular_reference_guard example_filter true 5 self 1 (Scalar false "a"));
    [done|done|].
  subst self. simpl. set_solver.
Defined.

Lemma walk_ascending (R : relation nat) x p y :
  (∀ a b, R a b → a < b) → walk R x p y → p ≠ [] → x < y.
Proof.
  intros HR. induction 1 as [x|x y p z Hxy Hwalk IH]; [done|]. intros _.
  apply HR in Hxy. destruct p as [|a p].
  - by inversion Hwalk; subst.
  - assert (y < z) by by apply IH. lia.
Qed.

Lemma chain_arena_refers depth z c : refers (chain_arena depth) z c → z < c.
Proof.
  unfold refers, children, chain_arena. intros Hc.
  destruct (decide (z < depth)) as [Hlt|Hge].
  - rewrite lookup_app_l in Hc by by rewrite length_map, length_seq.
    rewrite list_lookup_fmap, lookup_seq_lt in Hc by done. simpl in Hc.
    apply list_elem_of_singleton in Hc. lia.
  - rewrite lookup_app_r in Hc by (rewrite length_map, length_seq; lia).
    rewrite length_map, length_seq in Hc.
    destruct (z - depth) as [|k]; simpl in Hc; by apply elem_of_nil in Hc.
Qed.

Lemma chain_arena_closed depth : closed (chain_arena depth).
Proof.
  apply closed_spec. intros z c Hc.
  unfold children, chain_arena in *.
  rewrite length_app, length_map, length_seq. simpl.
  destruct (decide (z < depth)) as [Hlt|Hge].
  - rewrite lookup_app_l in Hc by by rewrite length_map, length_seq.
    rewrite list_lookup_fmap, lookup_seq_lt in Hc by done. simpl in Hc.
    apply list_elem_of_singleton in Hc. lia.
  - rewrite lookup_app_r in Hc by (rewrite length_map, length_seq; lia).
    rewrite length_map, length_seq in Hc.
    destruct (z - depth) as [|k]; simpl in Hc; by apply elem_of_nil in Hc.
Qed.

(** The recursion has no work list: a closed graph without any cycle, a
    thousand arrays nested in each other, ends with the interpreter's
    error where a thousand calls of [format_obj] may nest, and is
    written where one more may. *)
Lemma deep_nesting_recursion_limit :
  closed (chain_arena 1000)
  ∧ cycles_through_indirect (chain_arena 1000)
  ∧ guarded (chain_arena 1000) 0
  ∧ dump example_filter 1000 0 "1.3" true (chain_arena 1000) = Raise RecursionLimit
  ∧ ∃ out h', dump example_filter 1001 0 "1.3" true (chain_arena 1000) = Ok (out, h').
Proof.
  assert (∀ c p, p ≠ [] → ¬ walk (refers (chain_arena 1000)) c p c) as Hnone.
  { intros c p Hp Hwalk.
    pose proof (walk_ascending _ _ _ _ (chain_arena_refers 1000) Hwalk Hp). lia. }
  split; [apply chain_arena_closed|].
  split; [intros c p Hp Hwalk; by destruct (Hnone c p Hp)|].
  split; [intros c p _ Hp Hwalk; by destruct (Hnone c p Hp)|].
  split; [vm_compute; reflexivity|].
  set (r := dump example_filter 1001 0 "1.3" true (chain_arena 1000)).
  assert (match r with Ok _ => true | Raise _ => false end = true) as Hr
    by (vm_compute; reflexivity).
  clearbody r. destruct r as [[out h']|e]; [by eexists _, _|discriminate].
Qed.

(* ========================================================================= *)
(** * Further properties of the writer *)
(* ========================================================================= *)

Section wrapped_lines.
Import FormatArray.

Lemma greedy_from_concat line rest : concat (greedy_from line rest) = line ++ rest.
Proof.
  revert line. induction rest as [|x rest IH]; intros line; simpl.
  - by rewrite app_nil_r.
  - destruct (70 <? len (join " " (line ++ [x])))%Z; simpl; rewrite IH.
    + done.
    + by rewrite <- app_assoc.
Qed.

Lemma greedy_from_Forall (P : list string → Prop) line rest :
  P line →
  (∀ x, P [x]) →
  (∀ line x, P line → (len (join " " (line ++ [x])) <= 70)%Z → P (line ++ [x])) →
  Forall P (greedy_from line rest).
Proof.
  intros Hline Hone Hstep. revert line Hline.
  induction rest as [|x rest IH]; intros line Hline; simpl.
  - by constructor.
  - destruct (70 <? len (join " " (line ++ [x])))%Z eqn:Hcmp.
    + constructor; [done|]. apply IH, Hone.
    + apply IH, Hstep; [done|lia].
Qed.

(** X1: The wrapped lines hold the tokens of the array, each once and in the
    order of the array, and no line is empty: the first token opens a
    line, because the counter starts above the threshold. *)
Theorem wrapped_lines_keep_tokens (myarray : list string) :
  concat (loop myarray) = myarray
  ∧ Forall (λ subarray, subarray ≠ []) (loop myarray).
Proof.
  rewrite loop_greedy. destruct myarray as [|x rest]; [by split|]. split.
  - apply greedy_from_concat.
  - apply greedy_from_Forall; [done|done|]. intros line y _ _. by destruct line.
Qed.

(** X2: A wrapped line is at most 70 bytes long, unless it is a single token
    that is longer by itself. *)
Theorem wrapped_lines_width (myarray : list string) :
  Forall (λ subarray, (len (join " " subarray) <= 70)%Z ∨ length subarray = 1)
         (loop myarray).
Proof.
  rewrite loop_greedy. destruct myarray as [|x rest]; [by constructor|].
  apply greedy_from_Forall; [by right|by right|]. intros line y _ Hle. by left.
Qed.

End wrapped_lines.

Section list_assignment.
Variable compress1 :
  string → list (string * ident) →
  string * list (string * ident) * list (string * string).
Variable compress : bool.

Lemma bind_Raise {A B} (r : result A) (k : A → result B) e :
  r ≫= k = Raise e → r = Raise e ∨ ∃ a, r = Ok a ∧ k a = Raise e.
Proof. destruct r as [a|e']; simpl; intros H; [right; eauto | left; congruence]. Qed.

Lemma add_all_Raise addf self xs e :
  add_all addf self xs = Raise e → ∃ s x, addf s x = Raise e.
Proof.
  revert self. induction xs as [|x xs IH]; intros self H; [done|].
  rewrite add_all_cons in H.
  apply bind_Raise in H as [H|([tok s1] & _ & H)]; [eauto|].
  apply bind_Raise in H as [H|([toks s2] & _ & H)]; [eauto|done].
Qed.

Lemma format_obj_body_Raise addf self obj e :
  format_obj_body compress1 compress addf self obj = Raise e →
  e = NoSuchObject obj ∨ ∃ s x, addf s x = Raise e.
Proof.
  rewrite format_obj_body_unfold.
  destruct (objs self !! obj) as [n|]; [|intros [= <-]; by left].
  intros [H|([toks s1] & _ & H)]%bind_Raise; [|done].
  right. by eapply add_all_Raise.
Qed.

Lemma add_body_Raise fmt self obj e :
  (∀ s x t s', fmt s x = Ok (t, s') → length (objlist s) ≤ length (objlist s')) →
  add_body fmt self obj = Raise e →
  e = NoSuchObject obj ∨ e = CircularReference obj ∨ ∃ s x, fmt s x = Raise e.
Proof.
  intros Hlen H. unfold add_body in H.
  destruct (objs self !! obj) as [n|]; [|injection H as <-; by left].
  destruct (is_indirect n); simpl in H.
  - destruct (indirect_dict self !! obj) as [objnum|]; [done|].
    apply bind_Raise in H as [H|([text s1] & H1 & H)]; [eauto|].
    apply Hlen in H1. simpl in H1. rewrite length_app in H1. simpl in H1.
    case_decide; [done|lia].
  - case_decide; [injection H as <-; auto|].
    apply bind_Raise in H as [H|([text s1] & _ & H)]; [eauto|done].
Qed.

Lemma format_obj_length fuel s obj text s' :
  format_obj compress1 compress fuel s obj = Ok (text, s') →
  length (objlist s) ≤ length (objlist s').
Proof. intros H%format_obj_run%fmt_run_grows. by apply grows_length. Qed.

(** X3: The assignment [objlist[objnum-1] = ...] of [add] is always in
    range: the slot appended before the object is formatted is still
    there afterwards, since the list is only extended.  Neither function
    ends with an [IndexError], whatever the instance and the object. *)
Theorem list_assignment_in_range fuel self obj :
  format_obj compress1 compress fuel self obj ≠ Raise IndexError
  ∧ add compress1 compress fuel self obj ≠ Raise IndexError.
Proof.
  assert (∀ fuel s x, format_obj compress1 compress fuel s x ≠ Raise IndexError)
    as Hfmt.
  { clear. intros fuel. induction fuel as [|fuel IH]; intros s x H; [done|].
    simpl in H. apply format_obj_body_Raise in H as [H|(s1 & y & H)]; [done|].
    apply add_body_Raise in H as [H|[H|(s2 & z & H)]]; [done|done|by eapply IH|].
    apply format_obj_length. }
  split; [apply Hfmt|]. intros H.
  apply add_body_Raise in H as [H|[H|(s2 & z & H)]]; [done|done|by eapply Hfmt|].
  apply format_obj_length.
Qed.

End list_assignment.

Section filled.
Variable compress1 :
  string → list (string * ident) →
  string * list (string * ident) * list (string * string).
Variable compress : bool.


End filled.


Section uncompressed.
Variable compress1 :
  string → list (string * ident) →
  string * list (string * ident) * list (string * string).
Variable compress : bool.

Local Abbreviation fmt_run := (fmt_run compress1 compress).
Local Abbreviation add_run := (add_run compress1 compress).
Local Abbreviation all_run := (all_run compress1 compress).

(** X5: Without a call of [compress], the serializer reads the objects and
    changes none: when [dump] returns, the caller's objects are as they
    were, except that the trailer has its [Size], made from the length
    of the object list after the first pass. *)
Theorem dump_changes_only_Size limit trailer version h out h' :
  never_compressed compress h →
  dump compress1 limit trailer version compress h = Ok (out, h') →
  ∃ text1 s1,
    format_obj compress1 compress limit (fresh_instance h) trailer
    = Ok (text1, s1)
    ∧ h' = set_Size h trailer (length (objlist s1) + 1).
Proof.
  intros Hnc H. apply dump_inv in H as (text & final & H & _ & ->).
  apply dump_format_inv in H as (text1 & s1 & H1 & H2).
  exists text1, s1. split; [done|].
  pose proof (format_obj_untouched compress1 compress _ (fresh_instance h) _ _ _
                Hnc H1) as E1.
  simpl in E1.
  assert (never_compressed compress (objs (sized s1 trailer))) as Hnc2.
  { simpl. rewrite E1. by apply never_compressed_set_Size. }
  rewrite (format_obj_untouched compress1 compress _ (sized s1 trailer) _ _ _
             Hnc2 H2).
  simpl. by rewrite E1.
Qed.

Section other_collaborator.
Variable compress1' :
  string → list (string * ident) →
  string * list (string * ident) * list (string * string).

Lemma add_all_same addf addf' s xs :
  (∀ s x, never_compressed compress (objs s) → addf s x = addf' s x) →
  (∀ s x tok s', never_compressed compress (objs s) →
                 addf s x = Ok (tok, s') → objs s' = objs s) →
  never_compressed compress (objs s) →
  add_all addf s xs = add_all addf' s xs.
Proof.
  intros Hsame Hkeep. revert s. induction xs as [|x xs IH]; intros s Hnc; [done|].
  rewrite !add_all_cons, <- Hsame by done.
  destruct (addf s x) as [[tok s1]|e] eqn:Hx; [|done]. simpl.
  rewrite IH; [done|]. by rewrite (Hkeep _ _ _ _ Hnc Hx).
Qed.

Lemma add_body_same fmt fmt' s x :
  (∀ s x, never_compressed compress (objs s) → fmt s x = fmt' s x) →
  never_compressed compress (objs s) →
  add_body fmt s x = add_body fmt' s x.
Proof.
  intros Hsame Hnc. unfold add_body.
  destruct (objs s !! x) as [n|]; [|done].
  destruct (is_indirect n); simpl.
  - destruct (indirect_dict s !! x); [done|]. by rewrite Hsame.
  - case_decide; [done|]. by rewrite Hsame.
Qed.

Lemma format_obj_same fuel s obj :
  never_compressed compress (objs s) →
  format_obj compress1 compress fuel s obj = format_obj compress1' false fuel s obj.
Proof.
  revert s obj. induction fuel as [|fuel IH]; intros s obj Hnc; [done|].
  simpl. rewrite !format_obj_body_unfold.
  destruct (objs s !! obj) as [n|]; [|done].
  rewrite (prepared_id compress1 compress s obj) by (intros; by eapply Hnc).
  rewrite (prepared_id compress1' false s obj) by done.
  rewrite (add_all_same _ (add_body (format_obj compress1' false fuel))); [done| | |done].
  - intros s1 x Hnc1. by apply add_body_same.
  - intros s1 x tok s2 Hnc1 Hadd. by eapply add_untouched.
Qed.

(** X6: Where [compress] is not called, the collaborator and the flag have
    no part in the result: [dump] writes the file that it writes with
    compression switched off, or fails as it fails then.  In particular
    a stream whose payload is the empty string is written as it is. *)
Theorem compress_not_called limit trailer version h :
  never_compressed compress h →
  dump compress1 limit trailer version compress h
  = dump compress1' limit trailer version false h.
Proof.
  intros Hnc. unfold dump, dump_format.
  rewrite <- (format_obj_same _ (fresh_instance h)) by done.
  destruct (format_obj compress1 compress limit (fresh_instance h) trailer)
    as [[text1 s1]|e] eqn:H1; [|done]. simpl.
  rewrite <- format_obj_same; [done|]. simpl.
  apply never_compressed_set_Size.
  by rewrite (format_obj_untouched compress1 compress _ (fresh_instance h) _ _ _
                Hnc H1).
Qed.

End other_collaborator.
End uncompressed.

Lemma never_compressed_off h : never_compressed false h.
Proof. by intros ?????. Qed.

(** The one-page document written without compression. *)
Lemma dump_changes_only_Size_witness :
  never_compressed false doc_arena
  ∧ ∃ out, dump example_compress1 1000 9 "1.3" false doc_arena
           = Ok (out, set_Size doc_arena 9 5).
Proof.
  split; [apply never_compressed_off|].
  assert (∃ r, dump example_compress1 1000 9 "1.3" false doc_arena = Ok r)
    as [[out h'] Hd].
  { eexists. vm_compute. reflexivity. }
  exists out. rewrite Hd.
  destruct (dump_changes_only_Size example_compress1 false 1000 9 "1.3" doc_arena out h'
              (never_compressed_off doc_arena) Hd) as (text1 & s1 & H1 & ->).
  assert (length (objlist s1) = 4) as ->; [|reflexivity].
  assert (∃ r, format_obj example_compress1 false 1000
                 (fresh_instance doc_arena) 9 = Ok r ∧ length (objlist r.2) = 4)
    as (r & Hr & Hlen).
  { eexists. split; vm_compute; reflexivity. }
  rewrite H1 in Hr. injection Hr as <-. exact Hlen.
Defined.

(** A stream with the empty payload, written with compression on and a
    collaborator that would replace every payload. *)
Lemma compress_not_called_witness :
  let h := [PdfDict false None [("/Root", 1)]; PdfDict true (Some "") []] in
  never_compressed true h
  ∧ dump (λ _ _, ("x", [], [])) 1000 0 "1.3" true h
    = dump example_compress1 1000 0 "1.3" false h.
Proof.
  intros h.
  assert (never_compressed true h) as Hnc.
  { intros [|[|obj]] indirect payload items Hobj; simplify_eq/=; done. }
  split; [exact Hnc|].
  exact (compress_not_called (λ _ _, ("x", [], [])) true example_compress1
           1000 0 "1.3" h Hnc).
Defined.

Section key_order.

(** Two pairs with different keys go into a list in either order. *)
Lemma insert_item_comm p q l :
  p.1 ≠ q.1 →
  insert_item p (insert_item q l) = insert_item q (insert_item p l).
Proof.
  intros Hne. induction l as [|r l IH]; simpl.
  - destruct (String.leb p.1 q.1) eqn:Hpq, (String.leb q.1 p.1) eqn:Hqp; try done.
    + destruct Hne. by apply String.leb_antisym.
    + destruct (String.leb_total p.1 q.1); congruence.
  - destruct (String.leb q.1 r.1) eqn:Hqr, (String.leb p.1 r.1) eqn:Hpr; simpl.
    + destruct (String.leb p.1 q.1) eqn:Hpq, (String.leb q.1 p.1) eqn:Hqp;
        rewrite ?Hqr, ?Hpr; try done.
      * destruct Hne. by apply String.leb_antisym.
      * destruct (String.leb_total p.1 q.1); congruence.
    + destruct (String.leb p.1 q.1) eqn:Hpq.
      * by rewrite (leb_trans _ _ _ Hpq Hqr) in Hpr.
      * by rewrite Hpr, Hqr.
    + destruct (String.leb q.1 p.1) eqn:Hqp.
      * by rewrite (leb_trans _ _ _ Hqp Hpr) in Hqr.
      * by rewrite Hqr, Hpr.
    + by rewrite Hpr, Hqr, IH.
Qed.

Lemma sorted_Permutation (items items' : list (string * ident)) :
  NoDup (map fst items) → items ≡ₚ items' → sorted items = sorted items'.
Proof.
  intros Hnd Hperm. induction Hperm as [|p l l' Hp IH|p q l|l1 l2 l3 H12 IH12 H23 IH23].
  - done.
  - unfold sorted in *. simpl. rewrite IH; [done|]. by inversion Hnd.
  - unfold sorted. simpl. apply insert_item_comm.
    inversion Hnd as [|? ? Hin _]; subst. intros Heq. apply Hin. rewrite Heq. by left.
  - rewrite IH12 by done. apply IH23. by rewrite <- H12.
Qed.

(** A pair put into a list with ascending keys leaves the keys ascending. *)
Lemma insert_item_ascending p (l : list (string * ident)) :
  (∀ i a b, l !! i = Some a → l !! S i = Some b → String.leb a.1 b.1 = true) →
  ∀ i a b, insert_item p l !! i = Some a → insert_item p l !! S i = Some b →
           String.leb a.1 b.1 = true.
Proof.
  induction l as [|q l IH]; intros Hl i a b; simpl.
  - intros _ Hb. by rewrite lookup_nil in Hb.
  - destruct (String.leb p.1 q.1) eqn:Hpq.
    + destruct i as [|i]; simpl.
      * by intros [= <-] [= <-].
      * apply Hl.
    + assert (String.leb q.1 p.1 = true) as Hqp.
      { destruct (String.leb_total p.1 q.1); congruence. }
      destruct i as [|i]; simpl.
      * intros [= <-] Hb. destruct l as [|r l]; simpl in Hb.
        -- by injection Hb as <-.
        -- destruct (String.leb p.1 r.1); injection Hb as <-; [done|].
           by apply (Hl 0).
      * apply IH. intros j. apply (Hl (S j)).
Qed.

(** X7: [sorted(obj.iteritems())] holds the items of the dictionary, with
    the keys in ascending order of their bytes, and it is the same list
    for every order in which the dictionary hands out its items: the
    keys of a dictionary are different, and the sorted list of pairs
    with different keys depends on the pairs only. *)
Theorem sorted_iteration_order (items items' : list (string * ident)) :
  NoDup (map fst items) → items ≡ₚ items' →
  sorted items = sorted items'
  ∧ sorted items ≡ₚ items
  ∧ ∀ i a b, sorted items !! i = Some a → sorted items !! S i = Some b →
             String.leb a.1 b.1 = true.
Proof.
  intros Hnd Hperm. split; [by apply sorted_Permutation|].
  split; [apply sorted_perm|].
  clear. induction items as [|p items IH].
  - intros i a b Ha. unfold sorted in Ha. simpl in Ha. by rewrite lookup_nil in Ha.
  - apply (insert_item_ascending p (sorted items) IH).
Qed.

End key_order.

(** A dictionary of three items, handed out in two orders. *)
Lemma sorted_iteration_order_witness :
  sorted [("/Type", 0); ("/Count", 1); ("/Kids", 2)]
  = sorted [("/Kids", 2); ("/Type", 0); ("/Count", 1)].
Proof.
  assert (NoDup (map fst [("/Type", 0); ("/Count", 1); ("/Kids", 2)])) as Hnd.
  { repeat constructor; rewrite ?elem_of_cons, ?elem_of_nil; intros H;
      repeat destruct H as [H|H]; done. }
  assert ([("/Type", 0); ("/Count", 1); ("/Kids", 2)]
          ≡ₚ [("/Kids", 2); ("/Type", 0); ("/Count", 1)]) as Hperm.
  { assert ([("/Type", 0); ("/Count", 1); ("/Kids", 2)]
            = [("/Type", 0); ("/Count", 1)] ++ [("/Kids", 2)]) as -> by done.
    by rewrite Permutation_app_comm. }
  exact (proj1 (sorted_iteration_order _ _ Hnd Hperm)).
Defined.

Section iteration_order.
Variable compress1 :
  string → list (string * ident) →
  string * list (string * ident) * list (string * string).
Variable compress : bool.

Lemma set_item_keys key v items :
  map fst (set_item key v items)
  = if bool_decide (key ∈ map fst items) then map fst items
    else map fst items ++ [key].
Proof.
  induction items as [|[k w] items IH]; simpl; [done|].
  destruct (String.eqb_spec key k) as [->|Hne]; simpl.
  - rewrite bool_decide_eq_true_2; [done|]. by left.
  - rewrite IH. case_bool_decide as Hin.
    + rewrite bool_decide_eq_true_2; [done|]. by right.
    + rewrite bool_decide_eq_false_2; [done|].
      intros [?|?]%elem_of_cons; done.
Qed.

Lemma set_item_NoDup key v items :
  NoDup (map fst items) → NoDup (map fst (set_item key v items)).
Proof.
  intros Hnd. rewrite set_item_keys. case_bool_decide as Hin; [done|].
  apply NoDup_app. split; [done|]. split; [|apply NoDup_singleton].
  intros x Hx ->%list_elem_of_singleton. done.
Qed.

Lemma filter_all {A} (P : A → Prop) `{∀ x, Decision (P x)} (l : list A) :
  Forall P l → filter P l = l.
Proof.
  induction 1 as [|x l Hx _ IH]; [done|].
  by rewrite filter_cons_True, IH.
Qed.

Lemma set_item_filter key v items :
  NoDup (map fst items) →
  set_item key v items ≡ₚ (key, v) :: filter (λ p, p.1 ≠ key) items.
Proof.
  induction items as [|[k w] items IH]; intros Hnd; simpl; [done|].
  apply NoDup_cons in Hnd as [Hk Hnd].
  destruct (String.eqb_spec key k) as [->|Hne].
  - rewrite filter_cons_False by (simpl; auto).
    f_equiv. rewrite filter_all; [done|].
    apply Forall_forall. intros [k' w'] Hin Heq. simpl in Heq. subst k'.
    apply Hk. apply list_elem_of_fmap. by exists (k, w').
  - rewrite filter_cons_True by (simpl; auto).
    rewrite IH by done. apply Permutation_swap.
Qed.

Lemma set_item_Permutation key v items items' :
  NoDup (map fst items) → items ≡ₚ items' →
  set_item key v items ≡ₚ set_item key v items'.
Proof.
  intros Hnd Hperm. rewrite !set_item_filter; [by rewrite Hperm|by rewrite <- Hperm|done].
Qed.

Lemma same_object_indirect n n' : same_object n n' → is_indirect n' = is_indirect n.
Proof.
  destruct n, n'; simpl; try done; try by intros [= -> ->]; try by intros [= ->].
  by intros (-> & -> & _).
Qed.

Lemma same_object_children n n' : same_object n n' → children_of n' = children_of n.
Proof.
  destruct n, n'; simpl; try done; try by intros [= -> ->]; try by intros [= ->].
  intros (_ & _ & Hnd & Hperm). by rewrite (sorted_Permutation _ _ Hnd Hperm).
Qed.

Lemma same_objects_lookup h h' obj :
  same_objects h h' →
  match h !! obj, h' !! obj with
  | Some n, Some n' => same_object n n'
  | None, None => True
  | _, _ => False
  end.
Proof.
  intros Hsame. pose proof (Forall2_length _ _ _ Hsame) as Hlen.
  destruct (h !! obj) as [n|] eqn:Hn.
  - destruct (Forall2_lookup_l _ _ _ _ _ Hsame Hn) as (n' & -> & H). done.
  - apply lookup_ge_None in Hn. rewrite lookup_ge_None_2; [done|lia].
Qed.

Lemma same_objects_view h h' obj : same_objects h h' → same_view h h' obj.
Proof.
  intros Hsame. pose proof (same_objects_lookup h h' obj Hsame) as H.
  unfold same_view, indirect_at, children, rendered.
  destruct (h !! obj) as [n|], (h' !! obj) as [n'|]; try done.
  split; [by split; eauto|]. split; [by apply same_object_indirect|].
  split; [by apply same_object_children|]. intros tokens.
  destruct n, n'; simpl in H; try done; try by injection H as -> ->.
  destruct H as (-> & -> & Hnd & Hperm).
  by rewrite (sorted_Permutation _ _ Hnd Hperm).
Qed.

Lemma same_objects_never_compressed h h' :
  same_objects h h' → never_compressed compress h → never_compressed compress h'.
Proof.
  intros Hsame Hnc obj indirect payload items Hobj.
  pose proof (same_objects_lookup h h' obj Hsame) as H. rewrite Hobj in H.
  destruct (h !! obj) as [[|ind st its|]|] eqn:Hn; try done.
  destruct H as (-> & Hst & _). subst st. by eapply Hnc.
Qed.

Lemma same_objects_set_Size h h' trailer n :
  same_objects h h' →
  same_objects (set_Size h trailer n) (set_Size h' trailer n).
Proof.
  intros Hsame. pose proof (Forall2_length _ _ _ Hsame) as Hlen.
  assert (same_objects (h ++ [Scalar false (pretty n)])
                       (h' ++ [Scalar false (pretty n)])) as Hsame1.
  { apply Forall2_app; [done|]. by repeat constructor. }
  pose proof (same_objects_lookup _ _ trailer Hsame1) as H.
  unfold set_Size.
  destruct ((h ++ [Scalar false (pretty n)]) !! trailer) as [nd|],
           ((h' ++ [Scalar false (pretty n)]) !! trailer) as [nd'|]; try done.
  destruct nd, nd'; simpl in H; try done.
  destruct H as (-> & -> & Hnd & Hperm).
  apply Forall2_insert; [done|]. rewrite Hlen. simpl.
  split; [done|]. split; [done|]. split.
  - by apply set_item_NoDup.
  - by apply set_item_Permutation.
Qed.

Section two_arenas.
Variables h h' : heap.
Variable reach : ident → Prop.
Hypothesis Hkids : ∀ x y, reach x → y ∈ children h x → reach y.
Hypothesis Hview : ∀ x, reach x → same_view h h' x.
Hypothesis Hnc : never_compressed compress h.
Hypothesis Hnc' : never_compressed compress h'.

Local Abbreviation moved :=
  (λ r : result (string * FormatObjects), '(t, s1) ← r; Ok (t, set_objs s1 h')).

Lemma add_all_moved addf s xs :
  objs s = h → Forall reach xs →
  (∀ s x, objs s = h → reach x → addf (set_objs s h') x = moved (addf s x)) →
  (∀ s x tok s', objs s = h → addf s x = Ok (tok, s') → objs s' = h) →
  add_all addf (set_objs s h') xs
  = '(toks, s1) ← add_all addf s xs; Ok (toks, set_objs s1 h').
Proof.
  intros Hs Hxs Hmoved Hkeep. revert s Hs.
  induction Hxs as [|x xs Hx Hxs IH]; intros s Hs; [done|].
  rewrite !add_all_cons, Hmoved by done.
  destruct (addf s x) as [[tok s1]|e] eqn:Hadd; [|done]. simpl.
  rewrite IH by by eapply Hkeep.
  by destruct (add_all addf s1 xs) as [[toks s2]|e].
Qed.

Lemma add_body_moved fmt s x :
  objs s = h → reach x →
  (∀ s x, objs s = h → reach x → fmt (set_objs s h') x = moved (fmt s x)) →
  add_body fmt (set_objs s h') x = moved (add_body fmt s x).
Proof.
  intros Hs Hx Hmoved. unfold add_body. simpl.
  destruct (Hview x Hx) as (Hsome & Hind & _). unfold indirect_at in Hind.
  rewrite Hs.
  destruct (h !! x) as [n|], (h' !! x) as [n'|];
    [|by destruct (proj2 Hsome) as [? [=]]; eauto
     |by destruct (proj1 Hsome) as [? [=]]; eauto|done].
  rewrite Hind.
  destruct (is_indirect n); simpl.
  - destruct (indirect_dict s !! x); [done|].
    change (set_indirect_dict _ _)
      with (set_objs (set_indirect_dict (set_objlist s (objlist s ++ [None]))
                        (<[x:=length (objlist s) + 1]> (indirect_dict s))) h') at 1.
    rewrite Hmoved by done.
    destruct (fmt _ x) as [[text s1]|e]; [|done]. simpl.
    by case_decide.
  - case_decide; [done|].
    change (set_visited (set_objs s h') ({[x]} ∪ visited s))
      with (set_objs (set_visited s ({[x]} ∪ visited s)) h').
    rewrite Hmoved by done.
    by destruct (fmt _ x) as [[text s1]|e].
Qed.

Lemma format_obj_moved fuel s obj :
  objs s = h → reach obj →
  format_obj compress1 compress fuel (set_objs s h') obj
  = moved (format_obj compress1 compress fuel s obj).
Proof.
  revert s obj. induction fuel as [|fuel IH]; intros s obj Hs Hobj; [done|].
  simpl. rewrite !format_obj_body_unfold. simpl.
  destruct (Hview obj Hobj) as (Hsome & _ & Hch & Hren).
  rewrite Hs.
  destruct (h !! obj) as [n|] eqn:Hn, (h' !! obj) as [n'|] eqn:Hn';
    [|by destruct (proj2 Hsome) as [? [=]]; eauto
     |by destruct (proj1 Hsome) as [? [=]]; eauto|done].
  rewrite (prepared_id compress1 compress s obj)
    by (intros; eapply Hnc; by rewrite <- Hs).
  rewrite (prepared_id compress1 compress (set_objs s h') obj)
    by (intros; by eapply Hnc').
  simpl. rewrite Hs, Hch.
  rewrite add_all_moved; [|done| | |].
  - destruct (add_all _ s (children h obj)) as [[toks s1]|e] eqn:Hall; [|done].
    simpl. rewrite Hren.
    assert (objs s1 = h) as ->; [|done].
    rewrite <- Hs. eapply (proj2 (proj2 (run_untouched compress1 compress)));
      [|by rewrite Hs].
    eapply add_all_run; [|exact Hall].
    intros s2 x tok s3. apply add_run_of.
  - apply Forall_forall. intros y Hy. by eapply Hkids.
  - intros s1 x Hs1 Hx. by apply add_body_moved.
  - intros s1 x tok s2 Hs1 Hadd. rewrite <- Hs1.
    eapply add_untouched; [by rewrite Hs1|exact Hadd].
Qed.

End two_arenas.

(** X8: The file does not depend on the order in which the dictionaries hand
    out their items: from two arenas that differ in that order only,
    [dump] writes the same bytes, or fails with the same error.  (Where
    [compress] is called, the collaborator sees the items first.) *)
Theorem dump_iteration_order limit trailer version h h' :
  same_objects h h' →
  never_compressed compress h →
  value_of (dump compress1 limit trailer version compress h')
  = value_of (dump compress1 limit trailer version compress h).
Proof.
  intros Hsame Hnc. unfold dump, dump_format.
  change (fresh_instance h') with (set_objs (fresh_instance h) h').
  assert (never_compressed compress h') as Hnc'
    by by eapply same_objects_never_compressed.
  rewrite (format_obj_moved h h' (λ _, True)); try done;
    [|by intros; apply same_objects_view].
  destruct (format_obj compress1 compress limit (fresh_instance h) trailer)
    as [[text1 s1]|e] eqn:H1; [|done]. simpl.
  pose proof (format_obj_untouched _ _ _ (fresh_instance h) _ _ _ Hnc H1) as E1.
  simpl in E1.
  change (set_objs (set_objs s1 h') ?a) with (set_objs (set_objs s1 (set_Size h trailer (length (objlist s1) + 1))) a).
  rewrite E1.
  rewrite (format_obj_moved (set_Size h trailer (length (objlist s1) + 1))
             (set_Size h' trailer (length (objlist s1) + 1)) (λ _, True));
    try done;
    [|by intros; apply same_objects_view, same_objects_set_Size
     |by apply never_compressed_set_Size..].
  destruct (format_obj _ _ _ (set_objs s1 _) trailer) as [[text final]|e];
    reflexivity.
Qed.

End iteration_order.

(** A trailer whose two items come in either order. *)
Lemma dump_iteration_order_witness :
  let h := [PdfDict false None [("/Root", 1); ("/Info", 2)];
            PdfDict true None [("/Type", 3)];
            PdfDict true None [];
            Scalar false "/Catalog"] in
  let h' := [PdfDict false None [("/Info", 2); ("/Root", 1)];
             PdfDict true None [("/Type", 3)];
             PdfDict true None [];
             Scalar false "/Catalog"] in
  same_objects h h'
  ∧ never_compressed false h
  ∧ value_of (dump example_compress1 1000 0 "1.3" false h')
    = value_of (dump example_compress1 1000 0 "1.3" false h).
Proof.
  intros h h'.
  assert (same_objects h h') as Hsame.
  { assert (∀ l : list string, bool_decide (NoDup l) = true → NoDup l) as Hdec
      by (intros l; apply bool_decide_eq_true_1).
    subst h h'. unfold same_objects.
    apply List.Forall2_cons.
    { split; [done|]. split; [done|]. split; [by apply Hdec|apply perm_swap]. }
    apply List.Forall2_cons.
    { split; [done|]. split; [done|]. split; [by apply Hdec|done]. }
    apply List.Forall2_cons.
    { split; [done|]. split; [done|]. split; [by apply Hdec|done]. }
    apply List.Forall2_cons; [done|apply List.Forall2_nil]. }
  split; [exact Hsame|]. split; [apply never_compressed_off|].
  exact (dump_iteration_order example_compress1 false 1000 0 "1.3" h h' Hsame
           (never_compressed_off h)).
Defined.

Section table_width.

Lemma pretty_N_go_grows x s : String.length s ≤ String.length (pretty_N_go x s).
Proof.
  revert s. induction (N.lt_wf_0 x) as [x _ IH]; intros s.
  destruct (decide (x = 0)%N) as [->|Hx]; [by rewrite pretty_N_go_0|].
  rewrite pretty_N_go_step by lia.
  etrans; [|apply IH; apply N.div_lt; lia]. simpl. lia.
Qed.

Lemma pretty_N_go_upper k x s :
  (x < 10 ^ N.of_nat k)%N →
  String.length (pretty_N_go x s) ≤ k + String.length s.
Proof.
  revert x s. induction k as [|k IH]; intros x s Hx.
  - assert (x = 0%N) as -> by (simpl in Hx; lia). rewrite pretty_N_go_0. lia.
  - destruct (decide (x = 0)%N) as [->|Hx0]; [rewrite pretty_N_go_0; lia|].
    rewrite pretty_N_go_step by lia.
    etrans; [apply IH|simpl; lia].
    rewrite Nat2N.inj_succ, N.pow_succ_r' in Hx.
    apply N.Div0.div_lt_upper_bound. lia.
Qed.

Lemma pretty_N_go_lower k x s :
  (10 ^ N.of_nat k ≤ x)%N →
  k + String.length s < String.length (pretty_N_go x s).
Proof.
  revert x s. induction k as [|k IH]; intros x s Hx.
  - simpl in Hx. rewrite pretty_N_go_step by lia.
    eapply Nat.lt_le_trans; [|apply pretty_N_go_grows]. simpl. lia.
  - rewrite Nat2N.inj_succ, N.pow_succ_r' in Hx.
    assert (0 < 10 ^ N.of_nat k)%N by (apply N.neq_0_lt_0, N.pow_nonzero; lia).
    rewrite pretty_N_go_step by lia.
    eapply Nat.le_lt_trans; [|apply IH].
    + simpl. lia.
    + apply N.div_le_lower_bound; lia.
Qed.

(** The decimal digits of a number: at most [k] of them exactly when the
    number is below [10 ^ k]. *)
Lemma digits_bound k (n : nat) :
  0 < k →
  String.length (pretty n) ≤ k ↔ (N.of_nat n < 10 ^ N.of_nat k)%N.
Proof.
  intros Hk. unfold pretty, pretty_nat, pretty, pretty_N.
  destruct (decide (N.of_nat n = 0)%N) as [->|Hn].
  - simpl. split; [|lia]. intros _. apply N.neq_0_lt_0, N.pow_nonzero. lia.
  - split.
    + intros Hlen. apply N.lt_nge. intros Hge.
      pose proof (pretty_N_go_lower k _ "" Hge). simpl in *. lia.
    + intros Hlt. pose proof (pretty_N_go_upper k _ "" Hlt). simpl in *. lia.
Qed.

Lemma replicate_zero_length k : String.length (join "" (replicate k "0")) = k.
Proof.
  induction k as [|k IH]; [done|].
  destruct k as [|k]; [done|].
  change (replicate (S (S k)) "0") with ("0" :: replicate (S k) "0").
  change (replicate (S k) "0") with ("0" :: replicate k "0") in *.
  rewrite join_cons2, !length_app_str, IH. done.
Qed.

(** ['%0<width>d']: zeros in front up to the width, and no digit cut. *)
Lemma zero_pad_length width n :
  String.length (zero_pad width n) = width `max` String.length (pretty n).
Proof.
  unfold zero_pad. rewrite length_app_str, replicate_zero_length. lia.
Qed.

Lemma xref_line_length off gen status :
  String.length (xref_line (off, gen, status))
  = (10 `max` String.length (pretty off)) + (5 `max` String.length (pretty gen))
    + String.length status + 4.
Proof.
  unfold xref_line. rewrite !length_app_str, !zero_pad_length. simpl. lia.
Qed.

Lemma write_body_entries version l :
  Forall (λ x, x.1.1 ≤ offset (write_body version l)
               ∧ (x.1.2 = 0 ∨ x.1.2 = 65535) ∧ String.length x.2 = 1)
         (offsets (write_body version l)).
Proof.
  induction l as [|y l IH] using rev_ind.
  - repeat constructor; simpl; lia.
  - rewrite write_body_snoc. simpl. apply Forall_app. split.
    + eapply Forall_impl; [exact IH|]. intros [[off gen] st]. simpl. lia.
    + repeat constructor; simpl; lia.
Qed.

Lemma join_empty_length (l : list string) c :
  Forall (λ x, String.length x = c) l →
  String.length (join "" l) = c * length l.
Proof.
  induction 1 as [|x l Hx Hl IH]; [simpl; lia|].
  destruct l as [|y l]; [simpl in *; lia|].
  rewrite join_cons2, !length_app_str, IH, Hx. simpl. lia.
Qed.

(** X10: An entry of the cross-reference table is 20 bytes long, as the file
    format wants it, exactly when its offset is below [10 ^ 10]:
    ['%010d'] pads but does not cut.  When the body is shorter than
    that, the table is 20 bytes for each object and 20 for the head. *)
Theorem xref_entries_are_20_bytes version (objlist : list (option string)) :
  let w := write_body version objlist in
  (∀ x, x ∈ offsets w →
     String.length (xref_line x) = 20 ↔ (N.of_nat x.1.1 < 10 ^ 10)%N)
  ∧ ((N.of_nat (offset w) < 10 ^ 10)%N →
     String.length (join "" (map xref_line (offsets w)))
     = 20 * (length objlist + 1)).
Proof.
  intros w.
  pose proof (write_body_entries version objlist) as Hall. fold w in Hall.
  rewrite Forall_forall in Hall.
  assert (∀ x, x ∈ offsets w →
            String.length (xref_line x) = 20 ↔ (N.of_nat x.1.1 < 10 ^ 10)%N)
    as Hline.
  { intros [[off gen] status] Hx.
    destruct (Hall _ Hx) as (_ & Hgen & Hst). cbn [fst snd] in *.
    rewrite xref_line_length, Hst.
    change (10 ^ 10)%N with (10 ^ N.of_nat 10)%N.
    rewrite <- (digits_bound 10 off) by lia.
    assert (5 `max` String.length (pretty gen) = 5) as ->.
    { by destruct Hgen as [->| ->]. }
    lia. }
  split; [exact Hline|]. intros Hsmall.
  rewrite (join_empty_length _ 20).
  - rewrite length_map. subst w. rewrite write_body_offsets_length. lia.
  - apply Forall_forall. intros line (x & -> & Hx)%list_elem_of_fmap.
    apply Hline; [done|]. destruct (Hall _ Hx) as (Hle & _). lia.
Qed.

End table_width.

Section frame.
Variable compress1 :
  string → list (string * ident) →
  string * list (string * ident) * list (string * string).
Variable compress : bool.

(** X11: What a successful [add] leaves alone: the numbers given so far, the
    entries of the object list up to its former length, and the guard
    set, which is as it was before the call.  Of the objects, those
    with a payload may have a new payload and new items; the others are
    as they were. *)
Theorem add_keeps_numbers fuel self obj tok self' :
  add compress1 compress fuel self obj = Ok (tok, self') →
  (∀ x n, indirect_dict self !! x = Some n → indirect_dict self' !! x = Some n)
  ∧ (∀ i entry, objlist self !! i = Some entry → objlist self' !! i = Some entry)
  ∧ visited self' = visited self
  ∧ heap_evolves (objs self) (objs self').
Proof.
  intros Hadd%add_run_of.
  destruct (add_run_grows _ _ _ _ _ _ Hadd) as (Hd & Hl & Hv).
  split; [|split; [|split]].
  - intros x n Hx. by eapply lookup_weaken.
  - intros i entry Hi. by eapply prefix_lookup_Some.
  - done.
  - by eapply (proj1 (proj2 (run_evolves compress1 compress))).
Qed.

End frame.

(** The Catalog of the one-page document, met when the Pages node has
    its number already. *)
Lemma add_keeps_numbers_witness :
  let self := mkFormatObjects doc_arena {[6 := 1]} [Some "pages"] ∅ in
  ∃ tok self',
    add example_compress1 true 12 self 8 = Ok (tok, self')
    ∧ indirect_dict self' !! 6 = Some 1
    ∧ objlist self' !! 0 = Some (Some "pages").
Proof.
  intros self.
  destruct (add example_compress1 true 12 self 8) as [[tok self']|e] eqn:Hadd;
    [|vm_compute in Hadd; discriminate].
  exists tok, self'. split; [reflexivity|].
  destruct (add_keeps_numbers example_compress1 true 12 self 8 tok self' Hadd)
    as (Hd & Hl & _).
  split; [by apply Hd|by apply Hl].
Defined.

Section pages.
Variables (version : string) (compress : bool).

Lemma is_page_added h sources hk page :
  pages_added h sources hk → page < length h →
  is_page hk page = is_page h page.
Proof.
  intros (Hlen & Harr & Hold & Hnew) Hlt. unfold is_page.
  rewrite Hold by done.
  destruct (h !! page) as [[|ind stream items|]|]; try done.
  destruct (get_item "/Type" items) as [t|]; [|done].
  destruct (decide (t < length h)) as [Ht|Ht]; [by rewrite Hold|].
  rewrite (lookup_ge_None_2 h t) by lia.
  destruct (decide (t = length h)) as [->|Hne]; [by rewrite Harr|].
  destruct (decide (t < length hk)) as [Htk|Htk].
  - destruct (lookup_lt_is_Some_2 sources (t - (length h + 1))) as [p Hp]; [lia|].
    destruct (Hnew _ _ Hp) as (ind' & st' & its' & _ & Hw).
    replace (length h + 1 + (t - (length h + 1))) with t in Hw by lia.
    by rewrite Hw.
  - by rewrite (lookup_ge_None_2 hk t) by lia.
Qed.

Lemma addpage_added h sources hk page :
  pages_added h sources hk → page < length h →
  match addpage (mkPdfWriter (length h) compress version) page hk with
  | Some hk' => is_page h page = true ∧ pages_added h (sources ++ [page]) hk'
  | None => is_page h page = false
  end.
Proof.
  intros Hadded Hlt. unfold addpage.
  rewrite (is_page_added h sources hk page Hadded Hlt).
  destruct (is_page h page) eqn:Hpage; [|done].
  destruct Hadded as (Hlen & Harr & Hold & Hnew).
  rewrite Hold by done.
  destruct (h !! page) as [[|ind stream items|]|] eqn:Hp;
    try (unfold is_page in Hpage; by rewrite Hp in Hpage).
  simpl. rewrite lookup_app_l by lia. rewrite Harr.
  split; [done|]. split; [|split; [|split]].
  - rewrite length_insert, !length_app. simpl. lia.
  - rewrite list_lookup_insert_eq by (rewrite length_app; lia).
    rewrite length_app. simpl. rewrite seq_app. simpl. by rewrite Hlen.
  - intros x Hx. rewrite list_lookup_insert_ne by lia.
    rewrite lookup_app_l by lia. by apply Hold.
  - intros i p [Hi|[Hge Hi]]%lookup_app_Some.
    + destruct (Hnew _ _ Hi) as (ind' & st' & its' & Hsrc & Hw).
      exists ind', st', its'. split; [done|].
      rewrite list_lookup_insert_ne by lia.
      rewrite lookup_app_l; [done|]. by eapply lookup_lt_Some.
    + apply list_lookup_singleton_Some in Hi as [Hi <-].
      exists ind, stream, items. split; [done|].
      rewrite list_lookup_insert_ne by lia.
      rewrite lookup_app_r by lia.
      replace (length h + 1 + i - length hk) with 0 by lia. done.
Qed.

Lemma addpages_added h sources hk pages :
  pages_added h sources hk → Forall (λ p, p < length h) pages →
  (is_Some (addpages (mkPdfWriter (length h) compress version) pages hk)
   ↔ Forall (λ p, is_page h p = true) pages)
  ∧ ∀ h1, addpages (mkPdfWriter (length h) compress version) pages hk = Some h1 →
          pages_added h (sources ++ pages) h1.
Proof.
  intros Hadded Hlt. revert sources hk Hadded.
  induction Hlt as [|page pages Hpage Hlt IH]; intros sources hk Hadded.
  - simpl. split; [split; [constructor|eauto]|].
    intros h1 [= <-]. by rewrite app_nil_r.
  - simpl. pose proof (addpage_added h sources hk page Hadded Hpage) as Hstep.
    destruct (addpage _ page hk) as [hk'|].
    + destruct Hstep as [Hp Hadded']. destruct (IH _ _ Hadded') as [IH1 IH2].
      split.
      * rewrite IH1. split; [by constructor|]. by inversion 1.
      * intros h1 Hh1.
        replace (sources ++ page :: pages) with ((sources ++ [page]) ++ pages)
          by (by rewrite <- app_assoc).
        by apply IH2.
    + split; [|done]. split; [by intros [? ?]|].
      inversion 1; congruence.
Qed.

Lemma pages_added_init h : pages_added h [] (h ++ [PdfArray false []]).
Proof.
  split; [|split; [|split]].
  - rewrite length_app. simpl. lia.
  - by rewrite lookup_app_r, Nat.sub_diag.
  - intros x Hx. by rewrite lookup_app_l.
  - intros i page Hi. by rewrite lookup_nil in Hi.
Qed.

(** X12: A writer is made on the objects [h] and the pages [pages], objects of
    [h], are added one after the other.  The assertion of [addpage] is
    all that can fail, and it fails for what is not a page.  Otherwise
    the objects of [h] are as they were; behind them come the page array
    and one indirect copy for each call, in the order of the calls, and
    the page array lists the copies. *)
Theorem addpages_in_call_order (h : heap) (pages : list ident) :
  Forall (λ p, p < length h) pages →
  let w := (PdfWriter_init version compress h).1 in
  let h0 := (PdfWriter_init version compress h).2 in
  (is_Some (addpages w pages h0) ↔ Forall (λ p, is_page h p = true) pages)
  ∧ ∀ h1, addpages w pages h0 = Some h1 → pages_added h pages h1.
Proof.
  intros Hlt w h0. subst w h0. simpl.
  apply (addpages_added h [] (h ++ [PdfArray false []]) pages); [|done].
  apply pages_added_init.
Qed.

End pages.

(** The page of [page_arena], added twice. *)
Lemma addpages_in_call_order_witness :
  Forall (λ p, p < length (page_arena false)) [1; 1]
  ∧ ∃ h1,
      addpages (PdfWriter_init "1.3" true (page_arena false)).1 [1; 1]
               (PdfWriter_init "1.3" true (page_arena false)).2 = Some h1
      ∧ h1 !! 2 = Some (PdfArray false [3; 4])
      ∧ length h1 = 5.
Proof.
  assert (Forall (λ p, p < length (page_arena false)) [1; 1]) as Hlt.
  { repeat constructor. }
  split; [exact Hlt|].
  destruct (addpages_in_call_order "1.3" true (page_arena false) [1; 1] Hlt)
    as [Hsome Hadded].
  destruct (proj2 Hsome) as [h1 Hh1]; [by repeat constructor|].
  exists h1. split; [exact Hh1|].
  destruct (Hadded h1 Hh1) as (Hlen & Harr & _). by split.
Defined.

Section page_tree.

Lemma set_item_idem key v items :
  set_item key v (set_item key v items) = set_item key v items.
Proof.
  induction items as [|[k w] items IH]; simpl.
  - by rewrite String.eqb_refl.
  - destruct (String.eqb key k) eqn:Hk; simpl.
    + by rewrite String.eqb_refl.
    + by rewrite Hk, IH.
Qed.

Lemma get_set_item key v items : get_item key (set_item key v items) = Some v.
Proof.
  induction items as [|[k w] items IH]; simpl.
  - by rewrite String.eqb_refl.
  - destruct (String.eqb key k) eqn:Hk; simpl.
    + by rewrite String.eqb_refl.
    + by rewrite Hk, IH.
Qed.

Lemma get_set_item_ne key key' v items :
  key' ≠ key → get_item key' (set_item key v items) = get_item key' items.
Proof.
  intros Hne. induction items as [|[k w] items IH]; simpl.
  - by apply String.eqb_neq in Hne as ->.
  - destruct (String.eqb_spec key k) as [->|Hk]; simpl.
    + by apply String.eqb_neq in Hne as ->.
    + by rewrite IH.
Qed.

(** The object [x] when the pages [pages] have got their [Parent]. *)
Lemma set_Parent_lookup pagedict h page x :
  set_Parent pagedict h page !! x
  = match h !! x with
    | Some (PdfDict indirect stream items) =>
        if decide (x = page)
        then Some (PdfDict indirect stream (set_item "/Parent" pagedict items))
        else h !! x
    | other => other
    end.
Proof.
  unfold set_Parent.
  destruct (decide (x = page)) as [->|Hne].
  - destruct (h !! page) as [[|ind st items|]|] eqn:Hp; rewrite ?Hp; try done.
    apply list_lookup_insert_eq. by eapply lookup_lt_Some.
  - destruct (h !! page) as [[|ind st items|]|] eqn:Hp;
      rewrite ?list_lookup_insert_ne by done;
      by destruct (h !! x) as [[|ind' st' items'|]|] eqn:Hx; rewrite ?Hx.
Qed.

Lemma set_Parent_length pagedict h page :
  length (set_Parent pagedict h page) = length h.
Proof.
  unfold set_Parent.
  destruct (h !! page) as [[|ind st items|]|]; by rewrite ?length_insert.
Qed.

Lemma set_Parents_length pagedict pages h :
  length (foldl (set_Parent pagedict) h pages) = length h.
Proof.
  revert h. induction pages as [|p pages IH]; intros h; [done|].
  simpl. by rewrite IH, set_Parent_length.
Qed.

Lemma set_Parents_lookup pagedict pages h x :
  foldl (set_Parent pagedict) h pages !! x
  = match h !! x with
    | Some (PdfDict indirect stream items) =>
        if decide (x ∈ pages)
        then Some (PdfDict indirect stream (set_item "/Parent" pagedict items))
        else h !! x
    | other => other
    end.
Proof.
  revert h. induction pages as [|p pages IH]; intros h.
  - simpl. by destruct (h !! x) as [[|ind st items|]|] eqn:Hx; rewrite ?Hx.
  - simpl. rewrite IH, set_Parent_lookup.
    destruct (h !! x) as [[|ind st items|]|] eqn:Hx; rewrite ?Hx; try done.
    destruct (decide (x = p)) as [->|Hne].
    + rewrite set_item_idem, (decide_True (P := p ∈ p :: pages)) by by left.
      by destruct (decide (p ∈ pages)).
    + destruct (decide (x ∈ pages)) as [Hin|Hin].
      * rewrite decide_True; [done|]. by right.
      * rewrite decide_False; [done|]. by intros [?|?]%elem_of_cons.
Qed.

(** The arena that [write] hands to [dump], object by object. *)
Lemma write_graph_objects self h indirect elems :
  h !! pagearray self = Some (PdfArray indirect elems) →
  Forall (λ page, page < length h) elems →
  let n := length h in
  let h' := (write_graph self h).2 in
  (write_graph self h).1 = n + 5
  ∧ length h' = n + 6
  ∧ h' !! (n + 5) = Some (PdfDict false None [("/Root", n + 4)])
  ∧ h' !! (n + 4) = Some (PdfDict true None [("/Type", n + 3); ("/Pages", n + 2)])
  ∧ h' !! (n + 3) = Some (Scalar false "/Catalog")
  ∧ h' !! (n + 2)
    = Some (PdfDict true None
              [("/Type", n); ("/Count", n + 1); ("/Kids", pagearray self)])
  ∧ h' !! (n + 1) = Some (Scalar false (pretty (length elems)))
  ∧ h' !! n = Some (Scalar false "/Pages")
  ∧ (∀ x, x < n →
       h' !! x
       = match h !! x with
         | Some (PdfDict ind stream items) =>
             if decide (x ∈ elems)
             then Some (PdfDict ind stream (set_item "/Parent" (n + 2) items))
             else h !! x
         | other => other
         end).
Proof.
  intros Harr Hlt n h'. subst h'. unfold write_graph.
  rewrite Harr. cbn [fst snd]. rewrite set_Parents_length, length_app.
  cbn [length]. fold n.
  set (h1 := h ++ [Scalar false "/Pages"; Scalar false (pretty (length elems));
                   PdfDict true None [("/Type", n); ("/Count", n + 1);
                                      ("/Kids", pagearray self)]]).
  set (h2 := foldl (set_Parent (n + 2)) h1 elems).
  assert (length h2 = n + 3) as Hlen2.
  { subst h2. rewrite set_Parents_length. subst h1. rewrite length_app. done. }
  assert (∀ x, x < n → h1 !! x = h !! x) as Hold.
  { intros x Hx. subst h1. by rewrite lookup_app_l. }
  assert (∀ x, n ≤ x → x ∉ elems) as Hfresh.
  { intros x Hx Hin. rewrite Forall_forall in Hlt. apply Hlt in Hin. lia. }
  assert (∀ x, n ≤ x → h2 !! x = h1 !! x) as Hnew.
  { intros x Hx. subst h2. rewrite set_Parents_lookup.
    destruct (h1 !! x) as [[|ind st items|]|]; try done.
    rewrite decide_False; [done|]. by apply Hfresh. }
  assert (∀ k nd, h1 !! (n + k) = Some nd → (h2 ++ [Scalar false "/Catalog";
            PdfDict true None [("/Type", n + 3); ("/Pages", n + 2)];
            PdfDict false None [("/Root", n + 3 + 1)]]) !! (n + k) = Some nd)
    as Hmid.
  { intros k nd Hk. apply lookup_app_l_Some. rewrite Hnew by lia. done. }
  replace (n + 3 + 2) with (n + 5) by lia.
  replace (n + 3 + 1) with (n + 4) in * by lia.
  split; [done|]. split; [rewrite length_app, Hlen2; simpl; lia|].
  split; [|split; [|split; [|split; [|split; [|split]]]]].
  - rewrite lookup_app_r by lia. by replace (n + 5 - length h2) with 2 by lia.
  - rewrite lookup_app_r by lia. by replace (n + 4 - length h2) with 1 by lia.
  - rewrite lookup_app_r by lia. by replace (n + 3 - length h2) with 0 by lia.
  - apply Hmid. subst h1. rewrite lookup_app_r by (fold n; lia).
    fold n. by replace (n + 2 - n) with 2 by lia.
  - apply Hmid. subst h1. rewrite lookup_app_r by (fold n; lia).
    fold n. by replace (n + 1 - n) with 1 by lia.
  - replace n with (n + 0) at 1 by lia. apply Hmid. subst h1.
    rewrite lookup_app_r by (fold n; lia).
    fold n. by replace (n + 0 - n) with 0 by lia.
  - intros x Hx. rewrite lookup_app_l by lia.
    subst h2. by rewrite set_Parents_lookup, Hold.
Qed.

(** X13: The objects that [write] makes before it calls [dump]: the trailer
    leads to the Catalog and the Catalog to the Pages node; the Pages
    node has the page array as [Kids] and the number of its entries as
    [Count]; each page of the array has got the Pages node as [Parent]
    and kept its other entries; every other object is as it was. *)
Theorem write_builds_page_tree self h indirect elems :
  h !! pagearray self = Some (PdfArray indirect elems) →
  Forall (λ page, page < length h) elems →
  let n := length h in
  let trailer := (write_graph self h).1 in
  let h' := (write_graph self h).2 in
  h' !! trailer = Some (PdfDict false None [("/Root", n + 4)])
  ∧ h' !! (n + 4) = Some (PdfDict true None [("/Type", n + 3); ("/Pages", n + 2)])
  ∧ h' !! (n + 2)
    = Some (PdfDict true None
              [("/Type", n); ("/Count", n + 1); ("/Kids", pagearray self)])
  ∧ h' !! (n + 1) = Some (Scalar false (pretty (length elems)))
  ∧ h' !! pagearray self = Some (PdfArray indirect elems)
  ∧ (∀ page ind stream items,
       page ∈ elems → h !! page = Some (PdfDict ind stream items) →
       ∃ items',
         h' !! page = Some (PdfDict ind stream items')
         ∧ get_item "/Parent" items' = Some (n + 2)
         ∧ ∀ key, key ≠ "/Parent" → get_item key items' = get_item key items)
  ∧ (∀ x, x < n → x ∉ elems → h' !! x = h !! x).
Proof.
  intros Harr Hlt n trailer h'.
  destruct (write_graph_objects self h indirect elems Harr Hlt)
    as (Ht & _ & H5 & H4 & _ & H2 & H1 & _ & Hold).
  fold n h' in Ht, H5, H4, H2, H1, Hold. subst trailer. rewrite Ht.
  split; [done|]. split; [done|]. split; [done|]. split; [done|].
  split; [|split].
  - rewrite Hold by (by eapply lookup_lt_Some). by rewrite Harr.
  - intros page ind stream items Hin Hpage.
    exists (set_item "/Parent" (n + 2) items). split; [|split].
    + rewrite Hold by (by eapply lookup_lt_Some). rewrite Hpage.
      by rewrite decide_True.
    + apply get_set_item.
    + intros key Hkey. by apply get_set_item_ne.
  - intros x Hx Hnin. rewrite Hold by done.
    destruct (h !! x) as [[|ind st items|]|]; try done.
    by rewrite decide_False.
Qed.

End page_tree.

(** A page array of one page. *)
Lemma write_builds_page_tree_witness :
  let self := mkPdfWriter 2 true "1.3" in
  let h := [Scalar false "/Page"; PdfDict true None [("/Type", 0)];
            PdfArray false [1]] in
  h !! pagearray self = Some (PdfArray false [1])
  ∧ Forall (λ page, page < length h) [1]
  ∧ (write_graph self h).2 !! 4 = Some (Scalar false "1")
  ∧ ∃ items',
      (write_graph self h).2 !! 1 = Some (PdfDict true None items')
      ∧ get_item "/Parent" items' = Some 5.
Proof.
  intros self h.
  assert (h !! pagearray self = Some (PdfArray false [1])) as Harr by reflexivity.
  assert (Forall (λ page, page < length h) [1]) as Hlt by (repeat constructor).
  split; [exact Harr|]. split; [exact Hlt|].
  destruct (write_builds_page_tree self h false [1] Harr Hlt)
    as (_ & _ & _ & Hcount & _ & Hparent & _).
  split; [exact Hcount|].
  destruct (Hparent 1 true None [("/Type", 0)]) as (items' & H1 & H2 & _);
    [by left|reflexivity|].
  exists items'. split; [exact H1|exact H2].
Defined.

Section document.
Variable compress1 :
  string → list (string * ident) →
  string * list (string * ident) * list (string * string).
Variable compress : bool.
Hypothesis contract : compress = true → keeps_links compress1.
Variable version : string.

Section arena_of_write.
Variables (h : heap) (pages : list ident) (h1 : heap).
Hypothesis Hclosed : closed h.
Hypothesis Hadded : pages_added h pages h1.

Local Abbreviation arena :=
  ((write_graph (mkPdfWriter (length h) compress version) h1).2).
Local Abbreviation base := (length h1).

Lemma arena_objects :
  base = length h + 1 + length pages
  ∧ (write_graph (mkPdfWriter (length h) compress version) h1).1 = base + 5
  ∧ length arena = base + 6
  ∧ arena !! (base + 5) = Some (PdfDict false None [("/Root", base + 4)])
  ∧ arena !! (base + 4)
    = Some (PdfDict true None [("/Type", base + 3); ("/Pages", base + 2)])
  ∧ arena !! (base + 3) = Some (Scalar false "/Catalog")
  ∧ arena !! (base + 2)
    = Some (PdfDict true None
              [("/Type", base); ("/Count", base + 1); ("/Kids", length h)])
  ∧ arena !! (base + 1) = Some (Scalar false (pretty (length pages)))
  ∧ arena !! base = Some (Scalar false "/Pages")
  ∧ (∀ x, x < length h → arena !! x = h !! x)
  ∧ arena !! length h
    = Some (PdfArray false (seq (length h + 1) (length pages)))
  ∧ (∀ i page, pages !! i = Some page →
       ∃ ind stream items,
         h !! page = Some (PdfDict ind stream items)
         ∧ arena !! (length h + 1 + i)
           = Some (PdfDict true stream (set_item "/Parent" (base + 2) items))).
Proof.
  destruct Hadded as (Hlen & Harr & Hold & Hnew).
  assert (Forall (λ page, page < length h1)
                 (seq (length h + 1) (length pages))) as Hlt.
  { apply Forall_forall. intros x Hx%elem_of_seq. lia. }
  destruct (write_graph_objects (mkPdfWriter (length h) compress version) h1 false
              (seq (length h + 1) (length pages)) Harr Hlt)
    as (Ht & Hl & H5 & H4 & H3 & H2 & H1 & H0 & Hlow).
  rewrite length_seq in H1. simpl in H2.
  split; [done|]. split; [done|]. split; [done|]. split; [done|].
  split; [done|]. split; [done|]. split; [done|]. split; [done|].
  split; [done|]. split; [|split].
  - intros x Hx. rewrite Hlow by lia. rewrite Hold by done.
    destruct (h !! x) as [[|ind st items|]|]; try done.
    rewrite decide_False; [done|]. intros Hin%elem_of_seq. lia.
  - rewrite Hlow by lia. by rewrite Harr.
  - intros i page Hi. destruct (Hnew i page Hi) as (ind & st & items & Hsrc & Hw).
    exists ind, st, items. split; [done|].
    apply lookup_lt_Some in Hi.
    rewrite Hlow by lia. rewrite Hw.
    rewrite decide_True; [done|]. apply elem_of_seq. lia.
Qed.

Lemma elem_of_children_dict (items : list (string * ident)) y :
  y ∈ map snd (sorted items) → ∃ key, (key, y) ∈ items.
Proof.
  intros ([key v] & -> & Hin)%list_elem_of_fmap.
  rewrite sorted_perm in Hin. by exists key.
Qed.

(** The references of the arena that [write] hands to [dump]. *)
Lemma arena_refers z y :
  refers arena z y →
  (z < length h ∧ refers h z y ∧ y < length h)
  ∨ (z = length h ∧ length h < y < base)
  ∨ (length h < z < base ∧ (y = base + 2 ∨ y < length h))
  ∨ (z = base + 2 ∧ (y = base ∨ y = base + 1 ∨ y = length h))
  ∨ (z = base + 4 ∧ (y = base + 3 ∨ y = base + 2))
  ∨ (z = base + 5 ∧ y = base + 4).
Proof.
  destruct arena_objects
    as (Hbase & _ & Hl & H5 & H4 & H3 & H2 & H1 & H0 & Hold & Harr & Hwrap).
  unfold refers at 1, children. intros Hy.
  destruct (decide (z < length h)) as [Hz|Hz].
  { left. rewrite Hold in Hy by done. split; [done|]. split; [done|].
    rewrite closed_spec in Hclosed. by eapply Hclosed. }
  destruct (decide (z = length h)) as [->|Hz1].
  { right; left. rewrite Harr in Hy. simpl in Hy.
    apply elem_of_seq in Hy. split; [done|]. lia. }
  destruct (decide (z < base)) as [Hz2|Hz2].
  { right; right; left. split; [lia|].
    destruct (lookup_lt_is_Some_2 pages (z - (length h + 1))) as [page Hp]; [lia|].
    destruct (Hwrap _ _ Hp) as (ind & st & items & Hsrc & Hw).
    replace (length h + 1 + (z - (length h + 1))) with z in Hw by lia.
    rewrite Hw in Hy. cbn [children_of] in Hy.
    apply elem_of_children_dict in Hy as [key Hin].
    apply set_item_elem in Hin as [[= _ ->]|Hin]; [by left|right].
    rewrite closed_spec in Hclosed. apply (Hclosed page).
    unfold children. rewrite Hsrc. simpl.
    apply list_elem_of_fmap. exists (key, y). by rewrite sorted_perm. }
  destruct (decide (z = base)) as [->|Hz3].
  { rewrite H0 in Hy. by apply elem_of_nil in Hy. }
  destruct (decide (z = base + 1)) as [->|Hz4].
  { rewrite H1 in Hy. by apply elem_of_nil in Hy. }
  destruct (decide (z = base + 2)) as [->|Hz5].
  { do 3 right; left. split; [done|]. rewrite H2 in Hy. cbn [children_of] in Hy.
    apply elem_of_children_dict in Hy as [key Hin].
    apply list_elem_of_In in Hin. simpl in Hin.
    destruct Hin as [[= _ <-]|[[= _ <-]|[[= _ <-]|[]]]]; auto. }
  destruct (decide (z = base + 3)) as [->|Hz6].
  { rewrite H3 in Hy. by apply elem_of_nil in Hy. }
  destruct (decide (z = base + 4)) as [->|Hz7].
  { do 4 right; left. split; [done|]. rewrite H4 in Hy. cbn [children_of] in Hy.
    apply elem_of_children_dict in Hy as [key Hin].
    apply list_elem_of_In in Hin. simpl in Hin.
    destruct Hin as [[= _ <-]|[[= _ <-]|[]]]; auto. }
  destruct (decide (z = base + 5)) as [->|Hz8].
  { do 5 right. split; [done|]. rewrite H5 in Hy. cbn [children_of] in Hy.
    apply elem_of_children_dict in Hy as [key Hin].
    apply list_elem_of_In in Hin. simpl in Hin.
    by destruct Hin as [[= _ <-]|[]]. }
  rewrite lookup_ge_None_2 in Hy by lia. by apply elem_of_nil in Hy.
Qed.

Lemma arena_closed : closed arena.
Proof.
  destruct arena_objects as (Hbase & _ & Hl & _).
  apply closed_spec. intros x c Hc. rewrite Hl.
  destruct (arena_refers x c Hc) as [?|[?|[?|[?|[?|?]]]]]; lia.
Qed.

(** A walk that starts in an object of [h] is a walk of [h]. *)
Lemma arena_walk_old c p y :
  c < length h → walk (refers arena) c p y →
  walk (refers h) c p y ∧ y < length h.
Proof.
  destruct arena_objects as (Hbase & _).
  intros Hc Hwalk. revert Hc.
  induction Hwalk as [x|x y p z Hxy Hwalk IH]; intros Hx.
  { split; [constructor|done]. }
  destruct (arena_refers x y Hxy) as [(_ & Hold & Hy)|[?|[?|[?|[?|?]]]]]; try lia.
  destruct (IH Hy) as [Hw Hz]. split; [|done]. by econstructor.
Qed.

(** The page array is the one object on a cycle that is not indirect,
    and the Pages node guards it. *)
Lemma arena_guarded : acyclic h → guarded arena (base + 5).
Proof.
  intros Hacyclic c p Hind Hp Hcycle.
  destruct arena_objects
    as (Hbase & _ & Hl & H5 & H4 & H3 & H2 & H1 & H0 & Hold & Harr & Hwrap).
  assert (∀ z, refers arena z (length h) → z = base + 2) as Hkids.
  { intros z Hz. destruct (arena_refers z _ Hz) as [?|[?|[?|[?|[?|?]]]]]; lia. }
  assert (c = length h) as ->.
  { destruct (decide (c < length h)) as [Hc|Hc].
    { destruct (arena_walk_old c p c Hc Hcycle) as [Hw _].
      by destruct (Hacyclic c p Hp). }
    destruct (walk_pred _ _ _ _ Hcycle Hp) as (z & Hz & _).
    inversion Hcycle as [|? y ? ? Hcy _]; subst; [done|].
    unfold indirect_at in Hind.
    destruct (arena_refers _ _ Hcy) as [?|[?|[[Hcr _]|[[Hc2 _]|[[Hc4 _]|[Hc5 _]]]]]].
    - lia.
    - lia.
    - destruct (lookup_lt_is_Some_2 pages (c - (length h + 1))) as [page Hpg]; [lia|].
      destruct (Hwrap _ _ Hpg) as (ind & st & items & _ & Hw).
      replace (length h + 1 + (c - (length h + 1))) with c in Hw by lia.
      by rewrite Hw in Hind.
    - subst c. by rewrite H2 in Hind.
    - subst c. by rewrite H4 in Hind.
    - destruct (arena_refers _ _ Hz) as [?|[?|[?|[?|[?|?]]]]]; lia. }
  exists (base + 2). split; [|split; [|split]].
  - destruct (walk_pred _ _ _ _ Hcycle Hp) as (z & Hz%Hkids & [Hzc|Hzp]); [lia|].
    by subst z.
  - unfold indirect_at. by rewrite H2.
  - lia.
  - intros q Hq. assert (q ≠ []) as Hne by (intros ->; inversion Hq; lia).
    destruct (walk_pred _ _ _ _ Hq Hne) as (z & Hz%Hkids & [Hzc|Hzp]); [lia|].
    by subst z.
Qed.

End arena_of_write.

Lemma write_dump limit (self : PdfWriter) (h1 : heap) :
  write compress1 limit self h1
  = dump compress1 limit (write_graph self h1).1 (pw_version self) (pw_compress self)
         (write_graph self h1).2.
Proof. unfold write. by destruct (write_graph self h1). Qed.

(** X14: A document is written when its pages are pages, the objects
    handed over hold no cycle and the interpreter allows the nesting
    (two calls for every object of the arena are enough): the script's
    calls, [PdfWriter()], [addpage] for each page and [write], all
    return.  The one cycle of the arena, from a page to the Pages node
    and back through the page array, passes the assertion of [add].
    Whatever nesting is allowed, [write] gives the file or ends with the
    interpreter's error. *)
Theorem document_is_written (h : heap) (pages : list ident) :
  closed h → acyclic h →
  Forall (λ p, p < length h) pages →
  Forall (λ p, is_page h p = true) pages →
  let w := (PdfWriter_init version compress h).1 in
  let h0 := (PdfWriter_init version compress h).2 in
  ∃ h1,
    addpages w pages h0 = Some h1
    ∧ (∀ limit, enough_fuel h + 2 * (length pages + 7) ≤ limit →
         ∃ out h2, write compress1 limit w h1 = Ok (out, h2))
    ∧ (∀ limit,
         (∃ out h2, write compress1 limit w h1 = Ok (out, h2))
         ∨ write compress1 limit w h1 = Raise RecursionLimit).
Proof.
  intros Hclosed Hacyclic Hlt Hpages w h0. subst w h0. simpl.
  destruct (addpages_added version compress h [] (h ++ [PdfArray false []]) pages
              (pages_added_init h) Hlt) as [Hsome Hadded].
  destruct (proj2 Hsome Hpages) as [h1 Hh1].
  specialize (Hadded h1 Hh1). simpl in Hadded.
  exists h1. split; [done|].
  destruct (arena_objects h pages h1 Hadded) as (Hbase & Ht & Hl & _).
  set (arena := (write_graph (mkPdfWriter (length h) compress version) h1).2) in *.
  set (trailer := (write_graph (mkPdfWriter (length h) compress version) h1).1) in *.
  pose proof (arena_closed h pages h1 Hclosed Hadded) as Hcl.
  pose proof (arena_guarded h pages h1 Hclosed Hadded Hacyclic) as Hguard.
  fold arena in Hcl, Hguard. rewrite <- Ht in Hguard.
  assert (trailer < length arena) as Hin by (rewrite Ht, Hl; lia).
  assert (Hwritten : ∀ limit, enough_fuel arena ≤ limit →
            ∃ out h2,
              write compress1 limit (mkPdfWriter (length h) compress version) h1
              = Ok (out, h2)).
  { intros limit Hlimit. rewrite write_dump. cbn [pw_version pw_compress].
    destruct (dump_format_guarded compress1 compress contract limit arena trailer
                Hcl Hin Hlimit Hguard) as (text & final & Hd).
    unfold dump. fold arena trailer. rewrite Hd. by eexists _, _. }
  split.
  - intros limit Hlimit. apply Hwritten.
    unfold enough_fuel in *. rewrite Hl. lia.
  - intros limit. rewrite write_dump. cbn [pw_version pw_compress].
    fold arena trailer. unfold dump.
    destruct (dump_format_limit compress1 compress contract limit arena trailer
                Hcl Hin) as [-> | ->]; [left|by right].
    destruct (Hwritten (enough_fuel arena) (le_n _)) as (out & h2 & Hw).
    rewrite write_dump in Hw. cbn [pw_version pw_compress] in Hw.
    exact (ex_intro _ out (ex_intro _ h2 Hw)).
Qed.

End document.

Lemma page_arena_acyclic indirect : acyclic (page_arena indirect).
Proof.
  intros c p Hp Hwalk.
  assert (∀ z y, refers (page_arena indirect) z y → z = 1 ∧ y = 0) as Hrefers.
  { intros [|[|z]] y Hy; unfold refers, children in Hy; simpl in Hy.
    - by apply elem_of_nil in Hy.
    - by apply list_elem_of_singleton in Hy as ->.
    - by apply elem_of_nil in Hy. }
  destruct (walk_pred _ _ _ _ Hwalk Hp) as (z & [_ ->]%Hrefers & _).
  inversion Hwalk as [|? y ? ? [[=] _]%Hrefers _]; by subst.
Qed.

(** The document of one page. *)
Lemma document_is_written_witness :
  closed (page_arena false) ∧ acyclic (page_arena false)
  ∧ Forall (λ p, p < length (page_arena false)) [1]
  ∧ Forall (λ p, is_page (page_arena false) p = true) [1]
  ∧ ∃ h1,
      addpages (PdfWriter_init "1.3" true (page_arena false)).1 [1]
               (PdfWriter_init "1.3" true (page_arena false)).2 = Some h1
      ∧ ∃ out h2,
          write example_filter 1000 (PdfWriter_init "1.3" true (page_arena false)).1 h1
          = Ok (out, h2).
Proof.
  assert (closed (page_arena false)) as Hclosed.
  { unfold closed, page_arena. repeat constructor. }
  assert (Forall (λ p, p < length (page_arena false)) [1]) as Hlt.
  { repeat constructor. }
  assert (Forall (λ p, is_page (page_arena false) p = true) [1]) as Hpages.
  { by repeat constructor. }
  split; [exact Hclosed|]. split; [apply page_arena_acyclic|].
  split; [exact Hlt|]. split; [exact Hpages|].
  destruct (document_is_written example_filter true (example_contract true) "1.3"
              (page_arena false) [1] Hclosed (page_arena_acyclic false) Hlt Hpages)
    as (h1 & Hadd & Hwrite & _).
  exists h1. split; [exact Hadd|].
  apply Hwrite. vm_compute. lia.
Defined.

